(** * Connect 4 with minimax / alpha-beta and MCTS players

    A shallow embedding of [connect4.py], [minimax.py] and [mcts.py].

    Conventions of the embedding.
    - Python integers are [Z]; the numpy board is a [list (list Z)] together
      with the [rows] and [cols] attributes of the object.
    - A computation that can raise (an [IndexError] of numpy, a [ValueError]
      of [math.log], an attribute access on [None]) returns [option];
      [None] stands for the raised exception.  Recursions of the source that
      are not structural take a fuel argument and return [None] when it runs
      out; the totality lemmas show that the fuel used by the entry points
      is enough.
    - Mutation is explicit state passing: a method that mutates [self]
      returns the new object. *)

From Stdlib Require Import ZArith Lia.
From stdpp Require Import base tactics option numbers list.

Local Open Scope Z_scope.

(** ** Python primitives *)

Module Py.

(** [range(lo, hi)] *)
Definition range (lo hi : Z) : list Z := seqZ lo (hi - lo).

(** [range(hi, lo, -1)]: [hi, hi-1, ..., lo+1] *)
Definition range_down (hi lo : Z) : list Z :=
  (λ i, hi - i) <$> seqZ 0 (hi - lo).

(** The position denoted by an integer index into a sequence of length [n]:
    a negative index counts from the end, an index outside [-n, n) raises
    [IndexError]. *)
Definition position (n : nat) (i : Z) : option nat :=
  if bool_decide (0 ≤ i) then
    if bool_decide (i < Z.of_nat n) then Some (Z.to_nat i) else None
  else if bool_decide (- Z.of_nat n ≤ i) then Some (Z.to_nat (Z.of_nat n + i))
  else None.

(** [l[i]] *)
Definition index {A} (l : list A) (i : Z) : option A :=
  k ← position (length l) i; l !! k.

(** [l[i] = x] *)
Definition set_index {A} (l : list A) (i : Z) (x : A) : option (list A) :=
  k ← position (length l) i; Some (<[k := x]> l).

(** [all(gen)] over a generator whose elements may raise: the elements are
    consumed left to right and the scan stops at the first false one. *)
Fixpoint all (l : list (option bool)) : option bool :=
  match l with
  | [] => Some true
  | x :: l' => b ← x; if b : bool then all l' else Some false
  end.

(** [l.count(x)] *)
Definition count (l : list Z) (x : Z) : Z :=
  Z.of_nat (length (filter (λ y, y = x) l)).

(** A [for] loop whose body updates the loop-carried variables [s]. *)
Fixpoint for_ {A S} (l : list A) (body : S → A → option S) (s : S) : option S :=
  match l with
  | [] => Some s
  | x :: l' => s' ← body s x; for_ l' body s'
  end.

(** A [for] loop whose body may [break]: the body returns the updated
    variables and whether it executed [break]. *)
Fixpoint for_break {A S} (l : list A) (body : S → A → option (S * bool)) (s : S)
  : option S :=
  match l with
  | [] => Some s
  | x :: l' =>
      r ← body s x;
      if r.2 : bool then Some r.1 else for_break l' body r.1
  end.

(** A [for] loop whose body may [return r] ([Some (Some r)]) or fall through
    to the next iteration ([Some None]). *)
Fixpoint for_return {A R} (l : list A) (body : A → option (option R))
  : option (option R) :=
  match l with
  | [] => Some None
  | x :: l' =>
      r ← body x;
      match r with
      | Some v => Some (Some v)
      | None => for_return l' body
      end
  end.

End Py.

(** ** connect4.py *)

Definition THREE_IN_ROW : Z := 100.
Definition TWO_IN_ROW : Z := 10.
Definition CENTER_BONUS : Z := 3.

Record Connect4 := mkConnect4 {
  rows : Z;
  cols : Z;
  board : list (list Z);
  current_player : Z
}.

(** [np.zeros((rows, cols), dtype=int)] *)
Definition zeros (r c : Z) : list (list Z) :=
  replicate (Z.to_nat r) (replicate (Z.to_nat c) 0).

(** [Connect4(rows, cols)] *)
Definition new_game (r c : Z) : Connect4 :=
  {| rows := r; cols := c; board := zeros r c; current_player := 1 |}.

(** [self.board[r][c]] *)
Definition getitem (g : Connect4) (r c : Z) : option Z :=
  row ← Py.index (board g) r; Py.index row c.

(** [self.board[r][c] = v] *)
Definition setitem (g : Connect4) (r c v : Z) : option Connect4 :=
  row ← Py.index (board g) r;
  row' ← Py.set_index row c v;
  b' ← Py.set_index (board g) r row';
  Some {| rows := rows g; cols := cols g; board := b';
          current_player := current_player g |}.

(** [self.board[None][c] = v]: [board[None]] is a view of shape
    [(1, rows, cols)], so index [0] (or [-1]) of it is the whole board, which
    the assignment fills with [v]; any other index raises [IndexError]. *)
Definition setitem_newaxis (g : Connect4) (c v : Z) : option Connect4 :=
  if bool_decide (c = 0 ∨ c = -1) then
    Some {| rows := rows g; cols := cols g;
            board := (λ row : list Z, (λ _ : Z, v) <$> row) <$> board g;
            current_player := current_player g |}
  else None.

Definition drop_piece (g : Connect4) (row col : Z) : option Connect4 :=
  setitem g row col (current_player g).

Definition switch_player (g : Connect4) : Connect4 :=
  {| rows := rows g; cols := cols g; board := board g;
     current_player := 3 - current_player g |}.

Definition is_valid_location (g : Connect4) (col : Z) : option bool :=
  v ← getitem g 0 col; Some (bool_decide (v = 0)).

(** The loop returns the first empty row from the bottom; the outer [Some]
    is normal termination, the inner option is the returned row or [None]. *)
Definition get_next_open_row (g : Connect4) (col : Z) : option (option Z) :=
  Py.for_return (Py.range_down (rows g - 1) (-1))
    (λ r, v ← getitem g r col;
          if bool_decide (v = 0) then Some (Some r) else Some None).

(** [all(self.board[f i] == player for i in range(4))] *)
Definition all4 (g : Connect4) (player : Z) (cell : Z → Z * Z) : option bool :=
  Py.all ((λ i, v ← getitem g (cell i).1 (cell i).2;
                Some (bool_decide (v = player))) <$> Py.range 0 4).

Definition is_winning_move (g : Connect4) (row col : Z) : option bool :=
  let me := current_player g in
  let rs := Py.range (Z.max 0 (row - 3)) (Z.min (rows g - 3) (row + 1)) in
  let cs := Py.range (Z.max 0 (col - 3)) (Z.min (cols g - 3) (col + 1)) in
  let cs_down := Py.range_down (Z.min (cols g - 1) (col + 3))
                               (Z.max (-1) (col - 4)) in
  let hit (b : option bool) : option (option bool) :=
    b' ← b; if b' : bool then Some (Some true) else Some None in
  (* check horizontal *)
  h ← Py.for_return cs (λ c, hit (all4 g me (λ i, (row, c + i))));
  if h is Some r then Some r else
  (* check vertical *)
  v ← Py.for_return rs (λ r, hit (all4 g me (λ i, (r + i, col))));
  if v is Some r then Some r else
  (* check positive diagonal *)
  p ← Py.for_return (zip rs cs)
        (λ rc, hit (all4 g me (λ i, (rc.1 + i, rc.2 + i))));
  if p is Some r then Some r else
  (* check negative diagonal *)
  n ← Py.for_return (zip rs cs_down)
        (λ rc, hit (all4 g me (λ i, (rc.1 + i, rc.2 - i))));
  if n is Some r then Some r else
  Some false.

(** The body of the double loop of [get_game_state] at one cell. *)
Definition scan_cell (g : Connect4) (row col : Z) : option (option Z) :=
  player ← getitem g row col;
  if bool_decide (player ≠ 0) then
    (* Check horizontal (right) *)
    h ← (if bool_decide (col ≤ cols g - 4)
         then all4 g player (λ i, (row, col + i)) else Some false);
    if h : bool then Some (Some player) else
    (* Check vertical (down) *)
    v ← (if bool_decide (row ≤ rows g - 4)
         then all4 g player (λ i, (row + i, col)) else Some false);
    if v : bool then Some (Some player) else
    (* Check positive diagonal (down-right) *)
    p ← (if bool_decide (row ≤ rows g - 4) && bool_decide (col ≤ cols g - 4)
         then all4 g player (λ i, (row + i, col + i)) else Some false);
    if p : bool then Some (Some player) else
    (* Check negative diagonal (down-left) *)
    n ← (if bool_decide (row ≤ rows g - 4) && bool_decide (3 ≤ col)
         then all4 g player (λ i, (row + i, col - i)) else Some false);
    if n : bool then Some (Some player) else
    Some None
  else Some None.

(** 0 = game ongoing, 1 = player 1 wins, 2 = player 2 wins, 3 = draw *)
Definition get_game_state (g : Connect4) : option Z :=
  w ← Py.for_return (Py.range 0 (rows g))
        (λ row, Py.for_return (Py.range 0 (cols g)) (λ col, scan_cell g row col));
  if w is Some player then Some player else
  (* Check for draw (top row full) *)
  full ← Py.all ((λ col, v ← getitem g 0 col; Some (bool_decide (v ≠ 0)))
                   <$> Py.range 0 (cols g));
  if full : bool then Some 3 else Some 0.

Definition evaluate_window (window : list Z) (player : Z) : Z :=
  let opponent := 3 - player in
  let player_count := Py.count window player in
  let opponent_count := Py.count window opponent in
  let empty_count := Py.count window 0 in
  let score := 0 in
  let score :=
    if bool_decide (player_count = 3 ∧ empty_count = 1) then score + THREE_IN_ROW
    else if bool_decide (player_count = 2 ∧ empty_count = 2) then score + TWO_IN_ROW
    else score in
  let score :=
    if bool_decide (opponent_count = 3 ∧ empty_count = 1) then score - THREE_IN_ROW
    else if bool_decide (opponent_count = 2 ∧ empty_count = 2) then score - TWO_IN_ROW
    else score in
  score.

(** [window = [self.board[f i] for i in range(4)]] *)
Definition window4 (g : Connect4) (cell : Z → Z * Z) : option (list Z) :=
  mapM (λ i, getitem g (cell i).1 (cell i).2) (Py.range 0 4).

(** [score += self.evaluate_window(window, player)] for the window [cell]. *)
Definition add_window (g : Connect4) (player : Z) (cell : Z → Z * Z) (score : Z)
  : option Z :=
  window ← window4 g cell; Some (score + evaluate_window window player).

(** The four window loops of [evaluate_position], threading [score]. *)
Definition window_score (g : Connect4) (player : Z) : option Z :=
  let score := 0 in
  score ← Py.for_ (Py.range 0 (rows g - 3)) (λ score row,
            Py.for_ (Py.range 0 (cols g - 3)) (λ score col,
              add_window g player (λ i, (row, col + i)) score) score) score;
  score ← Py.for_ (Py.range 0 (cols g)) (λ score col,
            Py.for_ (Py.range 0 (rows g - 3)) (λ score row,
              add_window g player (λ i, (row + i, col)) score) score) score;
  score ← Py.for_ (Py.range 0 (rows g - 3)) (λ score row,
            Py.for_ (Py.range 0 (cols g - 3)) (λ score col,
              add_window g player (λ i, (row + i, col + i)) score) score) score;
  score ← Py.for_ (Py.range 3 (rows g)) (λ score row,
            Py.for_ (Py.range 0 (cols g - 3)) (λ score col,
              add_window g player (λ i, (row - i, col + i)) score) score) score;
  Some score.

(** The central position bonus loop of [evaluate_position]. *)
Definition center_bonus (g : Connect4) (player : Z) : option Z :=
  let bonus := 0 in
  let center_col := cols g `div` 2 in
  Py.for_ (Py.range 0 (rows g)) (λ bonus row,
    Py.for_ (Py.range 0 (cols g)) (λ bonus col,
      v ← getitem g row col;
      if bool_decide (v = player) then
        let distance_from_center := Z.abs (col - center_col) in
        Some (bonus + Z.max 0 (CENTER_BONUS - distance_from_center))
      else Some bonus) bonus) bonus.

Definition evaluate_position (g : Connect4) (player : Z) : option Z :=
  game_state ← get_game_state g;
  if bool_decide (game_state = player) then Some 1000
  else if bool_decide (game_state = 3 - player) then Some (-1000)
  else if bool_decide (game_state = 3) then Some 0
  else
    score ← window_score g player;
    bonus ← center_bonus g player;
    Some (score + bonus).

Definition get_valid_moves (g : Connect4) : option (list Z) :=
  Py.for_ (Py.range 0 (cols g)) (λ acc col,
    ok ← is_valid_location g col;
    Some (if ok : bool then acc ++ [col] else acc)) [].

Definition copy_game (g : Connect4) : Connect4 :=
  {| rows := rows g; cols := cols g; board := board g;
     current_player := current_player g |}.

(** The undo information is the pair [(row, col)]; [row] is [None] when the
    column was full. *)
Definition undo_info : Type := option Z * Z.

Definition simulate_move (g : Connect4) (col player : Z)
  : option (undo_info * Connect4) :=
  row ← get_next_open_row g col;
  g' ← match row with
       | Some r => setitem g r col player
       | None => setitem_newaxis g col player
       end;
  Some ((row, col), g').

Definition undo_move (g : Connect4) (u : undo_info) : option Connect4 :=
  match u.1 with
  | Some r => setitem g r u.2 0
  | None => setitem_newaxis g u.2 0
  end.

(** ** Shape of the board *)

(** The numpy array has shape [(rows, cols)] and at least one row. *)
Definition wf (g : Connect4) : Prop :=
  0 < rows g
  ∧ Z.of_nat (length (board g)) = rows g
  ∧ Forall (λ row, Z.of_nat (length row) = cols g) (board g).

(** Number of empty cells of the board. *)
Definition count_empty (g : Connect4) : nat :=
  length (filter (λ v, v = 0) (concat (board g))).


(** The two players. *)
Definition is_player (p : Z) : Prop := p = 1 ∨ p = 2.

(** ** Reference definitions the claims are stated against *)

Definition Zsum (l : list Z) : Z := foldr Z.add 0 l.

(** All cells [(row, col)] of the board, row by row. *)
Definition cells (g : Connect4) : list (Z * Z) :=
  r ← Py.range 0 (rows g); c ← Py.range 0 (cols g); [(r, c)].

(** The cells holding a token of [player]. *)
Definition cells_of (g : Connect4) (player : Z) : list (Z * Z) :=
  filter (λ rc, getitem g rc.1 rc.2 = Some player) (cells g).

(** The four window directions [(drow, dcol)]: horizontal, vertical,
    positive diagonal, negative diagonal. *)
Definition directions : list (Z * Z) := [(0, 1); (1, 0); (1, 1); (1, -1)].

(** The four cells of the window that starts at [(r, c)] and runs in
    direction [d]. *)
Definition window_cells (r c : Z) (d : Z * Z) : list (Z * Z) :=
  (λ i, (r + i * d.1, c + i * d.2)) <$> Py.range 0 4.

Definition in_board (g : Connect4) (rc : Z * Z) : bool :=
  bool_decide (0 ≤ rc.1 < rows g ∧ 0 ≤ rc.2 < cols g).

(** Every contiguous 4-cell window of the board: a start cell and a
    direction such that the four cells lie on the board. *)
Definition all_windows (g : Connect4) : list (list (Z * Z)) :=
  d ← directions;
  filter (λ w, forallb (in_board g) w = true)
         ((λ rc, window_cells rc.1 rc.2 d) <$> cells g).

(** The content of a window whose cells lie on the board. *)
Definition window_content (g : Connect4) (w : list (Z * Z)) : list Z :=
  (λ rc, default 0 (getitem g rc.1 rc.2)) <$> w.

(** The sliding-window score as the specification words it: the window score
    summed over every 4-cell window in all four directions. *)
Definition all_windows_score (g : Connect4) (player : Z) : Z :=
  Zsum ((λ w, evaluate_window (window_content g w) player) <$> all_windows g).

(** Some 4-cell window through [(row, col)] holds only tokens of the current
    mover. *)
Definition four_through (g : Connect4) (row col : Z) : bool :=
  existsb (λ w, bool_decide ((row, col) ∈ w)
                && forallb (λ v, bool_decide (v = current_player g))
                           (window_content g w))
          (all_windows g).

(** The center bonus of one token in column [col]. *)
Definition center_term (g : Connect4) (col : Z) : Z :=
  Z.max 0 (3 - Z.abs (col - cols g `div` 2)).

(** The number of windows [evaluate_position] scans. *)
Definition scanned_windows (g : Connect4) : Z :=
  3 * (Z.max 0 (rows g - 3) * Z.max 0 (cols g - 3))
  + cols g * Z.max 0 (rows g - 3).

(** ** minimax.py *)

(** A score is a Python int or one of the floats [inf], [-inf]. *)
Inductive score := NegInf | Fin (z : Z) | PosInf.

(** [a < b] *)
Definition score_lt (a b : score) : bool :=
  match a, b with
  | NegInf, NegInf => false
  | NegInf, _ => true
  | Fin _, NegInf => false
  | Fin x, Fin y => bool_decide (x < y)
  | Fin _, PosInf => true
  | PosInf, _ => false
  end.

(** [a <= b] *)
Definition score_le (a b : score) : bool :=
  match a, b with
  | NegInf, _ => true
  | Fin _, NegInf => false
  | Fin x, Fin y => bool_decide (x ≤ y)
  | Fin _, PosInf => true
  | PosInf, PosInf => true
  | PosInf, _ => false
  end.

(** [max(a, b)] and [min(a, b)]: the first argument is kept unless the
    second is strictly better. *)
Definition score_max (a b : score) : score := if score_lt a b then b else a.
Definition score_min (a b : score) : score := if score_lt b a then b else a.

Record MinimaxPlayer := mkMinimaxPlayer {
  depth : Z;
  use_alpha_beta : bool
}.

(** The result of a search call: [(score, best_col)] and the game object as
    the call leaves it. *)
Definition search_result : Type := (score * option Z) * Connect4.

(** [return game.evaluate_position(player), None] *)
Definition leaf (game : Connect4) (player : Z) : option search_result :=
  e ← evaluate_position game player; Some ((Fin e, None), game).

Fixpoint minimax_basic (fuel : nat) (game : Connect4) (depth : Z)
    (maximizing_player : bool) (player : Z) : option search_result :=
  match fuel with
  | O => None
  | S fuel =>
    if bool_decide (depth = 0) then leaf game player else
    st ← get_game_state game;
    if bool_decide (st ≠ 0) then leaf game player else
    valid_moves ← get_valid_moves game;
    if bool_decide (valid_moves = []) then leaf game player else
    if maximizing_player then
      let best_score := NegInf in
      best_col ← head valid_moves;
      r ← Py.for_ valid_moves (λ '(best_score, best_col, game) col,
            '(undo_info, game) ← simulate_move game col player;
            '((score, _), game) ← minimax_basic fuel game (depth - 1) false player;
            game ← undo_move game undo_info;
            if score_lt best_score score
            then Some (score, col, game)
            else Some (best_score, best_col, game))
          (best_score, best_col, game);
      let '(best_score, best_col, game) := r in
      Some ((best_score, Some best_col), game)
    else
      let best_score := PosInf in
      best_col ← head valid_moves;
      r ← Py.for_ valid_moves (λ '(best_score, best_col, game) col,
            '(undo_info, game) ← simulate_move game col (3 - player);
            '((score, _), game) ← minimax_basic fuel game (depth - 1) true player;
            game ← undo_move game undo_info;
            if score_lt score best_score
            then Some (score, col, game)
            else Some (best_score, best_col, game))
          (best_score, best_col, game);
      let '(best_score, best_col, game) := r in
      Some ((best_score, Some best_col), game)
  end.

Fixpoint minimax_ab (fuel : nat) (game : Connect4) (depth : Z)
    (alpha beta : score) (maximizing_player : bool) (player : Z)
  : option search_result :=
  match fuel with
  | O => None
  | S fuel =>
    if bool_decide (depth = 0) then leaf game player else
    st ← get_game_state game;
    if bool_decide (st ≠ 0) then leaf game player else
    valid_moves ← get_valid_moves game;
    if bool_decide (valid_moves = []) then leaf game player else
    if maximizing_player then
      let best_score := NegInf in
      best_col ← head valid_moves;
      r ← Py.for_break valid_moves (λ '(best_score, best_col, alpha, game) col,
            '(undo_info, game) ← simulate_move game col player;
            '((score, _), game) ←
              minimax_ab fuel game (depth - 1) alpha beta false player;
            game ← undo_move game undo_info;
            let '(best_score, best_col) :=
              if score_lt best_score score then (score, col)
              else (best_score, best_col) in
            let alpha := score_max alpha best_score in
            Some ((best_score, best_col, alpha, game), score_le beta alpha))
          (best_score, best_col, alpha, game);
      let '(best_score, best_col, _, game) := r in
      Some ((best_score, Some best_col), game)
    else
      let best_score := PosInf in
      best_col ← head valid_moves;
      r ← Py.for_break valid_moves (λ '(best_score, best_col, beta, game) col,
            '(undo_info, game) ← simulate_move game col (3 - player);
            '((score, _), game) ←
              minimax_ab fuel game (depth - 1) alpha beta true player;
            game ← undo_move game undo_info;
            let '(best_score, best_col) :=
              if score_lt score best_score then (score, col)
              else (best_score, best_col) in
            let beta := score_min beta best_score in
            Some ((best_score, best_col, beta, game), score_le beta alpha))
          (best_score, best_col, beta, game);
      let '(best_score, best_col, _, game) := r in
      Some ((best_score, Some best_col), game)
  end.

(** Every level of the recursion below a non-leaf call has one more token on
    the board, so a search from [game] is at most [count_empty game] levels
    deep whatever [depth] is. *)
Definition search_fuel (game : Connect4) : nat := S (count_empty game).

(** [get_best_move] returns the column (or [None]) and leaves the game object
    in the state given by the second component. *)
Definition get_best_move (self : MinimaxPlayer) (game : Connect4) (player : Z)
  : option (option Z * Connect4) :=
  if use_alpha_beta self then
    r ← minimax_ab (search_fuel game) game (depth self) NegInf PosInf true player;
    Some (r.1.2, r.2)
  else
    r ← minimax_basic (search_fuel game) game (depth self) true player;
    Some (r.1.2, r.2).

(** ** Reference definitions for the search claims *)

(** The mover of a layer: the perspective player on a maximizing layer, the
    opponent on a minimizing one. *)
Definition mover (maximizing_player : bool) (player : Z) : Z :=
  if maximizing_player then player else 3 - player.

(** The score the loop body of [minimax_basic] obtains for column [col]:
    apply the move, recurse one layer down. *)
Definition child_score_basic (fuel : nat) (game : Connect4) (depth : Z)
    (maximizing_player : bool) (player : Z) (col : Z) : option score :=
  r ← simulate_move game col (mover maximizing_player player);
  r' ← minimax_basic fuel r.2 (depth - 1) (negb maximizing_player) player;
  Some r'.1.1.

(** The same for [minimax_ab], with the window current when the column is
    examined. *)
Definition child_score_ab (fuel : nat) (game : Connect4) (depth : Z)
    (alpha beta : score) (maximizing_player : bool) (player : Z) (col : Z)
  : option score :=
  r ← simulate_move game col (mover maximizing_player player);
  r' ← minimax_ab fuel r.2 (depth - 1) alpha beta (negb maximizing_player) player;
  Some r'.1.1.

(** [better] is [score_lt] on a maximizing layer and its converse on a
    minimizing one. *)
Definition better (maximizing_player : bool) (old new : score) : bool :=
  if maximizing_player then score_lt old new else score_lt new old.

(** In the sequence [tr] of examined columns with their scores, [(bc, bs)]
    is the first entry with the best score: every earlier entry is strictly
    worse, no later entry is strictly better. *)
Definition first_best (maximizing_player : bool) (tr : list (Z * score))
    (bs : score) (bc : Z) : Prop :=
  ∃ t1 t2, tr = t1 ++ (bc, bs) :: t2
           ∧ (∀ c s, (c, s) ∈ t1 → better maximizing_player s bs = true)
           ∧ (∀ c s, (c, s) ∈ t2 → better maximizing_player bs s = false).

(** A list of columns in strictly ascending order. *)
Definition ascending (l : list Z) : Prop :=
  ∀ i j x y, l !! i = Some x → l !! j = Some y → (i < j)%nat → x < y.

(** A call of the search on [game] reaches the move loops: the depth is not
    exhausted, the position is ongoing and has the legal moves [vm]. *)
Definition inner_node (game : Connect4) (depth : Z) (vm : list Z) : Prop :=
  depth ≠ 0 ∧ get_game_state game = Some 0
  ∧ get_valid_moves game = Some vm ∧ vm ≠ [].

(** The update of [(best_score, best_col)] by the loop bodies, folded over
    the examined columns. *)
Definition pick (m : bool) (tr : list (Z * score)) (acc : score * Z) : score * Z :=
  foldl (λ acc cs, if better m acc.1 cs.2 then (cs.2, cs.1) else acc) acc tr.

(** The bodies of the move loops, as they stand in [minimax_basic] and
    [minimax_ab], named so that lemmas can be stated about the loops.  The
    maximizing layer is [m = true], the minimizing one [m = false]; the
    equations [minimax_basic_S] and [minimax_ab_S] below hold by
    computation. *)
Definition basic_body (m : bool) (fuel : nat) (depth player : Z)
  : score * Z * Connect4 → Z → option (score * Z * Connect4) :=
  λ '(best_score, best_col, game) col,
    '(undo_info, game) ← simulate_move game col (mover m player);
    '((score, _), game) ← minimax_basic fuel game (depth - 1) (negb m) player;
    game ← undo_move game undo_info;
    if better m best_score score
    then Some (score, col, game)
    else Some (best_score, best_col, game).

(** In [ab_body] the loop variable [w] is [alpha] on a maximizing layer and
    [beta] on a minimizing one; [fixed] is the other bound. *)
Definition ab_body (m : bool) (fuel : nat) (depth : Z) (fixed : score) (player : Z)
  : score * Z * score * Connect4 → Z → option (score * Z * score * Connect4 * bool) :=
  λ '(best_score, best_col, w, game) col,
    '(undo_info, game) ← simulate_move game col (mover m player);
    '((score, _), game) ←
      minimax_ab fuel game (depth - 1) (if m then w else fixed)
                 (if m then fixed else w) (negb m) player;
    game ← undo_move game undo_info;
    let '(best_score, best_col) :=
      if better m best_score score then (score, col)
      else (best_score, best_col) in
    let w := if m then score_max w best_score else score_min w best_score in
    Some ((best_score, best_col, w, game),
          if m then score_le fixed w else score_le w fixed).

(** The best score a layer starts from. *)
Definition worst (m : bool) : score := if m then NegInf else PosInf.

(** The new value of the moving bound after a column scored [bs']. *)
Definition next_bound (m : bool) (w bs' : score) : score :=
  if m then score_max w bs' else score_min w bs'.

(** Whether the loop breaks: [beta <= alpha]. *)
Definition cut (m : bool) (fixed w : score) : bool :=
  if m then score_le fixed w else score_le w fixed.

(** The order of the scores as propositions: [slt a b] is [a < b],
    [sle a b] is [a <= b], [seq a b] is [a = b]. *)
Definition slt (a b : score) : Prop :=
  match a, b with
  | NegInf, NegInf => False
  | NegInf, _ => True
  | Fin x, Fin y => x < y
  | Fin _, PosInf => True
  | _, _ => False
  end.

Definition sle (a b : score) : Prop :=
  match a, b with
  | NegInf, _ => True
  | Fin x, Fin y => x ≤ y
  | Fin _, PosInf => True
  | PosInf, PosInf => True
  | _, _ => False
  end.

Definition seq (a b : score) : Prop :=
  match a, b with
  | NegInf, NegInf => True
  | Fin x, Fin y => x = y
  | PosInf, PosInf => True
  | _, _ => False
  end.

(** The guarantee of a fail-soft alpha-beta call with window [(alpha, beta)]
    that returned [s] where plain minimax returns [v]: a result at or below
    [alpha] is an upper bound of [v], a result at or above [beta] a lower
    bound, a result inside the window is exact. *)
Definition bounds (alpha beta s v : score) : Prop :=
  (sle s alpha → sle v s)
  ∧ (sle beta s → sle s v)
  ∧ (slt alpha s → slt s beta → seq s v).

(** The same order seen from the mover of a layer: [worse m a b] says that
    [b] is strictly better than [a], [no_better m a b] that [a] is not better
    than [b]. *)
Definition worse (m : bool) (a b : score) : Prop :=
  if m then slt a b else slt b a.
Definition no_better (m : bool) (a b : score) : Prop :=
  if m then sle a b else sle b a.

(** The invariant of the two loops run side by side: [V] is the best score
    of the basic loop, [S] the one of the alpha-beta loop, [w] the moving
    bound, [W0] its initial value and [F] the fixed bound. *)
Definition ab_inv (m : bool) (F W0 V S w : score) : Prop :=
  worse m w F
  ∧ seq w (next_bound m W0 S)
  ∧ no_better m V S
  ∧ (worse m W0 S → seq V S).

Definition ab_post (m : bool) (F W0 V S : score) : Prop :=
  (no_better m S W0 → no_better m V S)
  ∧ (no_better m F S → no_better m S V)
  ∧ (worse m W0 S → worse m S F → seq S V).

(** The best score after a column scored [x]. *)
Definition keep (m : bool) (X : score) (x : Z) : score :=
  if better m X (Fin x) then Fin x else X.

(** ** mcts.py *)

(** What the embedding takes from the Python runtime: the floats that
    [ucb1_score] computes with and compares, and the draws of the [random]
    module.  [ucb1_value wins2 visits parent_visits] stands for
    [(wins/visits) + C * math.sqrt(math.log(parent_visits) / visits)] with
    [wins = wins2 / 2] and [C = math.sqrt(2)]; [random_draw k] is the k-th
    draw of the generator. *)
Class Runtime := {
  float : Type;
  float_inf : float;
  float_gt : float → float → bool;
  float_eq : float → float → bool;
  ucb1_value : Z → Z → Z → float;
  random_draw : nat → nat
}.

(** A node of the search tree.  Nodes are Python objects that refer to each
    other ([parent], [children]); a reference is the index of the node in
    the heap, the list of all nodes created so far.  [wins2] is twice the
    [wins] attribute, which grows in steps of 1 and 0.5. *)
Record Node := mkNode {
  game_state : Connect4;
  move : option Z;
  parent : option nat;
  player_who_moved : option Z;
  visits : Z;
  wins2 : Z;
  children : list nat;
  untried_moves : list Z
}.

Definition set_visits_wins (nd : Node) (v w : Z) : Node :=
  {| game_state := game_state nd; move := move nd; parent := parent nd;
     player_who_moved := player_who_moved nd; visits := v; wins2 := w;
     children := children nd; untried_moves := untried_moves nd |}.

Definition set_children_untried (nd : Node) (cs : list nat) (us : list Z) : Node :=
  {| game_state := game_state nd; move := move nd; parent := parent nd;
     player_who_moved := player_who_moved nd; visits := visits nd;
     wins2 := wins2 nd; children := cs; untried_moves := us |}.

(** [Node(game_state, move, parent, player_who_moved)]: the new node is
    appended to the heap and its reference returned. *)
Definition Node_init (h : list Node) (game : Connect4) (mv : option Z)
    (par : option nat) (pwm : option Z) : option (nat * list Node) :=
  let game_state := copy_game game in
  untried ← get_valid_moves game_state;
  Some (length h,
        h ++ [ {| game_state := game_state; move := mv; parent := par;
                  player_who_moved := pwm; visits := 0; wins2 := 0;
                  children := []; untried_moves := untried |} ]).

Definition get_next_player (nd : Node) : Z :=
  match player_who_moved nd with
  | None => 1
  | Some q => 3 - q
  end.

Definition is_fully_expanded (nd : Node) : bool :=
  bool_decide (length (untried_moves nd) = 0%nat).

Definition is_terminal (nd : Node) : option bool :=
  st ← get_game_state (game_state nd); Some (bool_decide (st ≠ 0)).

Section mcts.
Context `{Runtime}.

(** [random.choice(seq)], with the number of draws made so far. *)
Definition random_choice {A} (l : list A) (tick : nat) : option (A * nat) :=
  x ← l !! (random_draw tick `mod` length l)%nat; Some (x, S tick).

(** [math.log] raises on an argument that is not positive, [math.sqrt] on
    a negative one. *)
Definition ucb1_score (h : list Node) (n : nat) : option float :=
  nd ← h !! n;
  if bool_decide (visits nd = 0) then Some float_inf
  else
    p ← parent nd;
    pn ← h !! p;
    if bool_decide (visits pn ≤ 0) then None
    else if bool_decide (1 < visits pn ∧ visits nd < 0) then None
    else Some (ucb1_value (wins2 nd) (visits nd) (visits pn)).

(** [max(iterable)]: the first greatest element. *)
Definition float_max (x : float) (l : list float) : float :=
  foldl (λ best y, if float_gt y best then y else best) x l.

Definition select_best_child (h : list Node) (n : nat) (tick : nat)
  : option (option nat * nat) :=
  nd ← h !! n;
  if bool_decide (children nd = []) then Some (None, tick)
  else
    scores ← mapM (ucb1_score h) (children nd);
    s0 ← head scores;
    let best_score := float_max s0 (tail scores) in
    scored ← mapM (λ c, s ← ucb1_score h c; Some (c, s)) (children nd);
    let best_children :=
      (filter (λ cs, float_eq cs.2 best_score = true) scored).*1 in
    r ← random_choice best_children tick;
    Some (Some r.1, r.2).

Definition expand_node (h : list Node) (n : nat)
  : option (option nat * list Node) :=
  nd ← h !! n;
  if negb (is_fully_expanded nd) then
    move_to_try ← last (untried_moves nd);
    let untried := removelast (untried_moves nd) in
    let player := get_next_player nd in
    let current_state := copy_game (game_state nd) in
    r ← simulate_move current_state move_to_try player;
    let current_state := r.2 in
    '(child, h) ← Node_init h current_state (Some move_to_try) (Some n)
                            (Some player);
    nd ← h !! n;
    let h := <[n := set_children_untried nd (children nd ++ [child]) untried]> h in
    Some (Some child, h)
  else Some (None, h).

(** The [while] loop of [simulate]. *)
Fixpoint rollout (fuel : nat) (current_state : Connect4) (player : Z)
    (tick : nat) : option (Z * nat) :=
  match fuel with
  | O => None
  | S fuel =>
    st ← get_game_state current_state;
    go ← (if bool_decide (st = 0)
          then vm ← get_valid_moves current_state;
               Some (bool_decide (0 < length vm)%nat)
          else Some false);
    if go : bool then
      valid_moves ← get_valid_moves current_state;
      '(move_to_make, tick) ← random_choice valid_moves tick;
      r ← simulate_move current_state move_to_make player;
      rollout fuel r.2 (3 - player) tick
    else
      st ← get_game_state current_state;
      Some (st, tick)
  end.

Definition simulate (h : list Node) (n : nat) (tick : nat)
  : option (Z * nat) :=
  nd ← h !! n;
  let current_state := copy_game (game_state nd) in
  let player := get_next_player nd in
  rollout (S (count_empty current_state)) current_state player tick.

Fixpoint backpropagate (fuel : nat) (h : list Node) (n : nat) (result : Z)
  : option (list Node) :=
  match fuel with
  | O => None
  | S fuel =>
    nd ← h !! n;
    let v := visits nd + 1 in
    let w := if bool_decide (Some result = player_who_moved nd) then wins2 nd + 2
             else if bool_decide (result = 3) then wins2 nd + 1
             else wins2 nd in
    let h := <[n := set_visits_wins nd v w]> h in
    match parent nd with
    | Some p => backpropagate fuel h p result
    | None => Some h
    end
  end.

Record MCTSPlayer := mkMCTSPlayer { simulations : Z }.

Fixpoint _select (fuel : nat) (h : list Node) (node : nat) (tick : nat)
  : option (nat * nat) :=
  match fuel with
  | O => None
  | S fuel =>
    nd ← h !! node;
    term ← is_terminal nd;
    if negb term && is_fully_expanded nd then
      '(best_child, tick) ← select_best_child h node tick;
      match best_child with
      | None => Some (node, tick)
      | Some c => _select fuel h c tick
      end
    else Some (node, tick)
  end.

(** One iteration of the loop of [get_move]. *)
Definition iteration (root : nat) (s : list Node * nat) : option (list Node * nat) :=
  let '(h, tick) := s in
  '(node, tick) ← _select (length h) h root tick;
  nd ← h !! node;
  term ← is_terminal nd;
  '(node, h) ← (if negb term then
                  '(expanded_node, h) ← expand_node h node;
                  match expanded_node with
                  | Some e => Some (e, h)
                  | None => Some (node, h)
                  end
                else Some (node, h));
  '(result, tick) ← simulate h node tick;
  h ← backpropagate (length h) h node result;
  Some (h, tick).

(** The tree after the simulation loop of [get_move]; the root is node 0. *)
Definition run_simulations (self : MCTSPlayer) (game : Connect4) (player : Z)
  : option (list Node * nat) :=
  '(root, h) ← Node_init [] game None None (Some (3 - player));
  Py.for_ (Py.range 0 (simulations self)) (λ s _, iteration root s) (h, 0%nat).

(** [max(root.children, key=lambda child: child.visits)]: the first child
    with the greatest visit count. *)
Definition most_visited (h : list Node) (c0 : nat) (cs : list nat) : option nat :=
  v0 ← visits <$> h !! c0;
  r ← Py.for_ cs (λ '(best, bv) c,
        v ← visits <$> h !! c;
        Some (if bool_decide (bv < v) then (c, v) else (best, bv))) (c0, v0);
  Some r.1.

Definition get_move (self : MCTSPlayer) (game : Connect4) (player : Z)
  : option (option Z) :=
  '(h, tick) ← run_simulations self game player;
  root ← h !! 0%nat;
  match children root with
  | [] =>
      valid_moves ← get_valid_moves (game_state root);
      if bool_decide (valid_moves ≠ []) then
        r ← random_choice valid_moves tick; Some (Some r.1)
      else Some (Some 0)
  | c0 :: cs =>
      best_child ← most_visited h c0 cs;
      bn ← h !! best_child;
      Some (move bn)
  end.
End mcts.

(** A runtime to run the embedding on examples: every UCB1 value is the
    same, every draw is 0. *)
Definition test_runtime : Runtime :=
  {| float := Z; float_inf := 1; float_gt := Z.gtb; float_eq := Z.eqb;
     ucb1_value := λ _ _ _, 0; random_draw := λ _, 0%nat |}.

(** ** Reference definitions for the tree-search claims *)

(** [on_path h n k]: node [k] is node [n] or one of its ancestors, following
    the [parent] references. *)
Inductive on_path (h : list Node) : nat → nat → Prop :=
  | on_path_here n : on_path h n n
  | on_path_up n nd p k :
      h !! n = Some nd → parent nd = Some p → on_path h p k → on_path h n k.

(** A node is created after its parent. *)
Definition parents_ok (h : list Node) : Prop :=
  ∀ i nd p, h !! i = Some nd → parent nd = Some p → (p < i)%nat.

(** The part of a node that backpropagation leaves alone. *)
Definition static (nd : Node) : Node := set_visits_wins nd 0 0.

(** The visit counter of node [k], if there is such a node. *)
Definition visits_at (h : list Node) (k : nat) : option Z := visits <$> h !! k.

(** The floats the selection compares are not NaN: [x == x] holds for
    [inf] and for every UCB1 value of a visited child of a visited node. *)
Definition no_nan `{Runtime} : Prop :=
  float_eq float_inf float_inf = true
  ∧ ∀ w v pv, 0 < v → 0 < pv →
      float_eq (ucb1_value w v pv) (ucb1_value w v pv) = true.

(** The shape of the tree that [get_move] builds, node by node.  [cm] lists
    the moves of the children in the order of [children]. *)
Definition node_ok (h : list Node) (i : nat) (nd : Node) : Prop :=
  wf (game_state nd)
  ∧ match parent nd with None => i = 0%nat | Some p => (p < i)%nat end
  ∧ (∃ q, player_who_moved nd = Some q ∧ is_player q)
  ∧ 0 ≤ visits nd
  ∧ ∃ vm cm,
      get_valid_moves (game_state nd) = Some vm
      ∧ untried_moves nd ++ reverse cm = vm
      ∧ Forall2 (λ c mv, (i < c)%nat
                         ∧ ∃ cn, h !! c = Some cn ∧ parent cn = Some i
                                 ∧ move cn = Some mv)
                (children nd) cm.

(** All nodes have the shape; a node with children has been visited, except
    possibly the node [pending] that has just been expanded. *)
Definition tree_ok (pending : option nat) (h : list Node) : Prop :=
  ∀ i nd, h !! i = Some nd →
    node_ok h i nd
    ∧ (children nd ≠ [] → pending ≠ Some i → 1 ≤ visits nd).

(** [best] is the first node of [l] with the greatest visit count: no node
    of [l] has more visits, and every node before it has fewer. *)
Definition first_max (h : list Node) (l : list nat) (best : nat) : Prop :=
  ∃ j bn, l !! j = Some best ∧ h !! best = Some bn
    ∧ ∀ i c cn, l !! i = Some c → h !! c = Some cn →
        visits cn ≤ visits bn ∧ ((i < j)%nat → visits cn < visits bn).

(** ** game.py: the move of the driver *)

(** The part of [GameInterface] that [make_move] reads and writes. *)
Record GameInterface := mkGameInterface {
  game : Connect4;
  game_over : bool;
  turn : Z
}.

(** [make_move]: [row] is [None] only when [get_next_open_row] found no empty
    cell, and then [is_winning_move(None, col)] raises (the row arithmetic or
    the comparison of a whole array fails). *)
Definition make_move (self : GameInterface) (col : Z) : option GameInterface :=
  ok ← is_valid_location (game self) col;
  if ok : bool then
    row ← get_next_open_row (game self) col;
    match row with
    | None => None
    | Some row =>
        g ← drop_piece (game self) row col;
        win ← is_winning_move g row col;
        if win : bool then
          Some {| game := g; game_over := true; turn := turn self |}
        else
          vm ← get_valid_moves g;
          if bool_decide (length vm = 0%nat) then
            Some {| game := g; game_over := true; turn := turn self |}
          else
            Some {| game := switch_player g; game_over := game_over self;
                    turn := turn self + 1 |}
    end
  else Some self.

(** ** Further reference definitions *)

(** Gravity: a cell above a token-free cell is token-free; equivalently,
    below every token there is a token. *)
Definition gravity (g : Connect4) : Prop :=
  ∀ r c v, 0 ≤ r → r + 1 < rows g → 0 ≤ c < cols g →
    getitem g r c = Some v → v ≠ 0 →
    ∃ v', getitem g (r + 1) c = Some v' ∧ v' ≠ 0.

(** The four cells of the window [w] all hold the token [p]. *)
Definition window_of (g : Connect4) (p : Z) (w : list (Z * Z)) : Prop :=
  ∀ rc, rc ∈ w → getitem g rc.1 rc.2 = Some p.

(** Apply the moves of [cols] for the alternating players, starting with
    [player], keeping the undo information of each, most recent first. *)
Fixpoint simulate_moves (g : Connect4) (cs : list Z) (player : Z)
    (undo : list undo_info) : option (list undo_info * Connect4) :=
  match cs with
  | [] => Some (undo, g)
  | col :: cs =>
      r ← simulate_move g col player;
      simulate_moves r.2 cs (3 - player) (r.1 :: undo)
  end.

(** Undo the moves of [undo], first to last. *)
Definition undo_moves (g : Connect4) (undo : list undo_info) : option Connect4 :=
  Py.for_ undo undo_move g.

(** Player [p] has four in a row: some 4-cell window of the board holds only
    tokens of [p]. *)
Definition has_four (g : Connect4) (p : Z) : Prop :=
  ∃ w, w ∈ all_windows g ∧ window_of g p w.

(** A depth that the search cannot use up from [game]: negative, so that
    [depth == 0] is never met, or greater than the number of empty cells. *)
Definition exhaustive (game : Connect4) (depth : Z) : Prop :=
  depth < 0 ∨ Z.of_nat (count_empty game) < depth.

(** [playout g q g']: the position [g'] is reached from [g] by legal moves
    of the alternating players, [q] first, each made in an ongoing
    position. *)
Inductive playout : Connect4 → Z → Connect4 → Prop :=
  | playout_stop g q : playout g q g
  | playout_move g q vm col u g1 g' :
      get_game_state g = Some 0 →
      get_valid_moves g = Some vm → col ∈ vm →
      simulate_move g col q = Some (u, g1) →
      playout g1 (3 - q) g' →
      playout g q g'.

(** What [backpropagate] adds to twice the [wins] of a node: a win of the
    player who moved into the node counts 1, a draw 0.5. *)
Definition credit (result : Z) (nd : Node) : Z :=
  if bool_decide (Some result = player_who_moved nd) then 2
  else if bool_decide (result = 3) then 1
  else 0.

Definition wins2_at (h : list Node) (k : nat) : option Z := wins2 <$> h !! k.

(** The win rate [wins / visits] of every node lies between 0 and 1. *)
Definition rates_ok (h : list Node) : Prop :=
  ∀ k nd, h !! k = Some nd → 0 ≤ wins2 nd ≤ 2 * visits nd.
(** Sample boards. *)
Definition of_board (b : list (list Z)) : Connect4 :=
  {| rows := Z.of_nat (length b);
     cols := Z.of_nat (length (default [] (head b)));
     board := b; current_player := 1 |}.

Definition three_bottom_left : Connect4 := of_board
  [ [0;0;0;0;0;0;0];
    [0;0;0;0;0;0;0];
    [0;0;0;0;0;0;0];
    [0;0;0;0;0;0;0];
    [0;0;0;0;0;0;0];
    [1;1;1;0;0;0;0] ].


(** Player 1 has just completed the diagonal (2,0), (3,1), (4,2), (5,3) by
    playing column 1; it is still the current player. *)
Definition diagonal_win : Connect4 := of_board
  [ [0;0;0;0;0;0;0];
    [0;0;0;0;0;0;0];
    [1;0;0;0;0;0;0];
    [2;1;0;0;0;0;0];
    [1;2;1;0;0;0;0];
    [2;1;2;1;0;0;2] ].

(** The position after the moves 2 3 3 1 5 6 1 0 1 0 1 2 2 6 2 5 3 5 3 2 5
    (columns, player 1 first) on the empty 6x7 board. *)
Definition many_threats : Connect4 := of_board
  [ [0;0;0;0;0;0;0];
    [0;0;2;0;0;0;0];
    [0;1;1;1;0;1;0];
    [0;1;1;1;0;2;0];
    [2;1;2;1;0;2;2];
    [2;2;1;2;0;1;2] ].

(** Replays a list of columns from the empty 6x7 board the way the drivers
    do: drop the piece in the next open row, then switch the player. *)
Definition play_columns (cs : list Z) : option Connect4 :=
  Py.for_ cs (λ g col,
    row ← get_next_open_row g col;
    r ← row;
    g ← drop_piece g r col;
    Some (switch_player g)) (new_game 6 7).

(** A root, its child and its grandchild, as the unit test of
    backpropagation builds them. *)
Definition chain_of_three : list Node :=
  [ {| game_state := new_game 6 7; move := None; parent := None;
       player_who_moved := None; visits := 0; wins2 := 0;
       children := [1%nat]; untried_moves := [0; 1; 2; 3; 4; 5] |};
    {| game_state := new_game 6 7; move := Some 6; parent := Some 0%nat;
       player_who_moved := Some 1; visits := 0; wins2 := 0;
       children := [2%nat]; untried_moves := [0; 1; 2; 3; 4; 5] |};
    {| game_state := new_game 6 7; move := Some 6; parent := Some 1%nat;
       player_who_moved := Some 2; visits := 0; wins2 := 0;
       children := []; untried_moves := [0; 1; 2; 3; 4; 5; 6] |} ].

(** The tree of [get_move] before the first simulation, for player 1 on the
    empty board. *)
Definition fresh_root : list Node :=
  [ {| game_state := new_game 6 7; move := None; parent := None;
       player_who_moved := Some 2; visits := 0; wins2 := 0;
       children := []; untried_moves := [0; 1; 2; 3; 4; 5; 6] |} ].

(** [many_threats] after player 2 has answered in column 6; player 1 is to
    move and wins at once in column 0, 1, 3 or 4. *)
Definition win_passed_up : Connect4 := of_board
  [ [0;0;0;0;0;0;0];
    [0;0;2;0;0;0;0];
    [0;1;1;1;0;1;0];
    [0;1;1;1;0;2;2];
    [2;1;2;1;0;2;2];
    [2;2;1;2;0;1;2] ].

(** Player 1 has just completed the bottom row with the token at (5,3). *)
Definition four_in_bottom_row : Connect4 := of_board
  [ [0;0;0;0;0;0;0];
    [0;0;0;0;0;0;0];
    [0;0;0;0;0;0;0];
    [0;0;0;0;0;0;0];
    [2;2;2;0;0;0;0];
    [1;1;1;1;0;0;0] ].

(** The position after the moves 1 0 0 1 6 1 1 5 0; player 1 has just
    played (3,0).  The negative-diagonal check of [is_winning_move 3 0]
    starts at (2,1), finds the tokens of player 1 at (2,1) and (3,0), and
    reads its third cell at column -1, which is (4,6). *)
Definition wrapped_read : Connect4 := of_board
  [ [0;0;0;0;0;0;0];
    [0;0;0;0;0;0;0];
    [0;1;0;0;0;0;0];
    [1;2;0;0;0;0;0];
    [1;2;0;0;0;0;0];
    [2;1;0;0;0;2;1] ].

(** The tree of [get_move] after one simulation for player 1 on the empty
    board of 2 rows and 1 column: the root is fully expanded and has one
    child, which still has its move to try. *)
Definition expanded_root : list Node :=
  [ {| game_state := new_game 2 1; move := None; parent := None;
       player_who_moved := Some 2; visits := 1; wins2 := 1;
       children := [1%nat]; untried_moves := [] |};
    {| game_state := of_board [ [0]; [1] ]; move := Some 0;
       parent := Some 0%nat; player_who_moved := Some 1; visits := 1;
       wins2 := 1; children := []; untried_moves := [0] |} ].
(** * Properties *)

Example three_bottom_left_eval :
  evaluate_position three_bottom_left 1 = Some 3
  ∧ get_game_state three_bottom_left = Some 0
  ∧ get_valid_moves three_bottom_left = Some [0;1;2;3;4;5;6].
Proof. vm_compute. done. Qed.


Lemma elem_of_range lo hi x : x ∈ Py.range lo hi ↔ lo ≤ x < hi.
Proof. unfold Py.range. rewrite elem_of_seqZ. lia. Qed.

Lemma elem_of_range_down hi lo x : x ∈ Py.range_down hi lo ↔ lo < x ≤ hi.
Proof.
  unfold Py.range_down. rewrite list_elem_of_fmap. split.
  - intros (i & -> & Hi). apply elem_of_seqZ in Hi. lia.
  - intros H. exists (hi - x). split; [lia|]. apply elem_of_seqZ. lia.
Qed.

Lemma position_in_range n i :
  0 ≤ i < Z.of_nat n → Py.position n i = Some (Z.to_nat i).
Proof.
  intros H. unfold Py.position.
  rewrite !bool_decide_eq_true_2 by lia. done.
Qed.

Lemma position_lt n i k : Py.position n i = Some k → (k < n)%nat.
Proof.
  unfold Py.position. intros H.
  repeat case_bool_decide; simplify_eq; lia.
Qed.

Lemma getitem_Some g r c v :
  getitem g r c = Some v →
  ∃ i j row, Py.position (length (board g)) r = Some i
             ∧ board g !! i = Some row
             ∧ Py.position (length row) c = Some j
             ∧ row !! j = Some v.
Proof.
  unfold getitem, Py.index. intros H.
  destruct (Py.position (length (board g)) r) as [i|] eqn:Hi; [|done].
  simpl in H. destruct (board g !! i) as [row|] eqn:Hrow; [|done].
  simpl in H. destruct (Py.position (length row) c) as [j|] eqn:Hj; [|done].
  simpl in H. eauto 10.
Qed.

Lemma getitem_wf g r c :
  wf g → 0 ≤ r < rows g → 0 ≤ c < cols g → is_Some (getitem g r c).
Proof.
  intros (Hr & Hlen & Hrows) Hr' Hc. unfold getitem, Py.index.
  rewrite position_in_range by lia. simpl.
  destruct (lookup_lt_is_Some_2 (board g) (Z.to_nat r)) as [row Hrow]; [lia|].
  rewrite Hrow. simpl.
  rewrite Forall_forall in Hrows.
  pose proof (Hrows row (list_elem_of_lookup_2 _ _ _ Hrow)) as Hl.
  rewrite position_in_range by lia. simpl.
  apply lookup_lt_is_Some_2. lia.
Qed.

(** ** Loops *)

Lemma all_total (l : list (option bool)) :
  Forall is_Some l → is_Some (Py.all l).
Proof.
  induction 1 as [|x l [b ->] _ IH]; simpl; [eauto|].
  destruct b; eauto.
Qed.

Lemma for_total {A S} (l : list A) (body : S → A → option S) (s : S) :
  (∀ s' x, x ∈ l → is_Some (body s' x)) → is_Some (Py.for_ l body s).
Proof.
  revert s. induction l as [|x l IH]; intros s H; simpl; [eauto|].
  destruct (H s x) as [s' ->]; [left|]. simpl.
  apply IH. intros. apply H. by right.
Qed.

Lemma for_return_total {A R} (l : list A) (body : A → option (option R)) :
  (∀ x, x ∈ l → is_Some (body x)) → is_Some (Py.for_return l body).
Proof.
  induction l as [|x l IH]; intros H; simpl; [eauto|].
  destruct (H x) as [r ->]; [left|]. simpl.
  destruct r; [eauto|]. apply IH. intros. apply H. by right.
Qed.

Lemma for_return_found {A R} (l : list A) (body : A → option (option R)) r :
  Py.for_return l body = Some (Some r) →
  ∃ x, x ∈ l ∧ body x = Some (Some r).
Proof.
  induction l as [|x l IH]; simpl; [done|].
  destruct (body x) as [[v|]|] eqn:Hx; simpl; [| |done].
  - intros [= ->]. exists x. split; [left|done].
  - intros H. destruct (IH H) as (y & Hy & Hb). exists y. split; [by right|done].
Qed.

(** ** Writing one cell and clearing it again *)

Lemma setitem_fields g r c v g' :
  setitem g r c v = Some g' →
  rows g' = rows g ∧ cols g' = cols g ∧ current_player g' = current_player g.
Proof.
  unfold setitem. intros H.
  destruct (Py.index (board g) r); [|done]. simpl in H.
  destruct (Py.set_index l c v); [|done]. simpl in H.
  destruct (Py.set_index (board g) r l0); [|done]. simpl in H.
  by simplify_eq.
Qed.

Lemma setitem_at g r c v i j row :
  Py.position (length (board g)) r = Some i →
  board g !! i = Some row →
  Py.position (length row) c = Some j →
  setitem g r c v =
    Some {| rows := rows g; cols := cols g;
            board := <[i := <[j := v]> row]> (board g);
            current_player := current_player g |}.
Proof.
  intros Hi Hrow Hj. unfold setitem, Py.index, Py.set_index.
  rewrite Hi. simpl. rewrite Hrow. simpl. rewrite Hj. simpl. done.
Qed.

Lemma setitem_clear g r c p :
  getitem g r c = Some 0 →
  ∃ g1, setitem g r c p = Some g1 ∧ setitem g1 r c 0 = Some g.
Proof.
  intros H. destruct (getitem_Some _ _ _ _ H) as (i & j & row & Hi & Hrow & Hj & Hv).
  pose proof (position_lt _ _ _ Hi) as Hlt.
  rewrite (setitem_at g r c p i j row) by done.
  eexists. split; [done|].
  erewrite setitem_at; simpl.
  - rewrite list_insert_insert_eq, list_insert_insert_eq.
    rewrite (list_insert_id row j 0 Hv), (list_insert_id _ i row Hrow).
    by destruct g.
  - by rewrite length_insert.
  - by apply list_lookup_insert_eq.
  - by rewrite length_insert.
Qed.

Lemma get_next_open_row_Some g col row :
  get_next_open_row g col = Some (Some row) →
  0 ≤ row < rows g ∧ getitem g row col = Some 0.
Proof.
  unfold get_next_open_row. intros H.
  apply for_return_found in H as (r & Hr & Hb).
  apply elem_of_range_down in Hr.
  destruct (getitem g r col) as [v|] eqn:Hg; [|done]. simpl in Hb.
  case_bool_decide; simplify_eq. split; [lia|done].
Qed.

Lemma simulate_undo g col row p :
  get_next_open_row g col = Some (Some row) →
  ∃ g1, simulate_move g col p = Some ((Some row, col), g1)
        ∧ current_player g1 = current_player g
        ∧ undo_move g1 (Some row, col) = Some g.
Proof.
  intros H. pose proof (get_next_open_row_Some _ _ _ H) as [_ Hv].
  destruct (setitem_clear g row col p Hv) as (g1 & H1 & H2).
  exists g1. unfold simulate_move, undo_move. rewrite H. simpl. rewrite H1. simpl.
  split; [done|]. split; [|done].
  by apply setitem_fields in H1 as (_ & _ & ?).
Qed.

(** C10: on a column whose lowest empty row is [row], [simulate_move]
    returns [(row, col)], [undo_move] on that pair gives back exactly the
    object the call started from (same board, cell for cell, same
    dimensions), and [current_player] is the same before, between and after
    the two calls. *)
Theorem simulate_then_undo_restores (g : Connect4) (col row p : Z) :
  get_next_open_row g col = Some (Some row) →
  ∃ g1, simulate_move g col p = Some ((Some row, col), g1)
        ∧ current_player g1 = current_player g
        ∧ undo_move g1 (Some row, col) = Some g.
Proof.
  intros H. pose proof (get_next_open_row_Some _ _ _ H) as [_ Hv].
  destruct (setitem_clear g row col p Hv) as (g1 & H1 & H2).
  exists g1. unfold simulate_move, undo_move. rewrite H. simpl. rewrite H1. simpl.
  split; [done|]. split; [|done].
  by apply setitem_fields in H1 as (_ & _ & ?).
Qed.

Lemma simulate_then_undo_restores_witness :
  ∃ g1, simulate_move three_bottom_left 3 2 = Some ((Some 5, 3), g1)
        ∧ current_player g1 = current_player three_bottom_left
        ∧ undo_move g1 (Some 5, 3) = Some three_bottom_left.
Proof. apply (simulate_then_undo_restores three_bottom_left 3 5 2). reflexivity. Defined.

(** ** The scans of a well-shaped board never leave it *)

Lemma all4_total g player cell :
  (∀ i, 0 ≤ i < 4 → is_Some (getitem g (cell i).1 (cell i).2)) →
  is_Some (all4 g player cell).
Proof.
  intros H. unfold all4. apply all_total. apply Forall_fmap, Forall_forall.
  intros i Hi%elem_of_range. simpl. destruct (H i Hi) as [v ->]. simpl. eauto.
Qed.

Lemma window4_total g cell :
  (∀ i, 0 ≤ i < 4 → is_Some (getitem g (cell i).1 (cell i).2)) →
  is_Some (window4 g cell).
Proof.
  intros H. unfold window4. apply mapM_is_Some, Forall_forall.
  intros i Hi%elem_of_range. by apply H.
Qed.

Lemma scan_cell_total g row col :
  wf g → 0 ≤ row < rows g → 0 ≤ col < cols g → is_Some (scan_cell g row col).
Proof.
  intros Hwf Hr Hc. unfold scan_cell.
  destruct (getitem_wf g row col Hwf Hr Hc) as [player ->]. simpl.
  case_bool_decide; [|eauto].
  assert (∀ (c : bool) cell,
    (c = true → ∀ i, 0 ≤ i < 4 → is_Some (getitem g (cell i).1 (cell i).2)) →
    is_Some (if c then all4 g player cell else Some false)) as Hchk.
  { intros [] cell Hcell; [|eauto]. apply all4_total; auto. }
  destruct (Hchk (bool_decide (col ≤ cols g - 4)) (λ i, (row, col + i))) as [h ->].
  { intros ?%bool_decide_eq_true i Hi. apply getitem_wf; simpl; [done|lia..]. }
  simpl. destruct h; [eauto|].
  destruct (Hchk (bool_decide (row ≤ rows g - 4)) (λ i, (row + i, col))) as [v ->].
  { intros ?%bool_decide_eq_true i Hi. apply getitem_wf; simpl; [done|lia..]. }
  simpl. destruct v; [eauto|].
  destruct (Hchk (bool_decide (row ≤ rows g - 4) && bool_decide (col ≤ cols g - 4))
              (λ i, (row + i, col + i))) as [p ->].
  { intros [?%bool_decide_eq_true ?%bool_decide_eq_true]%andb_prop i Hi.
    apply getitem_wf; simpl; [done|lia..]. }
  simpl. destruct p; [eauto|].
  destruct (Hchk (bool_decide (row ≤ rows g - 4) && bool_decide (3 ≤ col))
              (λ i, (row + i, col - i))) as [n ->].
  { intros [?%bool_decide_eq_true ?%bool_decide_eq_true]%andb_prop i Hi.
    apply getitem_wf; simpl; [done|lia..]. }
  simpl. destruct n; eauto.
Qed.

Lemma get_game_state_total g : wf g → is_Some (get_game_state g).
Proof.
  intros Hwf. unfold get_game_state.
  destruct (for_return_total (Py.range 0 (rows g))
    (λ row, Py.for_return (Py.range 0 (cols g)) (λ col, scan_cell g row col)))
    as [w ->].
  { intros row Hr%elem_of_range. apply for_return_total.
    intros col Hc%elem_of_range. by apply scan_cell_total. }
  simpl. destruct w; [eauto|].
  destruct (all_total ((λ col, v ← getitem g 0 col; Some (bool_decide (v ≠ 0)))
                         <$> Py.range 0 (cols g))) as [full ->].
  { apply Forall_fmap, Forall_forall. intros col Hc%elem_of_range. simpl.
    destruct (getitem_wf g 0 col) as [v ->]; [done|destruct Hwf; lia|done|].
    simpl. eauto. }
  simpl. destruct full; eauto.
Qed.

Lemma add_window_total g player cell score :
  (∀ i, 0 ≤ i < 4 → is_Some (getitem g (cell i).1 (cell i).2)) →
  is_Some (add_window g player cell score).
Proof.
  intros H. unfold add_window.
  destruct (window4_total g cell H) as [w ->]. simpl. eauto.
Qed.

Lemma window_score_total g player : wf g → is_Some (window_score g player).
Proof.
  intros Hwf. unfold window_score.
  repeat match goal with
  | |- is_Some (Py.for_ ?l ?f ?s ≫= _) =>
      let s' := fresh "score" in
      let Hs := fresh "Hs" in
      destruct (for_total l f s) as [s' Hs];
      [ intros ? row ?%elem_of_range; apply for_total;
        intros ? col ?%elem_of_range; apply add_window_total;
        intros i Hi; apply getitem_wf; simpl; [done|lia..]
      | rewrite Hs; simpl ]
  end.
  eauto.
Qed.

Lemma center_bonus_total g player : wf g → is_Some (center_bonus g player).
Proof.
  intros Hwf. unfold center_bonus.
  apply for_total. intros ? row ?%elem_of_range.
  apply for_total. intros b col ?%elem_of_range.
  destruct (getitem_wf g row col) as [v ->]; [done..|]. simpl.
  case_bool_decide; eauto.
Qed.

Lemma evaluate_position_total g player : wf g → is_Some (evaluate_position g player).
Proof.
  intros Hwf. unfold evaluate_position.
  destruct (get_game_state_total g Hwf) as [st ->]. simpl.
  repeat (case_bool_decide; [eauto|]).
  destruct (window_score_total g player Hwf) as [s ->].
  destruct (center_bonus_total g player Hwf) as [b ->]. simpl. eauto.
Qed.

(** ** Legal moves *)

Lemma for_filter {A} (f : A → option bool) (l : list A) (acc : list A) :
  (∀ x, x ∈ l → is_Some (f x)) →
  Py.for_ l (λ acc x, ok ← f x; Some (if ok : bool then acc ++ [x] else acc)) acc
  = Some (acc ++ filter (λ x, f x = Some true) l).
Proof.
  revert acc. induction l as [|x l IH]; intros acc H; simpl.
  - by rewrite filter_nil, app_nil_r.
  - destruct (H x) as [b Hb]; [left|]. rewrite Hb. simpl.
    rewrite IH by (intros; apply H; by right).
    destruct b.
    + rewrite filter_cons_True by done. by rewrite <- app_assoc.
    + rewrite filter_cons_False by congruence. done.
Qed.

(** The legal moves are the columns whose top cell is empty, in ascending
    order. *)
Lemma get_valid_moves_wf g :
  wf g →
  get_valid_moves g
  = Some (filter (λ c, is_valid_location g c = Some true) (Py.range 0 (cols g))).
Proof.
  intros Hwf. unfold get_valid_moves. rewrite for_filter; [done|].
  intros c Hc%elem_of_range. unfold is_valid_location.
  destruct (getitem_wf g 0 c) as [v ->]; [done|destruct Hwf; lia|done|].
  simpl. eauto.
Qed.

Lemma elem_of_valid_moves g vm c :
  wf g → get_valid_moves g = Some vm →
  c ∈ vm ↔ 0 ≤ c < cols g ∧ getitem g 0 c = Some 0.
Proof.
  intros Hwf. rewrite get_valid_moves_wf by done. intros [= <-].
  rewrite list_elem_of_filter, elem_of_range. unfold is_valid_location.
  split.
  - intros [H ?]. split; [done|].
    destruct (getitem g 0 c) as [v|]; [|done]. simpl in H.
    injection H as H. by apply bool_decide_eq_true in H as ->.
  - intros [? ->]. done.
Qed.

Lemma filter_seqZ_sorted (P : Z → Prop) `{!∀ x, Decision (P x)} (k : nat) :
  ∀ lo n i j x y, Z.to_nat n = k →
    filter P (seqZ lo n) !! i = Some x → filter P (seqZ lo n) !! j = Some y →
    (i < j)%nat → x < y.
Proof.
  induction k as [|k IH]; intros lo n i j x y Hk.
  - rewrite seqZ_nil by lia. done.
  - rewrite seqZ_cons by lia. rewrite filter_cons. case_decide.
    + destruct i as [|i], j as [|j]; simpl; try lia.
      * intros [= <-] Hy _. apply list_elem_of_lookup_2 in Hy.
        apply list_elem_of_filter in Hy as [_ Hy].
        apply elem_of_seqZ in Hy. lia.
      * intros Hx Hy ?. apply (IH (Z.succ lo) (Z.pred n) i j); [lia|done..|lia].
    + apply IH. lia.
Qed.

Lemma valid_moves_sorted g vm :
  wf g → get_valid_moves g = Some vm →
  ∀ i j x y, vm !! i = Some x → vm !! j = Some y → (i < j)%nat → x < y.
Proof.
  intros Hwf. rewrite get_valid_moves_wf by done. intros [= <-].
  unfold Py.range. intros i j x y. by eapply filter_seqZ_sorted.
Qed.

(** ** Playing a legal move *)

Lemma for_return_first {A R} (l : list A) (body : A → option (option R)) x r :
  (∀ y, y ∈ l → is_Some (body y)) → x ∈ l → body x = Some (Some r) →
  ∃ r', Py.for_return l body = Some (Some r').
Proof.
  induction l as [|y l IH]; intros Ht Hx Hb; [inversion Hx|]. simpl.
  destruct (Ht y) as [[v|] Hy]; [left| |]; rewrite Hy; simpl; [eauto|].
  apply elem_of_cons in Hx as [->|Hx]; [congruence|].
  apply IH; [|done..]. intros. apply Ht. by right.
Qed.

Lemma get_next_open_row_valid g col :
  wf g → 0 ≤ col < cols g → getitem g 0 col = Some 0 →
  ∃ row, get_next_open_row g col = Some (Some row).
Proof.
  intros Hwf Hc H0. unfold get_next_open_row.
  eapply (for_return_first _ _ 0).
  - intros r Hr%elem_of_range_down.
    destruct (getitem_wf g r col) as [v ->]; [done|lia|done|]. simpl.
    case_bool_decide; eauto.
  - apply elem_of_range_down. destruct Hwf. lia.
  - rewrite H0. simpl. done.
Qed.

Lemma count_zero_insert (l : list Z) j v :
  l !! j = Some 0 → v ≠ 0 →
  S (length (filter (λ x, x = 0) (<[j := v]> l))) = length (filter (λ x, x = 0) l).
Proof.
  intros Hj Hv.
  rewrite <- (take_drop_middle l j 0 Hj) at 2.
  rewrite insert_take_drop by (by eapply lookup_lt_Some).
  rewrite !filter_app, !length_app.
  rewrite (filter_cons_True _ 0) by done.
  rewrite (filter_cons_False _ v) by done.
  simpl. lia.
Qed.

Lemma setitem_wf g r c v g' : wf g → setitem g r c v = Some g' → wf g'.
Proof.
  intros (Hr & Hlen & Hrows) H. unfold setitem, Py.index, Py.set_index in H.
  destruct (Py.position (length (board g)) r) as [i|]; [|done]. simpl in H.
  destruct (board g !! i) as [row|] eqn:Hrow; [|done]. simpl in H.
  destruct (Py.position (length row) c) as [j|]; [|done]. simpl in H.
  simplify_eq. unfold wf. simpl. rewrite length_insert.
  split_and!; [done..|].
  apply Forall_insert; [done|]. rewrite length_insert.
  rewrite Forall_forall in Hrows. apply Hrows.
  by eapply list_elem_of_lookup_2.
Qed.

Lemma setitem_count_empty g r c v g' :
  getitem g r c = Some 0 → v ≠ 0 → setitem g r c v = Some g' →
  S (count_empty g') = count_empty g.
Proof.
  intros H Hv Hs.
  destruct (getitem_Some _ _ _ _ H) as (i & j & row & Hi & Hrow & Hj & Hz).
  rewrite (setitem_at g r c v i j row) in Hs by done. simplify_eq.
  unfold count_empty. simpl.
  rewrite <- (take_drop_middle (board g) i row Hrow) at 2.
  rewrite insert_take_drop by (by eapply lookup_lt_Some).
  rewrite !concat_app, !concat_cons, !filter_app, !length_app.
  rewrite <- (count_zero_insert row j v) by done. lia.
Qed.

(** A legal move of a player succeeds, fills one empty cell, and is undone
    exactly by [undo_move]. *)
Lemma simulate_move_valid g vm col v :
  wf g → get_valid_moves g = Some vm → col ∈ vm → v ≠ 0 →
  ∃ row g1, simulate_move g col v = Some ((Some row, col), g1)
            ∧ wf g1
            ∧ S (count_empty g1) = count_empty g
            ∧ undo_move g1 (Some row, col) = Some g.
Proof.
  intros Hwf Hvm Hc Hv.
  apply (elem_of_valid_moves g vm col Hwf Hvm) in Hc as [Hc H0].
  destruct (get_next_open_row_valid g col Hwf Hc H0) as [row Hrow].
  destruct (simulate_undo g col row v Hrow) as (g1 & Hs & _ & Hu).
  pose proof (get_next_open_row_Some _ _ _ Hrow) as [_ Hz].
  exists row, g1. split; [done|].
  unfold simulate_move in Hs. rewrite Hrow in Hs. simpl in Hs.
  destruct (setitem g row col v) as [g1'|] eqn:Hset; [|done].
  simpl in Hs. simplify_eq.
  split_and!; [by eapply setitem_wf|by eapply setitem_count_empty|done].
Qed.

(** ** The heuristic evaluation *)

Lemma Zsum_app l1 l2 : Zsum (l1 ++ l2) = Zsum l1 + Zsum l2.
Proof. unfold Zsum. induction l1; simpl; lia. Qed.

Lemma for_cons {A S} (x : A) (l : list A) (body : S → A → option S) (s : S) :
  Py.for_ (x :: l) body s = body s x ≫= Py.for_ l body.
Proof. done. Qed.

Lemma length_range lo hi : Z.of_nat (length (Py.range lo hi)) = Z.max 0 (hi - lo).
Proof. unfold Py.range. rewrite length_seqZ. lia. Qed.

Lemma evaluate_window_bound w p : Z.abs (evaluate_window w p) ≤ 100.
Proof.
  unfold evaluate_window, THREE_IN_ROW, TWO_IN_ROW.
  repeat case_bool_decide; lia.
Qed.

Lemma add_window_eq g player cell score w :
  window4 g cell = Some w →
  add_window g player cell score = Some (score + evaluate_window w player).
Proof. unfold add_window. by intros ->. Qed.

Lemma window_loop_add g player (inner : list Z) (cell : Z → Z → Z * Z) :
  (∀ b, b ∈ inner → ∀ i, 0 ≤ i < 4 →
     is_Some (getitem g (cell b i).1 (cell b i).2)) →
  ∀ score, ∃ d,
    Py.for_ inner (λ score b, add_window g player (cell b) score) score
    = Some (score + d)
    ∧ Z.abs d ≤ 100 * Z.of_nat (length inner).
Proof.
  induction inner as [|b inner IH]; intros Hin score.
  - exists 0. simpl. split; [by rewrite Z.add_0_r|lia].
  - destruct (window4_total g (cell b)) as [w Hw].
    { intros. apply Hin; [left|done]. }
    rewrite for_cons, (add_window_eq g player _ score w Hw).
    cbn [mbind option_bind length].
    destruct (IH (λ b' Hb', Hin b' (list_elem_of_further _ _ _ Hb'))
                 (score + evaluate_window w player)) as (d & -> & Hd).
    exists (evaluate_window w player + d). split; [by rewrite Z.add_assoc|].
    pose proof (evaluate_window_bound w player). lia.
Qed.

(** One window loop nest adds, for every start cell, the score of one
    window. *)
Lemma window_loops_add g player (outer inner : list Z) (cell : Z → Z → Z → Z * Z) :
  (∀ a b, a ∈ outer → b ∈ inner → ∀ i, 0 ≤ i < 4 →
     is_Some (getitem g (cell a b i).1 (cell a b i).2)) →
  ∀ score, ∃ d,
    Py.for_ outer (λ score a,
      Py.for_ inner (λ score b, add_window g player (cell a b) score) score) score
    = Some (score + d)
    ∧ Z.abs d ≤ 100 * (Z.of_nat (length outer) * Z.of_nat (length inner)).
Proof.
  induction outer as [|a outer IH]; intros Hin score.
  - exists 0. simpl. split; [by rewrite Z.add_0_r|lia].
  - rewrite for_cons.
    destruct (window_loop_add g player inner (cell a)) with (score := score)
      as (d1 & -> & Hd1).
    { intros. apply Hin; [left|done..]. }
    cbn [mbind option_bind length].
    destruct (IH (λ a' b' Ha', Hin a' b' (list_elem_of_further _ _ _ Ha')) (score + d1))
      as (d2 & -> & Hd2).
    exists (d1 + d2). split; [by rewrite Z.add_assoc|]. lia.
Qed.

Lemma cols_nonneg g : wf g → 0 ≤ cols g.
Proof.
  intros (Hr & Hl & Hf).
  destruct (board g) as [|row b]; [simpl in Hl; lia|].
  apply Forall_cons in Hf as [Hf _]. lia.
Qed.

Lemma window_score_bound g player :
  wf g → ∃ s, window_score g player = Some s
              ∧ Z.abs s ≤ 100 * scanned_windows g.
Proof.
  intros Hwf. unfold window_score.
  destruct (window_loops_add g player (Py.range 0 (rows g - 3)) (Py.range 0 (cols g - 3))
              (λ row col i, (row, col + i))) with (score := 0) as (d1 & -> & H1).
  { intros a b Ha%elem_of_range Hb%elem_of_range i Hi.
    apply getitem_wf; simpl; [done|lia..]. }
  simpl.
  destruct (window_loops_add g player (Py.range 0 (cols g)) (Py.range 0 (rows g - 3))
              (λ col row i, (row + i, col))) with (score := 0 + d1) as (d2 & -> & H2).
  { intros a b Ha%elem_of_range Hb%elem_of_range i Hi.
    apply getitem_wf; simpl; [done|lia..]. }
  simpl.
  destruct (window_loops_add g player (Py.range 0 (rows g - 3)) (Py.range 0 (cols g - 3))
              (λ row col i, (row + i, col + i))) with (score := 0 + d1 + d2)
    as (d3 & -> & H3).
  { intros a b Ha%elem_of_range Hb%elem_of_range i Hi.
    apply getitem_wf; simpl; [done|lia..]. }
  simpl.
  destruct (window_loops_add g player (Py.range 3 (rows g)) (Py.range 0 (cols g - 3))
              (λ row col i, (row - i, col + i))) with (score := 0 + d1 + d2 + d3)
    as (d4 & -> & H4).
  { intros a b Ha%elem_of_range Hb%elem_of_range i Hi.
    apply getitem_wf; simpl; [done|lia..]. }
  simpl. eexists. split; [done|].
  rewrite !length_range in *. unfold scanned_windows.
  pose proof (cols_nonneg g Hwf). destruct Hwf as (Hr & Hl & _).
  replace (Z.max 0 (rows g - 3)) with (Z.max 0 (rows g - 3 - 0)) in * by (f_equal; lia).
  nia.
Qed.

(** The bonus loops add one [center_term] per cell that holds the player's
    token. *)
Lemma center_loop g player row (cs : list Z) :
  (∀ c, c ∈ cs → is_Some (getitem g row c)) →
  ∀ bonus,
    Py.for_ cs (λ bonus col,
      v ← getitem g row col;
      if bool_decide (v = player) then
        let distance_from_center := Z.abs (col - cols g `div` 2) in
        Some (bonus + Z.max 0 (CENTER_BONUS - distance_from_center))
      else Some bonus) bonus
    = Some (bonus + Zsum ((λ rc, center_term g rc.2) <$>
              filter (λ rc, getitem g rc.1 rc.2 = Some player)
                     (cs ≫= λ c, [(row, c)]))).
Proof.
  induction cs as [|c cs IH]; intros Hin bonus.
  - simpl. by rewrite Z.add_0_r.
  - rewrite for_cons. destruct (Hin c) as [v Hv]; [left|]. rewrite Hv.
    cbn [mbind option_bind]. rewrite bind_cons. simpl. rewrite filter_cons. simpl.
    rewrite Hv. case_bool_decide as Hp.
    + subst v. rewrite decide_True by done. simpl.
      rewrite IH by (intros; apply Hin; by right).
      unfold center_term, CENTER_BONUS. simpl. by rewrite Z.add_assoc.
    + rewrite decide_False by congruence.
      apply IH. intros. apply Hin. by right.
Qed.

Lemma center_bonus_sum g player :
  wf g →
  center_bonus g player
  = Some (Zsum ((λ rc, center_term g rc.2) <$> cells_of g player)).
Proof.
  intros Hwf. unfold center_bonus, cells_of, cells.
  assert (∀ rs bonus, (∀ r, r ∈ rs → 0 ≤ r < rows g) →
    Py.for_ rs (λ bonus row,
      Py.for_ (Py.range 0 (cols g)) (λ bonus col,
        v ← getitem g row col;
        if bool_decide (v = player) then
          let distance_from_center := Z.abs (col - cols g `div` 2) in
          Some (bonus + Z.max 0 (CENTER_BONUS - distance_from_center))
        else Some bonus) bonus) bonus
    = Some (bonus + Zsum ((λ rc, center_term g rc.2) <$>
        filter (λ rc, getitem g rc.1 rc.2 = Some player)
               (rs ≫= λ r, Py.range 0 (cols g) ≫= λ c, [(r, c)])))) as H.
  { induction rs as [|r rs IH]; intros bonus Hrs.
    - simpl. by rewrite Z.add_0_r.
    - rewrite for_cons, center_loop.
      2:{ intros c Hc%elem_of_range. apply getitem_wf; [done| |done].
          apply Hrs. left. }
      cbn [mbind option_bind]. rewrite IH by (intros; apply Hrs; by right).
      rewrite bind_cons, filter_app, fmap_app, Zsum_app. by rewrite Z.add_assoc. }
  rewrite H by (by intros r Hr%elem_of_range). done.
Qed.

Lemma length_cells g :
  wf g → Z.of_nat (length (cells g)) = rows g * cols g.
Proof.
  intros Hwf. pose proof (cols_nonneg g Hwf). destruct Hwf as (Hr & _).
  unfold cells.
  assert (∀ (rs cs : list Z), length (rs ≫= λ r, cs ≫= λ c, [(r, c)])
                              = (length rs * length cs)%nat) as Hlen.
  { intros rs cs. induction rs as [|r rs IH]; [done|].
    rewrite bind_cons, length_app, IH. simpl. f_equal.
    clear. induction cs as [|c cs IH]; [done|].
    rewrite bind_cons. simpl. by rewrite IH. }
  rewrite Hlen, Nat2Z.inj_mul, !length_range. lia.
Qed.

Lemma center_bonus_bound g player :
  wf g → ∃ b, center_bonus g player = Some b ∧ 0 ≤ b ≤ 3 * (rows g * cols g).
Proof.
  intros Hwf. rewrite center_bonus_sum by done. eexists. split; [done|].
  rewrite <- length_cells by done. unfold cells_of.
  pose proof (length_filter (λ rc, getitem g rc.1 rc.2 = Some player) (cells g)) as Hle.
  revert Hle. generalize (filter (λ rc, getitem g rc.1 rc.2 = Some player) (cells g)).
  intros l Hle.
  assert (0 ≤ Zsum ((λ rc, center_term g rc.2) <$> l) ≤ 3 * Z.of_nat (length l)); [|lia].
  clear Hle. induction l as [|rc l IH]; [simpl; lia|].
  rewrite fmap_cons, length_cons, Nat2Z.inj_succ. unfold Zsum in *.
  cbn [foldr]. unfold center_term at 1 3. lia.
Qed.

(** C9: in an ongoing position the evaluation is the window score plus the
    sum, over the cells that hold the perspective player's own token, of
    [max(0, 3 - |column - cols // 2|)]; the cells of the opponent contribute
    no term to that sum. *)
Theorem center_bonus_own_tokens_only (g : Connect4) (player : Z) :
  wf g → is_player player → get_game_state g = Some 0 →
  ∃ s, window_score g player = Some s
       ∧ evaluate_position g player
         = Some (s + Zsum ((λ rc, Z.max 0 (3 - Z.abs (rc.2 - cols g `div` 2)))
                             <$> cells_of g player)).
Proof.
  intros Hwf Hp Hst. destruct (window_score_total g player Hwf) as [s Hs].
  exists s. split; [done|].
  unfold evaluate_position. rewrite Hst. simpl.
  rewrite !bool_decide_eq_false_2 by (destruct Hp; lia).
  rewrite Hs, center_bonus_sum by done. done.
Qed.

Lemma center_bonus_own_tokens_only_witness :
  ∃ s, window_score many_threats 1 = Some s
       ∧ evaluate_position many_threats 1
         = Some (s + Zsum ((λ rc, Z.max 0 (3 - Z.abs (rc.2 - cols many_threats `div` 2)))
                             <$> cells_of many_threats 1)).
Proof.
  apply (center_bonus_own_tokens_only many_threats 1).
  - unfold wf. split_and!; [done..|]. repeat constructor.
  - by left.
  - vm_compute. reflexivity.
Defined.

(** What does hold of the scores: the terminal scores are exactly 1000,
    -1000 and 0, and in an ongoing position the score is bounded by 100 per
    window that the loops scan plus 3 per cell (5826 on the 6x7 board). *)
Theorem evaluate_position_terminal_and_bound (g : Connect4) (player : Z) :
  wf g → is_player player →
  ∃ st s, get_game_state g = Some st
          ∧ evaluate_position g player = Some s
          ∧ (st = player → s = 1000)
          ∧ (st = 3 - player → s = -1000)
          ∧ (st = 3 → s = 0)
          ∧ (st = 0 → Z.abs s ≤ 100 * scanned_windows g + 3 * (rows g * cols g)).
Proof.
  intros Hwf Hp. destruct (get_game_state_total g Hwf) as [st Hst].
  exists st. unfold evaluate_position. rewrite Hst. simpl.
  destruct (window_score_bound g player Hwf) as (s & Hs & Hsb).
  destruct (center_bonus_bound g player Hwf) as (b & Hb & Hbb).
  repeat case_bool_decide.
  - eexists. split_and!; [done..| | | |]; destruct Hp; lia.
  - eexists. split_and!; [done..| | | |]; destruct Hp; lia.
  - eexists. split_and!; [done..| | | |]; destruct Hp; lia.
  - rewrite Hs, Hb. simpl. eexists. split_and!; [done..| | | |]; try lia.
Qed.

Lemma evaluate_position_terminal_and_bound_witness :
  ∃ st s, get_game_state diagonal_win = Some st
          ∧ evaluate_position diagonal_win 1 = Some s
          ∧ (st = 1 → s = 1000)
          ∧ (st = 3 - 1 → s = -1000)
          ∧ (st = 3 → s = 0)
          ∧ (st = 0 → Z.abs s ≤ 100 * scanned_windows diagonal_win
                                + 3 * (rows diagonal_win * cols diagonal_win)).
Proof.
  apply (evaluate_position_terminal_and_bound diagonal_win 1).
  - unfold wf. split_and!; [done..|]. repeat constructor.
  - by left.
Defined.

(** The sample positions [many_threats] and [diagonal_win] are reached by
    legal play. *)
Example samples_reachable :
  board <$> play_columns [2;3;3;1;5;6;1;0;1;0;1;2;2;6;2;5;3;5;3;2;5]
    = Some (board many_threats)
  ∧ board <$> play_columns [1;0;0;1;3;2;2;0;0;6;1] = Some (board diagonal_win).
Proof. split; vm_compute; reflexivity. Qed.

Example more_samples_reachable :
  board <$> play_columns [2;3;3;1;5;6;1;0;1;0;1;2;2;6;2;5;3;5;3;2;5;6]
    = Some (board win_passed_up)
  ∧ board <$> play_columns [0;0;1;1;2;2;3] = Some (board four_in_bottom_row)
  ∧ board <$> play_columns [1;0;0;1;6;1;1;5;0] = Some (board wrapped_read).
Proof. split_and!; vm_compute; reflexivity. Qed.

(** C4 fails on the code: the heuristic of an ongoing position is an
    unclamped sum and exceeds the score 1000 of a win.  [many_threats] is
    ongoing and evaluates to 1060 for player 1.  In [win_passed_up] player 1
    wins at once in column 0, 1, 3 or 4 (score 1000 each), and column 6
    leaves the game ongoing with the score 1170; [get_best_move] with depth
    1 and with depth 3, with and without alpha-beta, answers column 6. *)
Theorem ongoing_score_outranks_a_win :
  get_game_state many_threats = Some 0
  ∧ evaluate_position many_threats 1 = Some 1060
  ∧ ¬ (Z.abs 1060 < 1000)
  ∧ get_game_state win_passed_up = Some 0
  ∧ (λ col, r ← simulate_move win_passed_up col 1;
            st ← get_game_state r.2;
            e ← evaluate_position r.2 1;
            Some (col, st, e)) <$> [0; 1; 3; 4; 6]
    = [Some (0, 1, 1000); Some (1, 1, 1000); Some (3, 1, 1000);
       Some (4, 1, 1000); Some (6, 0, 1170)]
  ∧ minimax_basic (search_fuel win_passed_up) win_passed_up 1 true 1
    = Some ((Fin 1170, Some 6), win_passed_up)
  ∧ minimax_basic (search_fuel win_passed_up) win_passed_up 3 true 1
    = Some ((Fin 1010, Some 6), win_passed_up)
  ∧ (λ self, get_best_move self win_passed_up 1)
      <$> [mkMinimaxPlayer 1 true; mkMinimaxPlayer 1 false;
           mkMinimaxPlayer 3 true; mkMinimaxPlayer 3 false]
    = [Some (Some 6, win_passed_up); Some (Some 6, win_passed_up);
       Some (Some 6, win_passed_up); Some (Some 6, win_passed_up)].
Proof. split_and!; try (vm_compute; reflexivity). lia. Qed.

(** C1 fails on the code: the horizontal loop of [evaluate_position] runs
    over the rows [0 .. rows-4] only, so the three tokens of player 1 in the
    bottom row score nothing, while the sum over every window of the board
    is 110 (100 for the window of columns 0-3, 10 for columns 1-4). *)
Theorem window_score_skips_bottom_rows :
  get_game_state three_bottom_left = Some 0
  ∧ window_score three_bottom_left 1 = Some 0
  ∧ all_windows_score three_bottom_left 1 = 110
  ∧ window_score many_threats 1 = Some 1040
  ∧ all_windows_score many_threats 1 = 1240.
Proof. split_and!; vm_compute; reflexivity. Qed.

(** C5 fails on the code: player 1 has just completed the diagonal
    (2,0), (3,1), (4,2), (5,3) with the token at (3,1), and
    [is_winning_move 3 1] answers false: the row range of the diagonal scan
    is clamped at 0 and the column range is not shifted with it, so the
    zipped start cells (0,0), (1,1) are not on the diagonal of (3,1). *)
Theorem is_winning_move_misses_diagonal :
  getitem diagonal_win 3 1 = Some (current_player diagonal_win)
  ∧ four_through diagonal_win 3 1 = true
  ∧ is_winning_move diagonal_win 3 1 = Some false
  ∧ get_game_state diagonal_win = Some 1.
Proof. split_and!; vm_compute; reflexivity. Qed.

(** ** Scores *)

Ltac score_cases :=
  repeat match goal with x : score |- _ => destruct x end;
  unfold better, score_max, score_min in *; simpl in *;
  repeat case_bool_decide; simplify_eq/=; try done; try lia.

(** ** Keeping the first best score *)

Lemma better_trans m a b c :
  better m a b = true → better m b c = true → better m a c = true.
Proof. destruct m; score_cases. Qed.

Lemma better_after_not_better m a b c :
  better m a b = false → better m a c = true → better m b c = true.
Proof. destruct m; score_cases. Qed.

Lemma pick_cons m c s tr acc :
  pick m ((c, s) :: tr) acc
  = pick m tr (if better m acc.1 s then (s, c) else acc).
Proof. done. Qed.

Lemma pick_spec m tr bs0 bc0 bs bc :
  pick m tr (bs0, bc0) = (bs, bc) →
  (bs = bs0 ∧ bc = bc0 ∧ ∀ c s, (c, s) ∈ tr → better m bs0 s = false)
  ∨ (better m bs0 bs = true ∧ first_best m tr bs bc).
Proof.
  revert bs0 bc0. induction tr as [|[c s] tr IH]; intros bs0 bc0.
  - intros [= -> ->]. left. split_and!; [done..|]. intros ?? H. inversion H.
  - rewrite pick_cons. simpl. destruct (better m bs0 s) eqn:Hb; intros Hp.
    + right. destruct (IH _ _ Hp) as [(-> & -> & Hall)|[Hlt (t1 & t2 & -> & H1 & H2)]].
      * split; [done|]. exists [], tr. split_and!; [done| |done].
        intros ?? H. inversion H.
      * split; [by eapply better_trans|].
        exists ((c, s) :: t1), t2. split_and!; [done| |done].
        intros c' s' [[= -> ->]|H]%elem_of_cons; eauto.
    + destruct (IH _ _ Hp) as [(-> & -> & Hall)|[Hlt (t1 & t2 & -> & H1 & H2)]].
      * left. split_and!; [done..|].
        intros c' s' [[= -> ->]|H]%elem_of_cons; eauto.
      * right. split; [done|].
        exists ((c, s) :: t1), t2. split_and!; [done| |done].
        intros c' s' [[= -> ->]|H]%elem_of_cons; [|eauto].
        by eapply better_after_not_better.
Qed.

(** ** Unfolding one level of the searches *)

Lemma minimax_basic_S fuel game depth m player :
  minimax_basic (S fuel) game depth m player =
    if bool_decide (depth = 0) then leaf game player else
    st ← get_game_state game;
    if bool_decide (st ≠ 0) then leaf game player else
    valid_moves ← get_valid_moves game;
    if bool_decide (valid_moves = []) then leaf game player else
    best_col ← head valid_moves;
    r ← Py.for_ valid_moves (basic_body m fuel depth player)
          (worst m, best_col, game);
    let '(best_score, best_col, game) := r in
    Some ((best_score, Some best_col), game).
Proof. destruct m; reflexivity. Qed.

Lemma minimax_ab_S fuel game depth alpha beta m player :
  minimax_ab (S fuel) game depth alpha beta m player =
    if bool_decide (depth = 0) then leaf game player else
    st ← get_game_state game;
    if bool_decide (st ≠ 0) then leaf game player else
    valid_moves ← get_valid_moves game;
    if bool_decide (valid_moves = []) then leaf game player else
    best_col ← head valid_moves;
    r ← Py.for_break valid_moves
          (ab_body m fuel depth (if m then beta else alpha) player)
          (worst m, best_col, if m then alpha else beta, game);
    let '(best_score, best_col, _, game) := r in
    Some ((best_score, Some best_col), game).
Proof. destruct m; reflexivity. Qed.

(** ** One iteration of a move loop *)

Lemma is_player_mover m p : is_player p → mover m p ≠ 0.
Proof. intros [-> | ->]; destruct m; done. Qed.

Lemma basic_body_eq m fuel d p g g1 row col bs bc s c' :
  simulate_move g col (mover m p) = Some ((Some row, col), g1) →
  undo_move g1 (Some row, col) = Some g →
  minimax_basic fuel g1 (d - 1) (negb m) p = Some ((s, c'), g1) →
  basic_body m fuel d p (bs, bc, g) col = Some (pick m [(col, s)] (bs, bc), g)
  ∧ child_score_basic fuel g d m p col = Some s.
Proof.
  intros Hs Hu Hr. unfold basic_body, child_score_basic, pick.
  rewrite Hs. simpl. rewrite Hr. simpl. rewrite Hu. simpl.
  by destruct (better m bs s).
Qed.

Lemma ab_body_eq m fuel d fixed p g g1 row col bs bc w s c' :
  simulate_move g col (mover m p) = Some ((Some row, col), g1) →
  undo_move g1 (Some row, col) = Some g →
  minimax_ab fuel g1 (d - 1) (if m then w else fixed) (if m then fixed else w)
             (negb m) p = Some ((s, c'), g1) →
  let acc := pick m [(col, s)] (bs, bc) in
  let w' := next_bound m w acc.1 in
  ab_body m fuel d fixed p (bs, bc, w, g) col
  = Some ((acc, w', g), cut m fixed w')
  ∧ child_score_ab fuel g d (if m then w else fixed) (if m then fixed else w)
                   m p col = Some s.
Proof.
  intros Hs Hu Hr. unfold ab_body, child_score_ab, pick, next_bound, cut.
  rewrite Hs. simpl. rewrite Hr. simpl. rewrite Hu. simpl.
  by destruct (better m bs s).
Qed.

(** ** The loops and the columns they examine *)

Section loops.
Context (m : bool) (fuel : nat) (d p : Z) (g : Connect4) (vm : list Z).
Hypothesis Hwf : wf g.
Hypothesis Hvm : get_valid_moves g = Some vm.
Hypothesis Hp : is_player p.

(** The basic loop examines every column of [l] and keeps the first best
    score. *)
Lemma basic_loop_trace (l : list Z) :
  (∀ g1, wf g1 → S (count_empty g1) = count_empty g →
     ∃ z c, minimax_basic fuel g1 (d - 1) (negb m) p = Some ((Fin z, c), g1)) →
  (∀ c, c ∈ l → c ∈ vm) →
  ∀ bs bc, ∃ tr,
    Py.for_ l (basic_body m fuel d p) (bs, bc, g) = Some (pick m tr (bs, bc), g)
    ∧ tr.*1 = l
    ∧ ∀ c s, (c, s) ∈ tr →
        child_score_basic fuel g d m p c = Some s ∧ ∃ z, s = Fin z.
Proof.
  intros Hrec. induction l as [|col l IH]; intros Hl bs bc.
  - exists []. split_and!; [done..|]. intros ?? H. inversion H.
  - destruct (simulate_move_valid g vm col (mover m p))
      as (row & g1 & Hs & Hwf1 & Hc1 & Hu);
      [done|done|apply Hl; left|by apply is_player_mover|].
    destruct (Hrec g1 Hwf1 Hc1) as (z & c' & Hr).
    destruct (basic_body_eq m fuel d p g g1 row col bs bc _ _ Hs Hu Hr)
      as [Hbody Hchild].
    rewrite for_cons, Hbody. cbn [mbind option_bind].
    destruct (pick m [(col, Fin z)] (bs, bc)) as [bs1 bc1] eqn:Hpick.
    destruct (IH (λ c Hc, Hl c (list_elem_of_further _ _ _ Hc)) bs1 bc1)
      as (tr & -> & <- & Htr).
    exists ((col, Fin z) :: tr). split_and!.
    + change ((col, Fin z) :: tr) with ([(col, Fin z)] ++ tr).
      unfold pick in *. by rewrite foldl_app, Hpick.
    + done.
    + intros c s [[= -> ->]|H]%elem_of_cons; [eauto|by apply Htr].
Qed.

(** The alpha-beta loop examines a prefix of [l] and keeps the first best
    score among the examined columns. *)
Lemma ab_loop_trace (fixed : score) (l : list Z) :
  (∀ g1 a b, wf g1 → S (count_empty g1) = count_empty g →
     ∃ z c, minimax_ab fuel g1 (d - 1) a b (negb m) p = Some ((Fin z, c), g1)) →
  (∀ c, c ∈ l → c ∈ vm) →
  ∀ bs bc w, ∃ tr w',
    Py.for_break l (ab_body m fuel d fixed p) (bs, bc, w, g)
    = Some (pick m tr (bs, bc), w', g)
    ∧ tr.*1 `prefix_of` l
    ∧ (l ≠ [] → tr ≠ [])
    ∧ ∀ c s, (c, s) ∈ tr →
        (∃ w0, child_score_ab fuel g d (if m then w0 else fixed)
                               (if m then fixed else w0) m p c = Some s)
        ∧ ∃ z, s = Fin z.
Proof.
  intros Hrec. induction l as [|col l IH]; intros Hl bs bc w.
  - exists [], w. split_and!; [done..|]. intros ?? H. inversion H.
  - destruct (simulate_move_valid g vm col (mover m p))
      as (row & g1 & Hs & Hwf1 & Hc1 & Hu);
      [done|done|apply Hl; left|by apply is_player_mover|].
    destruct (Hrec g1 (if m then w else fixed) (if m then fixed else w) Hwf1 Hc1)
      as (z & c' & Hr).
    destruct (ab_body_eq m fuel d fixed p g g1 row col bs bc w _ _ Hs Hu Hr)
      as [Hbody Hchild].
    cbn [Py.for_break]. rewrite Hbody. cbn [mbind option_bind fst snd].
    destruct (pick m [(col, Fin z)] (bs, bc)) as [bs1 bc1] eqn:Hpick.
    cbn [fst].
    destruct (cut m fixed (next_bound m w bs1)).
    + exists [(col, Fin z)], (next_bound m w bs1). split_and!.
      * by rewrite Hpick.
      * by exists l.
      * done.
      * intros c s [[= -> ->]|H]%elem_of_cons; [eauto 6|inversion H].
    + destruct (IH (λ c Hc, Hl c (list_elem_of_further _ _ _ Hc)) bs1 bc1
                   (next_bound m w bs1)) as (tr & w' & -> & Hpre & _ & Htr).
      exists ((col, Fin z) :: tr), w'. split_and!.
      * change ((col, Fin z) :: tr) with ([(col, Fin z)] ++ tr).
        unfold pick in *. by rewrite foldl_app, Hpick.
      * simpl. by apply prefix_cons.
      * done.
      * intros c s [[= -> ->]|H]%elem_of_cons; [eauto 6|by apply Htr].
Qed.
End loops.

(** ** Termination and the shape of the results *)

Lemma leaf_total g p : wf g → ∃ z, leaf g p = Some ((Fin z, None), g).
Proof.
  intros Hwf. unfold leaf.
  destruct (evaluate_position_total g p Hwf) as [e ->]. simpl. eauto.
Qed.

Lemma better_worst m z : better m (worst m) (Fin z) = true.
Proof. by destruct m. Qed.

Lemma pick_worst m tr c0 bs bc :
  tr ≠ [] → (∀ c s, (c, s) ∈ tr → ∃ z, s = Fin z) →
  pick m tr (worst m, c0) = (bs, bc) →
  first_best m tr bs bc ∧ ∃ z, bs = Fin z.
Proof.
  intros Hne Hfin Hpick.
  destruct (pick_spec m tr _ _ _ _ Hpick) as [(_ & _ & Hall)|[_ Hfb]].
  - destruct tr as [|[c s] tr]; [done|].
    destruct (Hfin c s) as [z ->]; [left|].
    pose proof (better_worst m z) as Hb.
    rewrite (Hall c (Fin z)) in Hb by left. done.
  - split; [done|]. destruct Hfb as (t1 & t2 & -> & _).
    apply (Hfin bc). apply elem_of_app. right. left.
Qed.

Lemma valid_moves_head (vm : list Z) : vm ≠ [] → ∃ c0, head vm = Some c0.
Proof. destruct vm; [done|eauto]. Qed.

(** A layer of [minimax_basic] above the leaves: the columns are examined in
    the order of [get_valid_moves], all of them, and the result is the first
    best one. *)
Lemma basic_layer m fuel g d p vm :
  wf g → is_player p → inner_node g d vm →
  (∀ g1, wf g1 → S (count_empty g1) = count_empty g →
     ∃ z c, minimax_basic fuel g1 (d - 1) (negb m) p = Some ((Fin z, c), g1)) →
  ∃ z bc tr,
    minimax_basic (S fuel) g d m p = Some ((Fin z, Some bc), g)
    ∧ tr.*1 = vm
    ∧ (∀ c s, (c, s) ∈ tr → child_score_basic fuel g d m p c = Some s)
    ∧ first_best m tr (Fin z) bc.
Proof.
  intros Hwf Hp (Hd & Hst & Hvm & Hne) Hrec.
  rewrite minimax_basic_S, Hst, Hvm. simpl.
  rewrite !bool_decide_eq_false_2 by (done || by intros ?).
  destruct (valid_moves_head vm Hne) as [c0 ->]. simpl.
  destruct (basic_loop_trace m fuel d p g vm Hwf Hvm Hp vm Hrec (λ c H, H)
              (worst m) c0) as (tr & -> & Htr & Hch).
  simpl. destruct (pick m tr (worst m, c0)) as [bs bc] eqn:Hpick.
  destruct (pick_worst m tr c0 bs bc) as [Hfb [z ->]];
    [|intros c s Hcs; by destruct (Hch c s Hcs)|done|].
  { intros ->. simpl in Htr. by subst vm. }
  exists z, bc, tr. split_and!; [done..| |done].
  intros c s Hcs. by destruct (Hch c s Hcs).
Qed.

(** A layer of [minimax_ab] above the leaves: a prefix of the columns is
    examined, and the result is the first best one among them. *)
Lemma ab_layer m fuel g d a b p vm :
  wf g → is_player p → inner_node g d vm →
  (∀ g1 a b, wf g1 → S (count_empty g1) = count_empty g →
     ∃ z c, minimax_ab fuel g1 (d - 1) a b (negb m) p = Some ((Fin z, c), g1)) →
  ∃ z bc tr,
    minimax_ab (S fuel) g d a b m p = Some ((Fin z, Some bc), g)
    ∧ tr.*1 `prefix_of` vm
    ∧ (∀ c s, (c, s) ∈ tr →
         ∃ w0, child_score_ab fuel g d (if m then w0 else a)
                              (if m then b else w0) m p c = Some s)
    ∧ first_best m tr (Fin z) bc.
Proof.
  intros Hwf Hp (Hd & Hst & Hvm & Hne) Hrec.
  rewrite minimax_ab_S, Hst, Hvm. simpl.
  rewrite !bool_decide_eq_false_2 by (done || by intros ?).
  destruct (valid_moves_head vm Hne) as [c0 ->]. simpl.
  destruct (ab_loop_trace m fuel d p g vm Hwf Hvm Hp (if m then b else a) vm
              Hrec (λ c H, H) (worst m) c0 (if m then a else b))
    as (tr & w' & -> & Htr & Hne' & Hch).
  simpl. destruct (pick m tr (worst m, c0)) as [bs bc] eqn:Hpick.
  destruct (pick_worst m tr c0 bs bc) as [Hfb [z ->]];
    [by apply Hne'|intros c s Hcs; by destruct (Hch c s Hcs)|done|].
  exists z, bc, tr. split_and!; [done..| |done].
  intros c s Hcs. destruct (Hch c s Hcs) as [[w0 Hw0] _]. exists w0.
  by destruct m.
Qed.

Lemma minimax_total fuel :
  ∀ g d m p, wf g → is_player p → (count_empty g < fuel)%nat →
    (∃ z c, minimax_basic fuel g d m p = Some ((Fin z, c), g))
    ∧ (∀ a b, ∃ z c, minimax_ab fuel g d a b m p = Some ((Fin z, c), g)).
Proof.
  induction fuel as [|fuel IH]; intros g d m p Hwf Hp Hfuel; [lia|].
  assert (∀ g1, wf g1 → S (count_empty g1) = count_empty g →
            (count_empty g1 < fuel)%nat) as Hlt by (intros; lia).
  destruct (decide (d = 0)) as [Hd|Hd].
  { rewrite minimax_basic_S. setoid_rewrite minimax_ab_S.
    rewrite !bool_decide_eq_true_2 by done.
    destruct (leaf_total g p Hwf) as [z Hz]. split; [|intros _ _]; eauto. }
  destruct (get_game_state_total g Hwf) as [st Hst].
  destruct (decide (st = 0)) as [->|Hst0].
  2:{ rewrite minimax_basic_S. setoid_rewrite minimax_ab_S. rewrite Hst. simpl.
      rewrite !bool_decide_eq_false_2 by done.
      rewrite !bool_decide_eq_true_2 by done.
      destruct (leaf_total g p Hwf) as [z Hz]. split; [|intros _ _]; eauto. }
  pose proof (get_valid_moves_wf g Hwf) as Hvm.
  destruct (decide (filter (λ c, is_valid_location g c = Some true)
                           (Py.range 0 (cols g)) = [])) as [Hnil|Hne].
  { rewrite minimax_basic_S. setoid_rewrite minimax_ab_S. rewrite Hst, Hvm. simpl.
    rewrite !bool_decide_eq_false_2 by (done || by intros ?).
    rewrite !bool_decide_eq_true_2 by done.
    destruct (leaf_total g p Hwf) as [z Hz]. split; [|intros _ _]; eauto. }
  split.
  - destruct (basic_layer m fuel g d p _ Hwf Hp (conj Hd (conj Hst (conj Hvm Hne))))
      as (z & bc & tr & H & _); [|eauto].
    intros g1 Hwf1 Hc1. by apply IH; [| |apply Hlt].
  - intros a b.
    destruct (ab_layer m fuel g d a b p _ Hwf Hp (conj Hd (conj Hst (conj Hvm Hne))))
      as (z & bc & tr & H & _); [|eauto].
    intros g1 a' b' Hwf1 Hc1. by apply IH; [| |apply Hlt].
Qed.

(** The theorem on the columns of the layers (C7) needs the legal moves in
    ascending order. *)
Lemma valid_moves_ascending g vm :
  wf g → get_valid_moves g = Some vm → ascending vm.
Proof. intros Hwf Hvm. unfold ascending. by apply (valid_moves_sorted g). Qed.

(** ** Alpha-beta against plain minimax *)

Ltac score_iff :=
  repeat match goal with x : score |- _ => destruct x end;
  unfold better, cut, worse, no_better; simpl;
  rewrite ?bool_decide_eq_true, ?bool_decide_eq_false;
  intuition (try congruence; try lia).

Lemma better_true m a b : better m a b = true ↔ worse m a b.
Proof. destruct m; score_iff. Qed.

Lemma cut_true m F w : cut m F w = true ↔ no_better m F w.
Proof. destruct m; score_iff. Qed.

Lemma cut_false m F w : cut m F w = false ↔ worse m w F.
Proof. destruct m; score_iff. Qed.

Lemma pick_one m col s bs bc :
  pick m [(col, s)] (bs, bc) = if better m bs s then (s, col) else (bs, bc).
Proof. done. Qed.

Ltac score_arith :=
  unfold ab_inv, ab_post, keep, bounds, worse, no_better, next_bound, better,
    score_max, score_min in *;
  intros;
  repeat match goal with x : score |- _ => destruct x; simpl in *; try tauto end;
  repeat (case_bool_decide; simpl in *; try tauto);
  try lia.

Lemma basic_loop_improves m fuel d p g vm l V bc :
  wf g → get_valid_moves g = Some vm → is_player p →
  (∀ g1, wf g1 → S (count_empty g1) = count_empty g →
     ∃ z c, minimax_basic fuel g1 (d - 1) (negb m) p = Some ((Fin z, c), g1)) →
  (∀ c, c ∈ l → c ∈ vm) →
  ∃ V' bc', Py.for_ l (basic_body m fuel d p) (V, bc, g) = Some (V', bc', g)
            ∧ no_better m V V'.
Proof.
  intros Hwf Hvm Hp Hrec Hl.
  destruct (basic_loop_trace m fuel d p g vm Hwf Hvm Hp l Hrec Hl V bc)
    as (tr & -> & _ & _).
  destruct (pick m tr (V, bc)) as [V' bc'] eqn:Hpick. exists V', bc'.
  split; [done|].
  destruct (pick_spec m tr _ _ _ _ Hpick) as [(-> & _)|[Hb%better_true _]];
    destruct m; score_arith.
Qed.

Lemma ab_inv_post m F W0 V S w : ab_inv m F W0 V S w → ab_post m F W0 V S.
Proof. destruct m; score_arith. Qed.

Lemma ab_inv_step m F W0 V S w s v :
  ab_inv m F W0 V S w →
  bounds (if m then w else F) (if m then F else w) (Fin s) (Fin v) →
  worse m (next_bound m w (keep m S s)) F →
  ab_inv m F W0 (keep m V v) (keep m S s) (next_bound m w (keep m S s)).
Proof. destruct m; score_arith. Qed.

Lemma ab_inv_cut m F W0 V S w s v V' :
  ab_inv m F W0 V S w →
  bounds (if m then w else F) (if m then F else w) (Fin s) (Fin v) →
  no_better m F (next_bound m w (keep m S s)) →
  no_better m (keep m V v) V' →
  ab_post m F W0 V' (keep m S s).
Proof. destruct m; score_arith. Qed.

Lemma pick_keep m col x bs bc :
  (pick m [(col, Fin x)] (bs, bc)).1 = keep m bs x.
Proof. rewrite pick_one. unfold keep. by destruct (better m bs (Fin x)). Qed.

Section ab_loop.
Context (m : bool) (fuel : nat) (d p : Z) (g : Connect4) (vm : list Z).
Context (F W0 : score).
Hypothesis Hwf : wf g.
Hypothesis Hvm : get_valid_moves g = Some vm.
Hypothesis Hp : is_player p.
Hypothesis Hrec : ∀ g1, wf g1 → S (count_empty g1) = count_empty g →
  ∃ v cv, minimax_basic fuel g1 (d - 1) (negb m) p = Some ((Fin v, cv), g1)
    ∧ ∀ a b, slt a b →
        ∃ s cs, minimax_ab fuel g1 (d - 1) a b (negb m) p = Some ((Fin s, cs), g1)
                ∧ bounds a b (Fin s) (Fin v).

Lemma rec_basic_total :
  ∀ g1, wf g1 → S (count_empty g1) = count_empty g →
    ∃ z c, minimax_basic fuel g1 (d - 1) (negb m) p = Some ((Fin z, c), g1).
Proof.
  intros g1 H1 H2. destruct (Hrec g1 H1 H2) as (v & cv & H & _).
  by exists v, cv.
Qed.

(** The two loops side by side. *)
Lemma ab_loop_bounds (l : list Z) :
  (∀ c, c ∈ l → c ∈ vm) →
  ∀ V bcb S bca w,
    ab_inv m F W0 V S w →
    ∃ V' bcb' S' bca' w',
      Py.for_ l (basic_body m fuel d p) (V, bcb, g) = Some (V', bcb', g)
      ∧ Py.for_break l (ab_body m fuel d F p) (S, bca, w, g)
        = Some (S', bca', w', g)
      ∧ ab_post m F W0 V' S'.
Proof.
  induction l as [|col l IH]; intros Hl V bcb S bca w Hinv.
  - exists V, bcb, S, bca, w. split; [reflexivity|]. split; [reflexivity|].
    by eapply ab_inv_post.
  - destruct (simulate_move_valid g vm col (mover m p))
      as (row & g1 & Hs & Hwf1 & Hc1 & Hu);
      [done|done|apply Hl; left|by apply is_player_mover|].
    destruct (Hrec g1 Hwf1 Hc1) as (v & cv & Hv & Hab).
    destruct (Hab (if m then w else F) (if m then F else w))
      as (s & cs & Hsab & Hb).
    { destruct Hinv as [I1 _]. clear -I1. by destruct m. }
    destruct (basic_body_eq m fuel d p g g1 row col V bcb _ _ Hs Hu Hv)
      as [Hbody _].
    destruct (ab_body_eq m fuel d F p g g1 row col S bca w _ _ Hs Hu Hsab)
      as [Hbody' _].
    rewrite for_cons, Hbody. cbn [Py.for_break]. rewrite Hbody'.
    cbn [mbind option_bind fst snd]. rewrite !pick_keep.
    assert (∀ c, c ∈ l → c ∈ vm) as Hl' by (intros; apply Hl; by right).
    destruct (pick m [(col, Fin v)] (V, bcb)) as [V1 bcb1] eqn:HV1.
    destruct (pick m [(col, Fin s)] (S, bca)) as [S1 bca1] eqn:HS1.
    assert (V1 = keep m V v) as -> by (by rewrite <- pick_keep with (col := col) (bc := bcb), HV1).
    assert (S1 = keep m S s) as HS1' by (by rewrite <- pick_keep with (col := col) (bc := bca), HS1).
    destruct (cut m F (next_bound m w (keep m S s))) eqn:Hcut.
    + (* the alpha-beta loop breaks; the basic loop goes on *)
      apply cut_true in Hcut.
      destruct (basic_loop_improves m fuel d p g vm l (keep m V v) bcb1
                  Hwf Hvm Hp rec_basic_total Hl') as (V' & bcb' & -> & Hmono).
      exists V', bcb', S1, bca1, (next_bound m w (keep m S s)).
      split; [done|]. split; [done|]. subst S1.
      by eapply ab_inv_cut.
    + (* both loops go on *)
      apply cut_false in Hcut. subst S1.
      apply IH; [done|]. by apply ab_inv_step.
Qed.
End ab_loop.

Lemma bounds_refl a b e : bounds a b (Fin e) (Fin e).
Proof. score_arith. Qed.

Lemma ab_inv_init m a b :
  slt a b →
  ab_inv m (if m then b else a) (if m then a else b) (worst m) (worst m)
         (if m then a else b).
Proof. unfold worst. destruct m; score_arith. Qed.

Lemma ab_post_bounds m a b s v :
  ab_post m (if m then b else a) (if m then a else b) (Fin v) (Fin s) →
  bounds a b (Fin s) (Fin v).
Proof. destruct m; score_arith. Qed.

(** Alpha-beta with an open window returns a score that bounds the minimax
    score, and the minimax score itself when it falls inside the window. *)
Lemma ab_bounds fuel :
  ∀ g d m p, wf g → is_player p → (count_empty g < fuel)%nat →
    ∃ v cv, minimax_basic fuel g d m p = Some ((Fin v, cv), g)
      ∧ ∀ a b, slt a b →
          ∃ s cs, minimax_ab fuel g d a b m p = Some ((Fin s, cs), g)
                  ∧ bounds a b (Fin s) (Fin v).
Proof.
  induction fuel as [|fuel IH]; intros g d m p Hwf Hp Hfuel; [lia|].
  destruct (minimax_total (S fuel) g d m p Hwf Hp Hfuel) as [(v & cv & Hv) Htot].
  exists v, cv. split; [done|]. intros a b Hab.
  destruct (Htot a b) as (s & cs & Hs). exists s, cs. split; [done|].
  rewrite minimax_basic_S in Hv. rewrite minimax_ab_S in Hs.
  case_bool_decide as Hd.
  { rewrite Hv in Hs. simplify_eq. apply bounds_refl. }
  destruct (get_game_state g) as [st|]; [|done]. simpl in Hv, Hs.
  case_bool_decide as Hst.
  { rewrite Hv in Hs. simplify_eq. apply bounds_refl. }
  destruct (get_valid_moves g) as [vm|] eqn:Hvm; [|done]. simpl in Hv, Hs.
  case_bool_decide as Hne.
  { rewrite Hv in Hs. simplify_eq. apply bounds_refl. }
  destruct (head vm) as [c0|]; [|done]. simpl in Hv, Hs.
  destruct (ab_loop_bounds m fuel d p g vm (if m then b else a) (if m then a else b)
              Hwf Hvm Hp) with (l := vm) (V := worst m) (bcb := c0) (S := worst m)
              (bca := c0) (w := if m then a else b)
    as (V' & bcb' & S' & bca' & w' & HV & HS & Hpost).
  - intros g1 Hwf1 Hc1. apply IH; [done..|lia].
  - done.
  - by apply ab_inv_init.
  - rewrite HV in Hv. rewrite HS in Hs. simpl in Hv, Hs. simplify_eq.
    by apply (ab_post_bounds m).
Qed.

(** ** The root call *)

Lemma root_step m bs s v :
  bs ≠ worst (negb m) →
  bounds (if m then bs else NegInf) (if m then PosInf else bs) (Fin s) (Fin v) →
  keep m bs v = keep m bs s
  ∧ better m bs (Fin v) = better m bs (Fin s)
  ∧ next_bound m bs (keep m bs s) = keep m bs s
  ∧ cut m (worst (negb m)) (keep m bs s) = false
  ∧ keep m bs s ≠ worst (negb m).
Proof.
  unfold worst, cut. destruct m; simpl; score_arith;
    repeat split; try done; try (f_equal; lia); try congruence.
Qed.

Section root_loop.
Context (m : bool) (fuel : nat) (d p : Z) (g : Connect4) (vm : list Z).
Hypothesis Hwf : wf g.
Hypothesis Hvm : get_valid_moves g = Some vm.
Hypothesis Hp : is_player p.
Hypothesis Hfuel : (count_empty g ≤ fuel)%nat.

(** With the window [(-inf, +inf)] the alpha-beta loop never breaks and
    updates [(best_score, best_col)] exactly as the basic loop does. *)
Lemma root_loop_agrees (l : list Z) :
  (∀ c, c ∈ l → c ∈ vm) →
  ∀ bs bc, bs ≠ worst (negb m) →
    ∃ bs' bc',
      Py.for_ l (basic_body m fuel d p) (bs, bc, g) = Some (bs', bc', g)
      ∧ Py.for_break l (ab_body m fuel d (worst (negb m)) p) (bs, bc, bs, g)
        = Some (bs', bc', bs', g).
Proof.
  induction l as [|col l IH]; intros Hl bs bc Hbs.
  - by exists bs, bc.
  - destruct (simulate_move_valid g vm col (mover m p))
      as (row & g1 & Hs & Hwf1 & Hc1 & Hu);
      [done|done|apply Hl; left|by apply is_player_mover|].
    destruct (ab_bounds fuel g1 (d - 1) (negb m) p Hwf1 Hp) as (v & cv & Hv & Hab);
      [lia|].
    destruct (Hab (if m then bs else worst (negb m))
                  (if m then worst (negb m) else bs)) as (s & cs & Hsab & Hb).
    { clear -Hbs. destruct m, bs; done. }
    destruct (basic_body_eq m fuel d p g g1 row col bs bc _ _ Hs Hu Hv)
      as [Hbody _].
    destruct (ab_body_eq m fuel d (worst (negb m)) p g g1 row col bs bc bs _ _
                Hs Hu Hsab) as [Hbody' _].
    rewrite for_cons, Hbody. cbn [Py.for_break]. rewrite Hbody'.
    cbn [mbind option_bind fst snd]. rewrite !pick_keep, !pick_one.
    destruct (root_step m bs s v Hbs) as (Hk & Hbt & Hnb & Hcut & Hne).
    { clear -Hb. by destruct m. }
    rewrite Hnb, Hcut, Hbt.
    destruct (better m bs (Fin s)) eqn:Hbetter.
    + unfold keep in *. rewrite Hbetter in *. rewrite Hbt in Hk.
      injection Hk as ->.
      apply IH; [intros; apply Hl; by right|done].
    + unfold keep in *. rewrite Hbetter in *.
      apply IH; [intros; apply Hl; by right|done].
Qed.
End root_loop.

Lemma root_call_agrees fuel g d p :
  wf g → is_player p → (count_empty g < fuel)%nat →
  ∃ r, minimax_basic fuel g d true p = Some r
       ∧ minimax_ab fuel g d NegInf PosInf true p = Some r.
Proof.
  intros Hwf Hp Hfuel. destruct fuel as [|fuel]; [lia|].
  destruct (minimax_total (S fuel) g d true p Hwf Hp Hfuel) as [(v & cv & Hv) _].
  eexists. split; [done|].
  rewrite minimax_basic_S in Hv. rewrite minimax_ab_S.
  case_bool_decide as Hd; [done|].
  destruct (get_game_state g) as [st|]; [|done]. simpl in *.
  case_bool_decide as Hst; [done|].
  destruct (get_valid_moves g) as [vm|] eqn:Hvm; [|done]. simpl in *.
  case_bool_decide as Hne; [done|].
  destruct (head vm) as [c0|]; [|done]. simpl in *.
  destruct (root_loop_agrees true fuel d p g vm Hwf Hvm Hp) with (l := vm)
    (bs := NegInf) (bc := c0) as (bs' & bc' & HV & HS); [lia|done|done|].
  simpl in HS. rewrite HV in Hv. rewrite HS. simpl in *. done.
Qed.

(** C8: for every well-shaped state, depth and player, the root call of
    [minimax_ab] with the window [(-inf, +inf)] returns the same score and
    the same best column as [minimax_basic], both terminate, and
    [get_best_move] returns the same column with and without
    [use_alpha_beta]. *)
Theorem alpha_beta_agrees_with_minimax (g : Connect4) (d p : Z) :
  wf g → is_player p →
  ∃ best_score best_col,
    minimax_basic (search_fuel g) g d true p = Some ((best_score, best_col), g)
    ∧ minimax_ab (search_fuel g) g d NegInf PosInf true p
      = Some ((best_score, best_col), g)
    ∧ get_best_move (mkMinimaxPlayer d true) g p = Some (best_col, g)
    ∧ get_best_move (mkMinimaxPlayer d false) g p = Some (best_col, g).
Proof.
  intros Hwf Hp.
  destruct (root_call_agrees (search_fuel g) g d p Hwf Hp) as (r & Hb & Ha).
  { unfold search_fuel. lia. }
  destruct (minimax_total (search_fuel g) g d true p Hwf Hp) as [(v & cv & Hv) _].
  { unfold search_fuel. lia. }
  rewrite Hv in Hb. injection Hb as <-.
  exists (Fin v), cv. unfold get_best_move. cbn [use_alpha_beta depth].
  rewrite Hv, Ha. done.
Qed.

Lemma alpha_beta_agrees_with_minimax_witness :
  ∃ best_score best_col,
    minimax_basic (search_fuel three_bottom_left) three_bottom_left 2 true 1
      = Some ((best_score, best_col), three_bottom_left)
    ∧ minimax_ab (search_fuel three_bottom_left) three_bottom_left 2 NegInf PosInf true 1
      = Some ((best_score, best_col), three_bottom_left)
    ∧ get_best_move (mkMinimaxPlayer 2 true) three_bottom_left 1
      = Some (best_col, three_bottom_left)
    ∧ get_best_move (mkMinimaxPlayer 2 false) three_bottom_left 1
      = Some (best_col, three_bottom_left).
Proof.
  apply (alpha_beta_agrees_with_minimax three_bottom_left 2 1).
  - unfold wf. split_and!; [done..|]. repeat constructor.
  - by left.
Defined.

(** ** The columns of a layer *)

Lemma first_best_elem m tr bs bc : first_best m tr bs bc → bc ∈ tr.*1.
Proof.
  intros (t1 & t2 & -> & _). rewrite fmap_app, fmap_cons.
  apply elem_of_app. right. left.
Qed.





(** ** The tree search *)

Lemma copy_game_id g : copy_game g = g.
Proof. by destruct g. Qed.

Lemma is_player_other q : is_player q → is_player (3 - q).
Proof. intros [-> | ->]; [by right|by left]. Qed.

Lemma is_player_nonzero q : is_player q → q ≠ 0.
Proof. by intros [-> | ->]. Qed.

Section mcts_lemmas.
Context `{Runtime}.

Lemma random_choice_total {A} (l : list A) tick :
  l ≠ [] → ∃ x, random_choice l tick = Some (x, S tick) ∧ x ∈ l.
Proof.
  intros Hne. unfold random_choice.
  destruct (lookup_lt_is_Some_2 l (random_draw tick `mod` length l)%nat) as [x Hx].
  { apply Nat.mod_upper_bound. by destruct l. }
  rewrite Hx. simpl. exists x. split; [done|]. by eapply list_elem_of_lookup_2.
Qed.

(** *** Rollouts terminate *)

Lemma rollout_total fuel g q tick :
  wf g → is_player q → (count_empty g < fuel)%nat →
  ∃ r tick', rollout fuel g q tick = Some (r, tick').
Proof.
  revert g q tick. induction fuel as [|fuel IH]; intros g q tick Hwf Hq Hfuel; [lia|].
  simpl. destruct (get_game_state_total g Hwf) as [st Hst]. rewrite Hst. simpl.
  rewrite (get_valid_moves_wf g Hwf). simpl.
  set (vm := filter _ _). pose proof (get_valid_moves_wf g Hwf) as Hvm.
  fold vm in Hvm.
  destruct (bool_decide (st = 0)); simpl; [|eauto].
  case_bool_decide as Hlen; simpl; [|eauto].
  destruct (random_choice_total vm tick) as (mv & -> & Hmv).
  { intros E. rewrite E in Hlen. simpl in Hlen. lia. }
  simpl.
  destruct (simulate_move_valid g vm mv q Hwf Hvm Hmv (is_player_nonzero q Hq))
    as (row & g1 & -> & Hwf1 & Hc1 & _).
  simpl. apply IH; [done|by apply is_player_other|lia].
Qed.

(** *** Backpropagation *)

Lemma on_path_le h n k : parents_ok h → on_path h n k → (k ≤ n)%nat.
Proof.
  intros Hpar. induction 1 as [|n nd p k Hn Hp _ IH]; [done|].
  specialize (Hpar n nd p Hn Hp). lia.
Qed.

Lemma on_path_static h h' n k :
  (∀ i, parent <$> h' !! i = parent <$> h !! i) →
  on_path h n k → on_path h' n k.
Proof.
  intros Heq. induction 1 as [|n nd p k Hn Hp _ IH]; [constructor|].
  pose proof (Heq n) as E. rewrite Hn in E. simpl in E.
  destruct (h' !! n) as [nd'|] eqn:Hn'; [|done].
  injection E as E. apply (on_path_up h' n nd' p k); [done|congruence|done].
Qed.

Lemma backpropagate_spec fuel :
  ∀ h n result, parents_ok h → (n < length h)%nat → (n < fuel)%nat →
    ∃ h', backpropagate fuel h n result = Some h'
      ∧ length h' = length h
      ∧ (∀ k, static <$> h' !! k = static <$> h !! k)
      ∧ (∀ k, on_path h n k → visits_at h' k = (λ v, v + 1) <$> visits_at h k)
      ∧ (∀ k, ¬ on_path h n k → visits_at h' k = visits_at h k)
      ∧ (∀ k v, visits_at h k = Some v →
           ∃ v', visits_at h' k = Some v' ∧ v ≤ v').
Proof.
  induction fuel as [|fuel IH]; intros h n result Hpar Hn Hfuel; [lia|].
  simpl. destruct (lookup_lt_is_Some_2 h n Hn) as [nd Hnd]. rewrite Hnd. simpl.
  set (nd' := set_visits_wins nd _ _).
  assert (∀ i, parent <$> <[n := nd']> h !! i = parent <$> h !! i) as Hsame.
  { intros i. destruct (decide (i = n)) as [->|Hne].
    - rewrite list_lookup_insert_eq by done. by rewrite Hnd.
    - by rewrite list_lookup_insert_ne. }
  assert (∀ i, static <$> <[n := nd']> h !! i = static <$> h !! i) as Hstat.
  { intros i. destruct (decide (i = n)) as [->|Hne].
    - rewrite list_lookup_insert_eq by done. by rewrite Hnd.
    - by rewrite list_lookup_insert_ne. }
  destruct (parent nd) as [p|] eqn:Hp.
  - pose proof (Hpar n nd p Hnd Hp) as Hlt.
    assert (parents_ok (<[n := nd']> h)) as Hpar'.
    { intros i x q Hi Hq. pose proof (Hsame i) as E. rewrite Hi in E. simpl in E.
      destruct (h !! i) as [y|] eqn:Hy; [|done]. injection E as E.
      apply (Hpar i y q Hy). congruence. }
    destruct (IH (<[n := nd']> h) p result Hpar')
      as (h' & Hb & Hlen & Hst & Hon & Hoff & Hmono).
    { rewrite length_insert. lia. }
    { lia. }
    exists h'. rewrite length_insert in Hlen. split_and!; [done|done|..].
    + intros k. by rewrite Hst, Hstat.
    + intros k Hk. destruct (decide (k = n)) as [->|Hne].
      * rewrite Hoff.
        { unfold visits_at. rewrite list_lookup_insert_eq by done. by rewrite Hnd. }
        intros Hbad. apply (on_path_le _ _ _ Hpar') in Hbad. lia.
      * rewrite Hon.
        { unfold visits_at. by rewrite list_lookup_insert_ne. }
        inversion Hk; simplify_eq.
        by apply (on_path_static h).
    + intros k Hk. rewrite Hoff.
      * unfold visits_at. rewrite list_lookup_insert_ne; [done|].
        intros ->. apply Hk. constructor.
      * intros Hbad. apply Hk. eapply on_path_up; [done..|].
        apply (on_path_static (<[n:=nd']> h)); [|done].
        intros i. by rewrite Hsame.
    + intros k v Hk.
      assert (∃ v1, visits_at (<[n := nd']> h) k = Some v1 ∧ v ≤ v1) as (v1 & Hv1 & ?).
      { unfold visits_at in *. destruct (decide (k = n)) as [->|Hne].
        - rewrite list_lookup_insert_eq by done. rewrite Hnd in Hk.
          simpl in *. injection Hk as <-. eexists. split; [done|]. lia.
        - rewrite list_lookup_insert_ne by done. eexists. split; [done|]. lia. }
      destruct (Hmono k v1 Hv1) as (v' & Hv' & ?). exists v'. split; [done|lia].
  - exists (<[n := nd']> h). rewrite length_insert. split_and!; [done..| | |].
    + intros k Hk. inversion Hk; simplify_eq.
      unfold visits_at. rewrite list_lookup_insert_eq by done. by rewrite Hnd.
    + intros k Hk. unfold visits_at. rewrite list_lookup_insert_ne; [done|].
      intros ->. apply Hk. constructor.
    + intros k v Hk. unfold visits_at in *. destruct (decide (k = n)) as [->|Hne].
      * rewrite list_lookup_insert_eq by done. rewrite Hnd in Hk.
        simpl in *. injection Hk as <-. eexists. split; [done|]. lia.
      * rewrite list_lookup_insert_ne by done. eexists. split; [done|]. lia.
Qed.
(** *** Selection *)

Lemma children_lookup h i nd c :
  node_ok h i nd → c ∈ children nd →
  (i < c)%nat ∧ ∃ cn mv, h !! c = Some cn ∧ parent cn = Some i
                         ∧ move cn = Some mv.
Proof.
  intros (_ & _ & _ & _ & vm & cm & _ & _ & Hf) Hc.
  apply list_elem_of_lookup in Hc as [j Hj].
  destruct (Forall2_lookup_l _ _ _ _ _ Hf Hj) as (mv & _ & Hlt & cn & ? & ? & ?).
  split; [done|]. by exists cn, mv.
Qed.

Lemma ucb1_score_total h n nd c :
  no_nan → tree_ok None h → h !! n = Some nd → c ∈ children nd →
  ∃ s, ucb1_score h c = Some s ∧ float_eq s s = true.
Proof.
  intros [Hinf Hucb] Hok Hn Hc.
  destruct (Hok n nd Hn) as [Hnode Hvis].
  destruct (children_lookup h n nd c Hnode Hc) as (_ & cn & mv & Hcn & Hpar & _).
  destruct (Hok c cn Hcn) as [(_ & _ & _ & Hv0 & _) _].
  unfold ucb1_score. rewrite Hcn. simpl.
  case_bool_decide as Hz; [eauto|].
  rewrite Hpar. simpl. rewrite Hn. simpl.
  assert (1 ≤ visits nd) as Hv1.
  { apply Hvis; [|done]. intros E. rewrite E in Hc. inversion Hc. }
  rewrite bool_decide_eq_false_2 by lia.
  rewrite bool_decide_eq_false_2 by lia.
  eexists. split; [done|]. apply Hucb; lia.
Qed.

Lemma float_max_elem x l : float_max x l ∈ x :: l.
Proof.
  unfold float_max. revert x. induction l as [|y l IH]; intros x; simpl; [left|].
  destruct (float_gt y x).
  - right. apply IH.
  - specialize (IH x). apply elem_of_cons in IH as [->|IH]; [left|].
    right. by right.
Qed.

Lemma select_best_child_ok h n nd tick :
  no_nan → tree_ok None h → h !! n = Some nd →
  ∃ r tick', select_best_child h n tick = Some (r, tick')
             ∧ ∀ c, r = Some c → c ∈ children nd.
Proof.
  intros Hnan Hok Hn. unfold select_best_child. rewrite Hn. simpl.
  case_bool_decide as Hch.
  { eexists _, _. split; [done|]. intros c [=]. }
  assert (Forall (λ c, ∃ s, ucb1_score h c = Some s ∧ float_eq s s = true)
                 (children nd)) as Hall.
  { apply Forall_forall. intros c Hc. by eapply ucb1_score_total. }
  assert (∃ scores, mapM (ucb1_score h) (children nd) = Some scores
           ∧ Forall2 (λ c s, ucb1_score h c = Some s ∧ float_eq s s = true)
                     (children nd) scores) as (scores & Hscores & Hf2).
  { clear -Hall. induction Hall as [|c cs (s & Hs & Hr) _ (ss & Hss & Hf)].
    - exists []. split; [done|constructor].
    - exists (s :: ss). split; [|by constructor].
      apply mapM_Some. constructor; [done|]. by apply mapM_Some. }
  rewrite Hscores. simpl.
  destruct scores as [|s0 ss].
  { apply Forall2_length in Hf2. destruct (children nd); done. }
  simpl.
  assert (mapM (λ c, s ← ucb1_score h c; Some (c, s)) (children nd)
          = Some (zip (children nd) (s0 :: ss))) as ->.
  { apply mapM_Some. clear -Hf2. induction Hf2 as [|c s cs ss' [Hs _] _ IH]; simpl.
    - constructor.
    - constructor; [|done]. by rewrite Hs. }
  simpl.
  set (best := float_max s0 ss).
  set (best_children := (filter _ _).*1).
  assert (best_children ≠ []) as Hne.
  { pose proof (float_max_elem s0 ss) as Hin. fold best in Hin.
    apply list_elem_of_lookup in Hin as [j Hj].
    destruct (Forall2_lookup_r _ _ _ _ _ Hf2 Hj) as (c & Hc & _ & Hrefl).
    assert ((c, best) ∈ zip (children nd) (s0 :: ss)) as Hz.
    { apply list_elem_of_lookup. exists j. apply lookup_zip_Some. done. }
    intros E. subst best_children. apply fmap_nil_inv in E.
    eapply (filter_nil_not_elem_of _ _ (c, best)) in E; [done|done]. }
  destruct (random_choice_total best_children tick Hne) as (r & -> & Hr).
  simpl. eexists _, _. split; [done|]. intros c [= <-].
  subst best_children. apply list_elem_of_fmap in Hr as ([c' s'] & -> & Hr).
  apply list_elem_of_filter in Hr as [_ Hr].
  apply elem_of_zip_l in Hr. done.
Qed.

Lemma is_terminal_total nd : wf (game_state nd) → is_Some (is_terminal nd).
Proof.
  intros Hwf. unfold is_terminal.
  destruct (get_game_state_total _ Hwf) as [st ->]. simpl. eauto.
Qed.

Lemma select_ok fuel :
  ∀ h n tick, no_nan → tree_ok None h → (n < length h)%nat →
    (length h ≤ fuel + n)%nat →
    ∃ n' tick', _select fuel h n tick = Some (n', tick') ∧ (n' < length h)%nat.
Proof.
  induction fuel as [|fuel IH]; intros h n tick Hnan Hok Hn Hfuel; [lia|].
  simpl. destruct (lookup_lt_is_Some_2 h n Hn) as [nd Hnd]. rewrite Hnd. simpl.
  destruct (Hok n nd Hnd) as [Hnode _].
  destruct (is_terminal_total nd) as [term ->]; [apply Hnode|]. simpl.
  destruct (negb term && is_fully_expanded nd); [|eauto].
  destruct (select_best_child_ok h n nd tick Hnan Hok Hnd) as (r & tick' & -> & Hr).
  simpl. destruct r as [c|]; [|eauto].
  destruct (children_lookup h n nd c Hnode (Hr c eq_refl)) as (Hlt & cn & _ & Hcn & _).
  apply IH; [done..|by eapply lookup_lt_Some|lia].
Qed.
(** *** Expansion *)

Lemma node_ok_mono h h' i nd :
  node_ok h i nd →
  (∀ c cn, h !! c = Some cn →
     ∃ cn', h' !! c = Some cn' ∧ parent cn' = parent cn ∧ move cn' = move cn) →
  node_ok h' i nd.
Proof.
  intros (Hwf & Hpar & Hpl & Hv & vm & cm & Hvm & Hcm & Hf) Hext.
  split_and!; [done..|]. exists vm, cm. split_and!; [done..|].
  eapply Forall2_impl; [done|]. simpl.
  intros c mv (Hlt & cn & Hcn & Hp & Hm). split; [done|].
  destruct (Hext c cn Hcn) as (cn' & Hcn' & Hp' & Hm').
  exists cn'. split_and!; congruence.
Qed.

Lemma get_next_player_ok nd :
  (∃ q, player_who_moved nd = Some q ∧ is_player q) →
  is_player (get_next_player nd).
Proof.
  intros (q & Hq & Hp). unfold get_next_player. rewrite Hq.
  by apply is_player_other.
Qed.

Lemma expand_node_ok h n nd :
  tree_ok None h → h !! n = Some nd →
  if is_fully_expanded nd then expand_node h n = Some (None, h)
  else
    ∃ h' child,
      expand_node h n = Some (Some (length h), h')
      ∧ length h' = S (length h)
      ∧ tree_ok (Some n) h'
      ∧ h' !! length h = Some child
      ∧ parent child = Some n
      ∧ (∀ k x, k ≠ n → h !! k = Some x → h' !! k = Some x)
      ∧ ∃ nd', h' !! n = Some nd'
               ∧ game_state nd' = game_state nd ∧ visits nd' = visits nd
               ∧ parent nd' = parent nd ∧ move nd' = move nd.
Proof.
  intros Hok Hn. unfold expand_node. rewrite Hn. simpl.
  destruct (is_fully_expanded nd) eqn:Hfull; [done|]. simpl.
  destruct (Hok n nd Hn) as [Hnode Hvis].
  pose proof Hnode as (Hwf & Hpar & Hpl & Hv & vm & cm & Hvm & Hcm & Hf).
  destruct (last (untried_moves nd)) as [mv|] eqn:Hlast.
  2:{ apply last_None in Hlast. unfold is_fully_expanded in Hfull.
      rewrite Hlast in Hfull. done. }
  simpl. apply last_Some in Hlast as [us Hus].
  rewrite Hus, removelast_last, copy_game_id.
  pose proof (get_next_player_ok nd Hpl) as Hq.
  destruct (simulate_move_valid (game_state nd) vm mv (get_next_player nd) Hwf Hvm)
    as (row & g1 & -> & Hwf1 & _ & _).
  { rewrite <- Hcm, Hus. apply elem_of_app. left. apply elem_of_app. right. left. }
  { by apply is_player_nonzero. }
  simpl. unfold Node_init. rewrite copy_game_id.
  rewrite (get_valid_moves_wf g1 Hwf1). simpl.
  pose proof (get_valid_moves_wf g1 Hwf1) as Hvm1.
  set (vm1 := filter _ _) in *.
  set (child := {| game_state := g1; move := Some mv; parent := Some n;
                   player_who_moved := Some (get_next_player nd); visits := 0;
                   wins2 := 0; children := []; untried_moves := vm1 |}).
  pose proof (lookup_lt_Some _ _ _ Hn) as Hnlt.
  rewrite lookup_app_l by done. rewrite Hn. simpl.
  set (nd' := set_children_untried nd (children nd ++ [length h]) us).
  set (h' := <[n := nd']> (h ++ [child])).
  assert (h' !! length h = Some child) as Hchild.
  { unfold h'. rewrite list_lookup_insert_ne by lia.
    by rewrite list_lookup_middle. }
  assert (h' !! n = Some nd') as Hn'.
  { unfold h'. apply list_lookup_insert_eq. rewrite length_app. lia. }
  assert (∀ k x, k ≠ n → h !! k = Some x → h' !! k = Some x) as Hold.
  { intros k x Hk Hx. unfold h'. rewrite list_lookup_insert_ne by done.
    rewrite lookup_app_l; [done|]. by eapply lookup_lt_Some. }
  assert (∀ c cn, h !! c = Some cn →
            ∃ cn', h' !! c = Some cn' ∧ parent cn' = parent cn
                   ∧ move cn' = move cn) as Hext.
  { intros c cn Hc. destruct (decide (c = n)) as [->|Hne].
    - exists nd'. rewrite Hn in Hc. injection Hc as <-. done.
    - exists cn. split; [by apply Hold|done]. }
  exists h', child. split_and!; [done| | |done|done|done|].
  - unfold h'. rewrite length_insert, length_app. simpl. lia.
  - intros i x Hi. destruct (decide (i = n)) as [->|Hne].
    + rewrite Hn' in Hi. injection Hi as <-. split; [|done].
      split_and!; [done..|]. exists vm, (cm ++ [mv]). split_and!; [done| |].
      * simpl. rewrite reverse_snoc. rewrite <- Hcm, Hus.
        by rewrite <- app_assoc.
      * simpl. apply Forall2_app.
        -- eapply Forall2_impl; [done|]. simpl.
           intros c mv' (Hlt & cn & Hcn & Hp & Hm). split; [done|].
           destruct (Hext c cn Hcn) as (cn' & Hcn' & Hp' & Hm').
           exists cn'. split_and!; congruence.
        -- constructor; [|constructor]. split; [done|]. by exists child.
    + destruct (decide (i = length h)) as [->|Hne'].
      * rewrite Hchild in Hi. injection Hi as <-. split; [|done].
        split_and!; [done|simpl; lia|by exists (get_next_player nd)|done|].
        exists vm1, []. split_and!; [done|simpl; by rewrite app_nil_r|constructor].
      * assert (h !! i = Some x) as Hi'.
        { unfold h' in Hi. rewrite list_lookup_insert_ne in Hi by done.
          apply lookup_app_Some in Hi as [Hi|[Hge Hi]]; [done|].
          apply list_lookup_singleton_Some in Hi as [Hi _]. lia. }
        destruct (Hok i x Hi') as [Hx Hxv]. split.
        -- by eapply node_ok_mono.
        -- intros Hc _. by apply Hxv.
  - exists nd'. done.
Qed.
(** *** One iteration *)

Lemma tree_parents_ok pending h : tree_ok pending h → parents_ok h.
Proof.
  intros Hok i nd p Hi Hp. destruct (Hok i nd Hi) as [(_ & Hpar & _) _].
  by rewrite Hp in Hpar.
Qed.

Lemma on_path_root pending h x :
  tree_ok pending h → (x < length h)%nat → on_path h x 0.
Proof.
  intros Hok. induction (lt_wf x) as [x _ IH]. intros Hx.
  destruct (lookup_lt_is_Some_2 h x Hx) as [nd Hnd].
  destruct (Hok x nd Hnd) as [(_ & Hpar & _) _].
  destruct (parent nd) as [p|] eqn:Hp.
  - apply (on_path_up h x nd p 0); [done..|]. apply IH; lia.
  - subst x. constructor.
Qed.

Lemma static_fields nd nd' :
  static nd' = static nd →
  game_state nd' = game_state nd ∧ move nd' = move nd ∧ parent nd' = parent nd
  ∧ player_who_moved nd' = player_who_moved nd
  ∧ children nd' = children nd ∧ untried_moves nd' = untried_moves nd.
Proof. destruct nd, nd'. unfold static. simpl. intros [=]. by subst. Qed.

Lemma tree_ok_backprop pending h h' x :
  tree_ok pending h →
  (∀ k, static <$> h' !! k = static <$> h !! k) →
  (∀ k, on_path h x k → visits_at h' k = (λ v, v + 1) <$> visits_at h k) →
  (∀ k v, visits_at h k = Some v → ∃ v', visits_at h' k = Some v' ∧ v ≤ v') →
  (∀ p, pending = Some p → on_path h x p) →
  tree_ok None h'.
Proof.
  intros Hok Hst Hon Hmono Hpend.
  assert (∀ c cn, h !! c = Some cn →
            ∃ cn', h' !! c = Some cn' ∧ parent cn' = parent cn
                   ∧ move cn' = move cn) as Hext.
  { intros c cn Hc. pose proof (Hst c) as E. rewrite Hc in E.
    destruct (h' !! c) as [cn'|]; [|done]. simpl in E. apply (inj Some) in E.
    apply static_fields in E as (_ & Em & Ep & _). by exists cn'. }
  intros i nd' Hi. pose proof (Hst i) as E. rewrite Hi in E.
  destruct (h !! i) as [nd|] eqn:Hnd; [|done]. simpl in E. apply (inj Some) in E.
  apply static_fields in E as (Eg & Em & Ep & Epl & Ec & Eu).
  destruct (Hok i nd Hnd) as [Hnode Hvis].
  destruct (Hmono i (visits nd)) as (v' & Hv' & Hle).
  { unfold visits_at. by rewrite Hnd. }
  unfold visits_at in Hv'. rewrite Hi in Hv'. simpl in Hv'. injection Hv' as <-.
  split.
  - apply (node_ok_mono h h' i nd') in Hext; [done|].
    destruct Hnode as (Hwf & Hpar & Hpl & Hv & vm & cm & Hvm & Hcm & Hf).
    split_and!; [congruence|by rewrite Ep|by rewrite Epl|lia|].
    exists vm, cm. split_and!; [congruence|congruence|by rewrite Ec].
  - intros Hc _. rewrite Ec in Hc.
    destruct (decide (pending = Some i)) as [Hp|Hp].
    + pose proof (Hon i (Hpend i Hp)) as Hplus. unfold visits_at in Hplus.
      rewrite Hi, Hnd in Hplus. simpl in Hplus. injection Hplus as ->.
      destruct Hnode as (_ & _ & _ & Hv & _). lia.
    + specialize (Hvis Hc Hp). lia.
Qed.

Lemma simulate_total h n nd tick :
  h !! n = Some nd → wf (game_state nd) →
  (∃ q, player_who_moved nd = Some q ∧ is_player q) →
  ∃ r tick', simulate h n tick = Some (r, tick').
Proof.
  intros Hn Hwf Hpl. unfold simulate. rewrite Hn. cbn [mbind option_bind].
  rewrite copy_game_id.
  apply rollout_total; [done|by apply get_next_player_ok|lia].
Qed.

(** An iteration succeeds, keeps the shape of the tree and the state of
    the root, and adds one visit to the root. *)
Lemma iteration_ok h tick root :
  no_nan → tree_ok None h → h !! 0%nat = Some root →
  ∃ h' tick' root',
    iteration 0 (h, tick) = Some (h', tick')
    ∧ tree_ok None h'
    ∧ h' !! 0%nat = Some root'
    ∧ game_state root' = game_state root
    ∧ visits root' = visits root + 1.
Proof.
  intros Hnan Hok Hroot. unfold iteration.
  pose proof (lookup_lt_Some _ _ _ Hroot) as Hlen.
  destruct (select_ok (length h) h 0 tick Hnan Hok Hlen) as (n & tick1 & -> & Hn);
    [lia|].
  simpl. destruct (lookup_lt_is_Some_2 h n Hn) as [nd Hnd]. rewrite Hnd. simpl.
  destruct (Hok n nd Hnd) as [Hnode _].
  destruct (is_terminal_total nd) as [term ->]; [apply Hnode|]. simpl.
  pose proof (expand_node_ok h n nd Hok Hnd) as Hexp.
  assert (∃ pending h1 x root1,
    (if negb term
     then '(expanded_node, h) ← expand_node h n;
          match expanded_node with
          | Some e => Some (e, h)
          | None => Some (n, h)
          end
     else Some (n, h)) = Some (x, h1)
    ∧ tree_ok pending h1 ∧ (x < length h1)%nat
    ∧ (∀ p, pending = Some p → on_path h1 x p)
    ∧ h1 !! 0%nat = Some root1
    ∧ game_state root1 = game_state root ∧ visits root1 = visits root)
    as (pending & h1 & x & root1 & -> & Hok1 & Hx & Hpend & Hroot1 & Hg1 & Hv1).
  { destruct (negb term); [|by exists None, h, n, root].
    destruct (is_fully_expanded nd).
    - rewrite Hexp. simpl. by exists None, h, n, root.
    - destruct Hexp as (h' & child & -> & Hlen' & Hok' & Hchild & Hpar & Hold & Hnd').
      simpl. destruct (decide (n = 0%nat)) as [->|Hne].
      + destruct Hnd' as (nd' & Hn' & Hg & Hv & _).
        rewrite Hnd in Hroot. injection Hroot as ->.
        exists (Some 0%nat), h', (length h), nd'.
        split_and!; [done|done|lia| |done..].
        intros p [= <-]. apply (on_path_up h' _ child 0); [done..|constructor].
      + exists (Some n), h', (length h), root.
        split_and!; [done|done|lia| |by apply Hold|done..].
        intros p [= <-]. apply (on_path_up h' _ child n); [done..|constructor]. }
  simpl. destruct (lookup_lt_is_Some_2 h1 x Hx) as [xd Hxd].
  destruct (Hok1 x xd Hxd) as [(Hwfx & _ & Hplx & _) _].
  destruct (simulate_total h1 x xd tick1 Hxd Hwfx Hplx) as (r & tick2 & ->).
  simpl.
  destruct (backpropagate_spec (length h1) h1 x r (tree_parents_ok _ _ Hok1) Hx Hx)
    as (h2 & -> & Hlen2 & Hst & Hon & _ & Hmono).
  simpl.
  pose proof (Hst 0%nat) as E. rewrite Hroot1 in E.
  destruct (h2 !! 0%nat) as [root2|] eqn:Hroot2; [|done].
  simpl in E. apply (inj Some) in E. apply static_fields in E as (Eg & _).
  exists h2, tick2, root2. split_and!; [done| |done|congruence|].
  - by eapply tree_ok_backprop.
  - pose proof (Hon 0%nat (on_path_root _ _ _ Hok1 Hx)) as Hplus.
    unfold visits_at in Hplus. rewrite Hroot1, Hroot2 in Hplus. simpl in Hplus.
    injection Hplus as ->. lia.
Qed.
(** *** The simulation loop *)

Lemma iterations_ok (l : list Z) :
  ∀ h tick root,
    no_nan → tree_ok None h → h !! 0%nat = Some root →
    ∃ h' tick' root',
      Py.for_ l (λ s _, iteration 0 s) (h, tick) = Some (h', tick')
      ∧ tree_ok None h'
      ∧ h' !! 0%nat = Some root'
      ∧ game_state root' = game_state root
      ∧ visits root' = visits root + Z.of_nat (length l).
Proof.
  induction l as [|x l IH]; intros h tick root Hnan Hok Hroot.
  - exists h, tick, root. simpl. split_and!; [done..|lia].
  - destruct (iteration_ok h tick root Hnan Hok Hroot)
      as (h1 & tick1 & root1 & Hit & Hok1 & Hroot1 & Hg1 & Hv1).
    destruct (IH h1 tick1 root1 Hnan Hok1 Hroot1)
      as (h2 & tick2 & root2 & Hfor & Hok2 & Hroot2 & Hg2 & Hv2).
    exists h2, tick2, root2. rewrite for_cons, Hit. simpl.
    split_and!; [done..|congruence|]. rewrite Hv2, Hv1. simpl length. lia.
Qed.

Lemma run_simulations_ok self game player :
  no_nan → wf game → is_player player →
  ∃ h tick root,
    run_simulations self game player = Some (h, tick)
    ∧ tree_ok None h
    ∧ h !! 0%nat = Some root
    ∧ game_state root = game
    ∧ parent root = None
    ∧ visits root = Z.max 0 (simulations self).
Proof.
  intros Hnan Hwf Hp. unfold run_simulations, Node_init.
  rewrite copy_game_id, (get_valid_moves_wf game Hwf). simpl.
  set (root0 := {| game_state := game; move := None; parent := None;
                   player_who_moved := Some (3 - player); visits := 0;
                   wins2 := 0; children := [];
                   untried_moves := filter _ _ |}).
  destruct (iterations_ok (Py.range 0 (simulations self)) [root0] 0%nat root0)
    as (h & tick & root & Hfor & Hok & Hroot & Hg & Hv); [done| |done|].
  { intros i nd Hi. apply list_lookup_singleton_Some in Hi as [-> <-].
    split; [|done]. split_and!; [done|done| |done|].
    - exists (3 - player). split; [done|by apply is_player_other].
    - eexists _, []. split_and!; [by apply get_valid_moves_wf| |constructor].
      simpl. by rewrite app_nil_r. }
  exists h, tick, root. split_and!; [done..| |].
  - destruct (Hok 0%nat root Hroot) as [(_ & Hpar & _) _].
    destruct (parent root); [lia|done].
  - rewrite Hv. pose proof (length_range 0 (simulations self)). simpl. lia.
Qed.

(** *** The final choice *)

Lemma most_visited_loop h (pre cs : list nat) best bn :
  first_max h pre best → h !! best = Some bn →
  (∀ c, c ∈ cs → is_Some (h !! c)) →
  ∃ r, Py.for_ cs (λ '(best, bv) c,
         v ← visits <$> h !! c;
         Some (if bool_decide (bv < v) then (c, v) else (best, bv)))
       (best, visits bn) = Some r
     ∧ first_max h (pre ++ cs) r.1.
Proof.
  revert pre best bn. induction cs as [|c cs IH]; intros pre best bn Hfm Hbn Hcs.
  - exists (best, visits bn). simpl. by rewrite app_nil_r.
  - destruct (Hcs c) as [cn Hcn]; [left|].
    rewrite for_cons. rewrite Hcn. simpl.
    replace (pre ++ c :: cs) with ((pre ++ [c]) ++ cs) by (by rewrite <- app_assoc).
    destruct Hfm as (j & bn' & Hj & Hbn' & Hmax).
    rewrite Hbn in Hbn'. injection Hbn' as <-.
    pose proof (lookup_lt_Some _ _ _ Hj) as Hjlt.
    case_bool_decide as Hlt.
    + apply (IH (pre ++ [c]) c cn); [|done|intros; apply Hcs; by right].
      exists (length pre), cn. split_and!; [by apply list_lookup_middle|done|].
      intros i c' cn' Hi Hc'. apply lookup_app_Some in Hi as [Hi|[Hge Hi]].
      * destruct (Hmax i c' cn' Hi Hc') as [Hle _]. lia.
      * apply list_lookup_singleton_Some in Hi as [Hi <-].
        rewrite Hcn in Hc'. injection Hc' as <-. lia.
    + apply (IH (pre ++ [c]) best bn); [|done|intros; apply Hcs; by right].
      exists j, bn. split_and!; [by apply lookup_app_l_Some|done|].
      intros i c' cn' Hi Hc'. apply lookup_app_Some in Hi as [Hi|[Hge Hi]].
      * by apply (Hmax i c' cn').
      * apply list_lookup_singleton_Some in Hi as [Hi <-].
        rewrite Hcn in Hc'. injection Hc' as <-. lia.
Qed.

Lemma most_visited_spec h c0 cs :
  (∀ c, c ∈ c0 :: cs → is_Some (h !! c)) →
  ∃ best, most_visited h c0 cs = Some best ∧ first_max h (c0 :: cs) best.
Proof.
  intros Hcs. unfold most_visited.
  destruct (Hcs c0) as [cn Hcn]; [left|]. rewrite Hcn. simpl.
  destruct (most_visited_loop h [c0] cs c0 cn) as (r & -> & Hr).
  - exists 0%nat, cn. split_and!; [done..|].
    intros i c' cn' Hi Hc'. apply list_lookup_singleton_Some in Hi as [-> <-].
    rewrite Hcn in Hc'. injection Hc' as <-. lia.
  - done.
  - intros. apply Hcs. by right.
  - simpl. by exists r.1.
Qed.
Lemma children_descending (us cm : list Z) i j a b :
  ascending (us ++ reverse cm) →
  cm !! i = Some a → cm !! j = Some b → (i < j)%nat → b < a.
Proof.
  intros Hasc Hi Hj Hlt.
  pose proof (lookup_lt_Some _ _ _ Hi) as Hil.
  pose proof (lookup_lt_Some _ _ _ Hj) as Hjl.
  apply (Hasc (length us + (length cm - S j))%nat (length us + (length cm - S i))%nat).
  - rewrite lookup_app_r by lia. rewrite reverse_lookup by lia.
    rewrite <- Hj. f_equal. lia.
  - rewrite lookup_app_r by lia. rewrite reverse_lookup by lia.
    rewrite <- Hi. f_equal. lia.
  - lia.
Qed.

(** The tree after the simulations and the choice [get_move] makes in
    it. *)
Lemma get_move_spec self game player :
  no_nan → wf game → is_player player →
  ∃ h tick root vm,
    run_simulations self game player = Some (h, tick)
    ∧ h !! 0%nat = Some root
    ∧ visits root = Z.max 0 (simulations self)
    ∧ get_valid_moves game = Some vm
    ∧ (vm ≠ [] → ∃ col, get_move self game player = Some (Some col) ∧ col ∈ vm)
    ∧ (children root ≠ [] →
         ∃ best bn col,
           get_move self game player = Some (Some col)
           ∧ first_max h (children root) best
           ∧ h !! best = Some bn ∧ move bn = Some col
           ∧ ∀ c cn col', c ∈ children root → h !! c = Some cn →
               move cn = Some col' → visits cn = visits bn → col' ≤ col).
Proof.
  intros Hnan Hwf Hp.
  destruct (run_simulations_ok self game player Hnan Hwf Hp)
    as (h & tick & root & Hrun & Hok & Hroot & Hg & _ & Hv).
  destruct (Hok 0%nat root Hroot) as [Hnode _].
  pose proof Hnode as (_ & _ & _ & _ & vm & cm & Hvm & Hcm & Hf).
  rewrite Hg in Hvm.
  exists h, tick, root, vm. split_and!; [done..| |].
  - (* the returned column is legal *)
    intros Hne. unfold get_move. rewrite Hrun. simpl. rewrite Hroot. simpl.
    destruct (children root) as [|c0 cs] eqn:Hch.
    + rewrite Hg, Hvm. simpl. rewrite bool_decide_eq_true_2 by done.
      destruct (random_choice_total vm tick Hne) as (c & -> & Hc). simpl. eauto.
    + destruct (most_visited_spec h c0 cs) as (best & -> & j & bn & Hj & Hbn & _).
      { intros c Hc. rewrite <- Hch in Hc.
        destruct (children_lookup h 0 root c Hnode Hc) as (_ & cn & _ & -> & _).
        eauto. }
      simpl. rewrite Hbn. simpl.
      destruct (Forall2_lookup_l _ _ _ _ _ Hf Hj) as (mv & Hmv & _ & cn & Hcn & _ & Hm).
      rewrite Hbn in Hcn. injection Hcn as <-. rewrite Hm. exists mv.
      split; [done|]. rewrite <- Hcm. apply elem_of_app. right.
      apply elem_of_reverse. by eapply list_elem_of_lookup_2.
  - (* the most visited child, the first expanded among the tied ones *)
    intros Hne. unfold get_move. rewrite Hrun. simpl. rewrite Hroot. simpl.
    destruct (children root) as [|c0 cs] eqn:Hch; [done|].
    destruct (most_visited_spec h c0 cs) as (best & -> & Hfm).
    { intros c Hc. rewrite <- Hch in Hc.
      destruct (children_lookup h 0 root c Hnode Hc) as (_ & cn & _ & -> & _).
      eauto. }
    pose proof Hfm as (j & bn & Hj & Hbn & Hmax).
    simpl. rewrite Hbn. simpl.
    destruct (Forall2_lookup_l _ _ _ _ _ Hf Hj) as (mv & Hmv & _ & cn & Hcn & _ & Hm).
    rewrite Hbn in Hcn. injection Hcn as <-. rewrite Hm.
    exists best, bn, mv. split_and!; [done..|].
    intros c cn col' Hc Hcn Hcol Hvis.
    apply list_elem_of_lookup in Hc as [i Hi].
    destruct (Forall2_lookup_l _ _ _ _ _ Hf Hi) as (mv' & Hmv' & _ & cn' & Hcn' & _ & Hm').
    rewrite Hcn in Hcn'. injection Hcn' as <-.
    rewrite Hcol in Hm'. injection Hm' as <-.
    destruct (Hmax i c cn Hi Hcn) as [_ Hstrict].
    destruct (decide (i = j)) as [->|Hij]; [rewrite Hmv in Hmv'; by simplify_eq|].
    assert (j < i)%nat as Hji by (destruct (decide (i < j)%nat); [specialize (Hstrict l)|]; lia).
    assert (ascending (untried_moves root ++ reverse cm)) as Hasc.
    { rewrite Hcm. by eapply valid_moves_ascending. }
    pose proof (children_descending _ _ j i mv col' Hasc Hmv Hmv' Hji). lia.
Qed.
End mcts_lemmas.

(** ** The claims on the engines' entry points *)

Lemma reaches_a_root h n :
  parents_ok h → (n < length h)%nat →
  ∃ top td, on_path h n top ∧ h !! top = Some td ∧ parent td = None.
Proof.
  intros Hpar. induction (lt_wf n) as [n _ IH]. intros Hn.
  destruct (lookup_lt_is_Some_2 h n Hn) as [nd Hnd].
  destruct (parent nd) as [p|] eqn:Hp.
  - pose proof (Hpar n nd p Hnd Hp) as Hlt.
    destruct (IH p Hlt) as (top & td & Hon & Htd & Hnone); [lia|].
    exists top, td. split; [|done]. by apply (on_path_up h n nd p top).
  - exists n, nd. split; [constructor|done].
Qed.

Lemma test_runtime_no_nan : @no_nan test_runtime.
Proof. split; [reflexivity|]. intros w v pv _ _. apply Z.eqb_refl. Qed.

Lemma wf_new_game : wf (new_game 6 7).
Proof. unfold wf. split_and!; [done..|]. repeat constructor. Qed.

(** C6: a call of [backpropagate] on a node of a tree adds exactly 1 to the
    visit counter of that node and of each of its ancestors, up to and
    including the root of the tree, and changes no other counter; after
    [get_move] has run its simulations the visit counter of the root is the
    number of iterations. *)
Theorem backpropagate_counts_visits `{Runtime} (h : list Node) (n : nat)
    (result : Z) (self : MCTSPlayer) (game : Connect4) (player : Z) :
  no_nan → parents_ok h → (n < length h)%nat → wf game → is_player player →
  (∃ h', backpropagate (length h) h n result = Some h'
     ∧ (∀ k, on_path h n k → visits_at h' k = (λ v, v + 1) <$> visits_at h k)
     ∧ (∀ k, ¬ on_path h n k → visits_at h' k = visits_at h k)
     ∧ ∃ top td, on_path h n top ∧ h !! top = Some td ∧ parent td = None)
  ∧ (∃ h' tick root,
       run_simulations self game player = Some (h', tick)
       ∧ h' !! 0%nat = Some root ∧ parent root = None
       ∧ visits root = Z.max 0 (simulations self)).
Proof.
  intros Hnan Hpar Hn Hwf Hp. split.
  - destruct (backpropagate_spec (length h) h n result Hpar Hn Hn)
      as (h' & Hb & _ & _ & Hon & Hoff & _).
    exists h'. split_and!; [done..|]. by apply reaches_a_root.
  - destruct (run_simulations_ok self game player Hnan Hwf Hp)
      as (h' & tick & root & Hrun & _ & Hroot & _ & Hpar' & Hv).
    by exists h', tick, root.
Qed.

Lemma backpropagate_counts_visits_witness :
  (∃ h', backpropagate (length chain_of_three) chain_of_three 2 1 = Some h'
     ∧ (∀ k, on_path chain_of_three 2 k →
          visits_at h' k = (λ v, v + 1) <$> visits_at chain_of_three k)
     ∧ (∀ k, ¬ on_path chain_of_three 2 k → visits_at h' k = visits_at chain_of_three k)
     ∧ ∃ top td, on_path chain_of_three 2 top ∧ chain_of_three !! top = Some td
                 ∧ parent td = None)
  ∧ (∃ h' tick root,
       @run_simulations test_runtime (mkMCTSPlayer 50) (new_game 6 7) 1 = Some (h', tick)
       ∧ h' !! 0%nat = Some root ∧ parent root = None
       ∧ visits root = Z.max 0 (simulations (mkMCTSPlayer 50))).
Proof.
  apply (@backpropagate_counts_visits test_runtime chain_of_three 2 1
           (mkMCTSPlayer 50) (new_game 6 7) 1).
  - exact test_runtime_no_nan.
  - unfold chain_of_three.
    intros [|[|[|i]]] nd p Hi Hp; simpl in Hi; simplify_eq; simpl in Hp;
      simplify_eq; lia.
  - simpl. lia.
  - exact wf_new_game.
  - by left.
Defined.

(** C3 as stated fails: after two simulations on the empty board the root
    has the children for the columns 6 and 5, in this order, with one visit
    each, and [get_move] returns 6, not the smaller tied column 5. *)
Lemma tie_goes_to_larger_column :
  (λ r : list Node * nat,
     (λ nd : Node, (move nd, visits nd, children nd)) <$> r.1)
    <$> @run_simulations test_runtime (mkMCTSPlayer 2) (new_game 6 7) 1
  = Some [ (None, 2, [1%nat; 2%nat]); (Some 6, 1, []); (Some 5, 1, []) ]
  ∧ @get_move test_runtime (mkMCTSPlayer 2) (new_game 6 7) 1 = Some (Some 6).
Proof. split; vm_compute; reflexivity. Qed.

(** C3, amended: [get_move] returns the move of the root child with the
    greatest visit count; among several children with that count it returns
    the move of the first one in [root.children], the one expanded first,
    which is the tied child with the largest column (untried moves are
    popped from the end of the ascending list of legal moves). *)
Theorem get_move_most_visited_child `{Runtime} (self : MCTSPlayer)
    (game : Connect4) (player : Z) :
  no_nan → wf game → is_player player →
  ∃ h tick root,
    run_simulations self game player = Some (h, tick)
    ∧ h !! 0%nat = Some root
    ∧ (children root ≠ [] →
         ∃ best bn col,
           get_move self game player = Some (Some col)
           ∧ first_max h (children root) best
           ∧ h !! best = Some bn ∧ move bn = Some col
           ∧ ∀ c cn col', c ∈ children root → h !! c = Some cn →
               move cn = Some col' → visits cn = visits bn → col' ≤ col).
Proof.
  intros Hnan Hwf Hp.
  destruct (get_move_spec self game player Hnan Hwf Hp)
    as (h & tick & root & vm & Hrun & Hroot & _ & _ & _ & Hbest).
  by exists h, tick, root.
Qed.

Lemma get_move_most_visited_child_witness :
  ∃ h tick root,
    @run_simulations test_runtime (mkMCTSPlayer 2) (new_game 6 7) 1 = Some (h, tick)
    ∧ h !! 0%nat = Some root
    ∧ (children root ≠ [] →
         ∃ best bn col,
           @get_move test_runtime (mkMCTSPlayer 2) (new_game 6 7) 1 = Some (Some col)
           ∧ first_max h (children root) best
           ∧ h !! best = Some bn ∧ move bn = Some col
           ∧ ∀ c cn col', c ∈ children root → h !! c = Some cn →
               move cn = Some col' → visits cn = visits bn → col' ≤ col).
Proof.
  apply (@get_move_most_visited_child test_runtime (mkMCTSPlayer 2) (new_game 6 7) 1).
  - exact test_runtime_no_nan.
  - exact wf_new_game.
  - by left.
Defined.




(** * Further properties of the code *)

(** ** The board primitives *)

Lemma getitem_setitem g r c v g' :
  wf g → 0 ≤ r < rows g → 0 ≤ c < cols g → setitem g r c v = Some g' →
  ∀ r' c', 0 ≤ r' < rows g → 0 ≤ c' < cols g →
    getitem g' r' c' = if decide (r' = r ∧ c' = c) then Some v else getitem g r' c'.
Proof.
  intros Hwf Hr Hc Hset r' c' Hr' Hc'.
  destruct (getitem_wf g r c Hwf Hr Hc) as [v0 Hv0].
  destruct (getitem_Some _ _ _ _ Hv0) as (i & j & row & Hi & Hrow & Hj & Hv).
  rewrite (setitem_at g r c v i j row) in Hset by done. simplify_eq.
  pose proof Hwf as (_ & Hlen & Hrows).
  rewrite position_in_range in Hi by lia. injection Hi as <-.
  assert (Z.of_nat (length row) = cols g) as Hrl.
  { rewrite Forall_forall in Hrows. apply Hrows. by eapply list_elem_of_lookup_2. }
  rewrite position_in_range in Hj by lia. injection Hj as <-.
  unfold getitem, Py.index. simpl. rewrite length_insert.
  rewrite !position_in_range by lia. simpl.
  destruct (decide (r' = r)) as [->|Hne].
  - rewrite list_lookup_insert_eq by lia. simpl. rewrite length_insert.
    rewrite Hrow. simpl. rewrite !position_in_range by lia. simpl.
    destruct (decide (c' = c)) as [->|Hne'].
    + rewrite decide_True by done. apply list_lookup_insert_eq. lia.
    + rewrite decide_False by tauto. apply list_lookup_insert_ne. lia.
  - rewrite decide_False by tauto. rewrite list_lookup_insert_ne by lia. done.
Qed.

Lemma for_return_first_found {A R} (l : list A) (body : A → option (option R)) r :
  Py.for_return l body = Some (Some r) →
  ∃ l1 x l2, l = l1 ++ x :: l2 ∧ body x = Some (Some r)
             ∧ ∀ y, y ∈ l1 → body y = Some None.
Proof.
  induction l as [|x l IH]; simpl; [done|].
  destruct (body x) as [[v|]|] eqn:Hx; simpl; [| |done].
  - intros [= ->]. exists [], x, l. split_and!; [done..|]. intros y Hy. inversion Hy.
  - intros H. destruct (IH H) as (l1 & y & l2 & -> & Hy & Hl1).
    exists (x :: l1), y, l2. split_and!; [done..|].
    intros z [->|Hz]%elem_of_cons; auto.
Qed.

Lemma for_return_all_none {A R} (l : list A) (body : A → option (option R)) :
  Py.for_return l body = Some None → ∀ x, x ∈ l → body x = Some None.
Proof.
  induction l as [|x l IH]; simpl; [intros _ y Hy; inversion Hy|].
  destruct (body x) as [[v|]|] eqn:Hx; simpl; [done| |done].
  intros H y Hy. apply elem_of_cons in Hy as [->|Hy]; auto.
Qed.

Lemma range_down_split hi lo l1 x l2 :
  Py.range_down hi lo = l1 ++ x :: l2 →
  ∀ y, x < y ≤ hi → y ∈ l1.
Proof.
  intros Hsplit y Hy.
  assert (lo < x ≤ hi) as Hx.
  { apply elem_of_range_down. rewrite Hsplit. apply elem_of_app. right. left. }
  assert (y ∈ Py.range_down hi lo) as Hin by (apply elem_of_range_down; lia).
  rewrite Hsplit in Hin. apply elem_of_app in Hin as [Hin|Hin]; [done|].
  exfalso. apply elem_of_cons in Hin as [->|Hin]; [lia|].
  (* the list is strictly descending *)
  assert (∀ i j a b, Py.range_down hi lo !! i = Some a →
            Py.range_down hi lo !! j = Some b → (i < j)%nat → b < a) as Hdesc.
  { unfold Py.range_down. intros i j a b Hi Hj Hlt.
    rewrite list_lookup_fmap in Hi, Hj.
    destruct (seqZ 0 (hi - lo) !! i) as [a'|] eqn:Ha; [|done].
    destruct (seqZ 0 (hi - lo) !! j) as [b'|] eqn:Hb; [|done].
    apply lookup_seqZ in Ha as [-> _]. apply lookup_seqZ in Hb as [-> _].
    simpl in *. simplify_eq. lia. }
  apply list_elem_of_lookup in Hin as [k Hk].
  specialize (Hdesc (length l1) (S (length l1 + k)) x y).
  rewrite Hsplit in Hdesc.
  rewrite list_lookup_middle in Hdesc by done.
  rewrite lookup_app_r in Hdesc by lia.
  replace (S (length l1 + k) - length l1)%nat with (S k) in Hdesc by lia.
  simpl in Hdesc. specialize (Hdesc eq_refl Hk). lia.
Qed.

(** X1: on a well-shaped board [get_valid_moves] returns exactly the columns
    whose top cell is empty, each within [0, cols), in strictly ascending
    order. *)
Theorem valid_moves_are_open_columns (g : Connect4) :
  wf g →
  ∃ vm, get_valid_moves g = Some vm
        ∧ (∀ c, c ∈ vm ↔ 0 ≤ c < cols g ∧ is_valid_location g c = Some true)
        ∧ ascending vm.
Proof.
  intros Hwf. eexists. split; [by apply get_valid_moves_wf|]. split.
  - intros c. rewrite list_elem_of_filter, elem_of_range. tauto.
  - eapply valid_moves_ascending; [done|]. by apply get_valid_moves_wf.
Qed.

Lemma valid_moves_are_open_columns_witness :
  ∃ vm, get_valid_moves many_threats = Some vm
        ∧ (∀ c, c ∈ vm ↔ 0 ≤ c < cols many_threats
                          ∧ is_valid_location many_threats c = Some true)
        ∧ ascending vm.
Proof.
  apply (valid_moves_are_open_columns many_threats).
  unfold wf. split_and!; [done..|]. repeat constructor.
Defined.

Lemma next_open_row_lowest (g : Connect4) (col : Z) :
  wf g → 0 ≤ col < cols g →
  ∃ res, get_next_open_row g col = Some res
    ∧ match res with
      | Some row =>
          0 ≤ row < rows g ∧ getitem g row col = Some 0
          ∧ ∀ r, row < r < rows g → ∃ v, getitem g r col = Some v ∧ v ≠ 0
      | None =>
          ∀ r, 0 ≤ r < rows g → ∃ v, getitem g r col = Some v ∧ v ≠ 0
      end.
Proof.
  intros Hwf Hc.
  assert (∀ r, r ∈ Py.range_down (rows g - 1) (-1) →
            ∃ v, getitem g r col = Some v) as Hcells.
  { intros r Hr%elem_of_range_down. apply getitem_wf; [done|lia|done]. }
  destruct (get_next_open_row g col) as [res|] eqn:Hres.
  2:{ exfalso. unfold get_next_open_row in Hres.
      destruct (for_return_total (Py.range_down (rows g - 1) (-1))
                  (λ r, v ← getitem g r col;
                        if bool_decide (v = 0) then Some (Some r) else Some None))
        as [x Hx]; [|congruence].
      intros r Hr. destruct (Hcells r Hr) as [v ->]. simpl.
      case_bool_decide; eauto. }
  exists res. split; [done|]. unfold get_next_open_row in Hres.
  destruct res as [row|].
  - pose proof (get_next_open_row_Some g col row Hres) as [Hrow H0].
    split_and!; [lia..|done|]. intros r Hr.
    apply for_return_first_found in Hres as (l1 & x & l2 & Hsplit & Hx & Hl1).
    assert (x = row) as ->.
    { destruct (getitem g x col); [|done]. simpl in Hx.
      case_bool_decide; by simplify_eq. }
    pose proof (range_down_split _ _ _ _ _ Hsplit r) as Hin.
    specialize (Hl1 r (Hin ltac:(lia))).
    destruct (getitem g r col) as [v|]; [|done]. simpl in Hl1.
    case_bool_decide; [done|]. eauto.
  - intros r Hr.
    pose proof (for_return_all_none _ _ Hres r) as Hn.
    rewrite elem_of_range_down in Hn. specialize (Hn ltac:(lia)).
    destruct (getitem g r col) as [v|]; [|done]. simpl in Hn.
    case_bool_decide; [done|]. eauto.
Qed.

(** X2: on a well-shaped board and a column of the board,
    [get_next_open_row] never raises; the row it returns is the lowest empty
    cell of the column (the cell is empty and every cell below it holds a
    token), and it returns [None] exactly when the column has no empty
    cell. *)
Theorem next_open_row_is_lowest_empty (g : Connect4) (col : Z) :
  wf g → 0 ≤ col < cols g →
  ∃ res, get_next_open_row g col = Some res
    ∧ match res with
      | Some row =>
          0 ≤ row < rows g ∧ getitem g row col = Some 0
          ∧ ∀ r, row < r < rows g → ∃ v, getitem g r col = Some v ∧ v ≠ 0
      | None =>
          ∀ r, 0 ≤ r < rows g → ∃ v, getitem g r col = Some v ∧ v ≠ 0
      end.
Proof.
  intros Hwf Hc.
  assert (∀ r, r ∈ Py.range_down (rows g - 1) (-1) →
            ∃ v, getitem g r col = Some v) as Hcells.
  { intros r Hr%elem_of_range_down. apply getitem_wf; [done|lia|done]. }
  destruct (get_next_open_row g col) as [res|] eqn:Hres.
  2:{ exfalso. unfold get_next_open_row in Hres.
      destruct (for_return_total (Py.range_down (rows g - 1) (-1))
                  (λ r, v ← getitem g r col;
                        if bool_decide (v = 0) then Some (Some r) else Some None))
        as [x Hx]; [|congruence].
      intros r Hr. destruct (Hcells r Hr) as [v ->]. simpl.
      case_bool_decide; eauto. }
  exists res. split; [done|]. unfold get_next_open_row in Hres.
  destruct res as [row|].
  - pose proof (get_next_open_row_Some g col row Hres) as [Hrow H0].
    split_and!; [lia..|done|]. intros r Hr.
    apply for_return_first_found in Hres as (l1 & x & l2 & Hsplit & Hx & Hl1).
    assert (x = row) as ->.
    { destruct (getitem g x col); [|done]. simpl in Hx.
      case_bool_decide; by simplify_eq. }
    pose proof (range_down_split _ _ _ _ _ Hsplit r) as Hin.
    specialize (Hl1 r (Hin ltac:(lia))).
    destruct (getitem g r col) as [v|]; [|done]. simpl in Hl1.
    case_bool_decide; [done|]. eauto.
  - intros r Hr.
    pose proof (for_return_all_none _ _ Hres r) as Hn.
    rewrite elem_of_range_down in Hn. specialize (Hn ltac:(lia)).
    destruct (getitem g r col) as [v|]; [|done]. simpl in Hn.
    case_bool_decide; [done|]. eauto.
Qed.

Lemma next_open_row_is_lowest_empty_witness :
  ∃ res, get_next_open_row many_threats 2 = Some res
    ∧ match res with
      | Some row =>
          0 ≤ row < rows many_threats ∧ getitem many_threats row 2 = Some 0
          ∧ ∀ r, row < r < rows many_threats →
              ∃ v, getitem many_threats r 2 = Some v ∧ v ≠ 0
      | None =>
          ∀ r, 0 ≤ r < rows many_threats →
            ∃ v, getitem many_threats r 2 = Some v ∧ v ≠ 0
      end.
Proof.
  apply (next_open_row_is_lowest_empty many_threats 2).
  - unfold wf. split_and!; [done..|]. repeat constructor.
  - vm_compute. split; congruence.
Defined.

Lemma simulate_move_on_board g col p u g1 :
  wf g → 0 ≤ col < cols g → simulate_move g col p = Some (u, g1) →
  (∃ row, u = (Some row, col) ∧ get_next_open_row g col = Some (Some row)
          ∧ setitem g row col p = Some g1)
  ∨ (u = (None, col) ∧ get_next_open_row g col = Some None).
Proof.
  intros Hwf Hc Hs. unfold simulate_move in Hs.
  destruct (get_next_open_row g col) as [[row|]|] eqn:Hrow; [| |done]; simpl in Hs.
  - destruct (setitem g row col p) as [g'|] eqn:Hset; [|done]. simpl in Hs.
    simplify_eq. left. by exists row.
  - destruct (setitem_newaxis g col p); [|done]. simpl in Hs. simplify_eq.
    by right.
Qed.

Lemma simulate_move_frame (g : Connect4) (col row p : Z) :
  wf g → 0 ≤ col < cols g → get_next_open_row g col = Some (Some row) →
  ∃ g1, simulate_move g col p = Some ((Some row, col), g1)
    ∧ wf g1 ∧ rows g1 = rows g ∧ cols g1 = cols g
    ∧ current_player g1 = current_player g
    ∧ (∀ r c, 0 ≤ r < rows g → 0 ≤ c < cols g →
         getitem g1 r c = if decide (r = row ∧ c = col) then Some p
                          else getitem g r c)
    ∧ (p ≠ 0 → S (count_empty g1) = count_empty g).
Proof.
  intros Hwf Hc Hrow.
  pose proof (get_next_open_row_Some g col row Hrow) as [Hr H0].
  destruct (setitem_clear g row col p H0) as (g1 & Hset & _).
  exists g1. unfold simulate_move. rewrite Hrow. simpl. rewrite Hset. simpl.
  pose proof (setitem_fields _ _ _ _ _ Hset) as (? & ? & ?).
  split_and!; [done|by eapply setitem_wf|done..| |].
  - by apply getitem_setitem.
  - intros Hp. by eapply setitem_count_empty.
Qed.

(** X3: a move into a column with an empty cell writes the player's token
    into the lowest empty cell of that column and changes nothing else: every
    other cell, the dimensions and [current_player] are as before, and the
    number of empty cells drops by one when the token is not 0. *)
Theorem simulate_move_writes_one_cell (g : Connect4) (col row p : Z) :
  wf g → 0 ≤ col < cols g → get_next_open_row g col = Some (Some row) →
  ∃ g1, simulate_move g col p = Some ((Some row, col), g1)
    ∧ wf g1 ∧ rows g1 = rows g ∧ cols g1 = cols g
    ∧ current_player g1 = current_player g
    ∧ (∀ r c, 0 ≤ r < rows g → 0 ≤ c < cols g →
         getitem g1 r c = if decide (r = row ∧ c = col) then Some p
                          else getitem g r c)
    ∧ (p ≠ 0 → S (count_empty g1) = count_empty g).
Proof.
  intros Hwf Hc Hrow.
  pose proof (get_next_open_row_Some g col row Hrow) as [Hr H0].
  destruct (setitem_clear g row col p H0) as (g1 & Hset & _).
  exists g1. unfold simulate_move. rewrite Hrow. simpl. rewrite Hset. simpl.
  pose proof (setitem_fields _ _ _ _ _ Hset) as (? & ? & ?).
  split_and!; [done|by eapply setitem_wf|done..| |].
  - by apply getitem_setitem.
  - intros Hp. by eapply setitem_count_empty.
Qed.

Lemma simulate_move_writes_one_cell_witness :
  ∃ g1, simulate_move many_threats 4 1 = Some ((Some 5, 4), g1)
    ∧ wf g1 ∧ rows g1 = rows many_threats ∧ cols g1 = cols many_threats
    ∧ current_player g1 = current_player many_threats
    ∧ (∀ r c, 0 ≤ r < rows many_threats → 0 ≤ c < cols many_threats →
         getitem g1 r c = if decide (r = 5 ∧ c = 4) then Some 1
                          else getitem many_threats r c)
    ∧ (1 ≠ 0 → S (count_empty g1) = count_empty many_threats).
Proof.
  apply (simulate_move_writes_one_cell many_threats 4 5 1).
  - unfold wf. split_and!; [done..|]. repeat constructor.
  - vm_compute. split; congruence.
  - vm_compute. reflexivity.
Defined.

(** X4: a move of a player into a legal column keeps gravity: if below every
    token of the board there is a token, the same holds after
    [simulate_move]. *)
Theorem simulate_move_keeps_gravity (g : Connect4) (col p : Z) (vm : list Z) :
  wf g → gravity g → get_valid_moves g = Some vm → col ∈ vm → p ≠ 0 →
  ∃ u g1, simulate_move g col p = Some (u, g1) ∧ wf g1 ∧ gravity g1.
Proof.
  intros Hwf Hgrav Hvm Hcol Hp.
  pose proof (proj1 (elem_of_valid_moves g vm col Hwf Hvm) Hcol) as [Hc Htop].
  destruct (next_open_row_lowest g col Hwf Hc) as (res & Hres & Hlow).
  destruct res as [row|].
  2:{ destruct (Hlow 0) as (v & Hv & Hne); [destruct Hwf; lia|]. congruence. }
  destruct Hlow as (Hr & H0 & Hbelow).
  destruct (simulate_move_frame g col row p Hwf Hc Hres)
    as (g1 & Hs & Hwf1 & Hrows & Hcols & _ & Hframe & _).
  exists (Some row, col), g1. split_and!; [done..|].
  intros r c v Hr0 Hr1 Hc' Hv Hv0. rewrite Hrows in Hr1. rewrite Hcols in Hc'.
  rewrite Hframe in Hv by lia. rewrite Hframe by lia.
  destruct (decide (r + 1 = row ∧ c = col)) as [[Hrr ->]|Hn1]; [eauto|].
  destruct (decide (r = row ∧ c = col)) as [[-> ->]|Hn2].
  - apply Hbelow. lia.
  - by apply (Hgrav r c v).
Qed.

Lemma simulate_move_keeps_gravity_witness :
  ∃ u g1, simulate_move (new_game 6 7) 3 1 = Some (u, g1) ∧ wf g1 ∧ gravity g1.
Proof.
  apply (simulate_move_keeps_gravity (new_game 6 7) 3 1 [0; 1; 2; 3; 4; 5; 6]).
  - exact wf_new_game.
  - intros r c v Hr Hr1 Hc Hv Hne. exfalso. apply Hne.
    assert (getitem (new_game 6 7) r c = Some 0) as E; [|congruence].
    assert (r ∈ Py.range 0 6) as Hr' by (apply elem_of_range; simpl in *; lia).
    assert (c ∈ Py.range 0 7) as Hc' by (apply elem_of_range; simpl in *; lia).
    revert Hr' Hc'. clear. revert r c.
    assert (Forall (λ r, Forall (λ c, getitem (new_game 6 7) r c = Some 0)
                                (Py.range 0 7)) (Py.range 0 6)) as H.
    { vm_compute. repeat constructor. }
    intros r c Hr Hc. rewrite Forall_forall in H. specialize (H r Hr).
    rewrite Forall_forall in H. by apply H.
  - vm_compute. reflexivity.
  - do 3 right. left.
  - done.
Defined.

Lemma for_app {A S} (l1 l2 : list A) (body : S → A → option S) (s : S) :
  Py.for_ (l1 ++ l2) body s = Py.for_ l1 body s ≫= Py.for_ l2 body.
Proof.
  revert s. induction l1 as [|x l1 IH]; intros s; simpl; [done|].
  destruct (body s x) as [s'|]; simpl; [apply IH|done].
Qed.

Lemma simulate_moves_undo g cs p undo0 undo g' :
  simulate_moves g cs p undo0 = Some (undo, g') →
  ∃ new, undo = new ++ undo0 ∧ length new = length cs
         ∧ (Forall (λ u : undo_info, is_Some u.1) new → undo_moves g' new = Some g).
Proof.
  revert g p undo0. induction cs as [|col cs IH]; intros g p undo0; simpl.
  - intros [= <- <-]. by exists [].
  - destruct (simulate_move g col p) as [[u g1]|] eqn:Hs; [|done]. simpl.
    intros H. destruct (IH _ _ _ H) as (new & -> & Hlen & Hundo).
    exists (new ++ [u]). split_and!.
    + by rewrite <- app_assoc.
    + rewrite length_app. simpl. lia.
    + intros [Hnew Hu]%Forall_app. unfold undo_moves in *.
      rewrite for_app, (Hundo Hnew). simpl.
      apply Forall_singleton in Hu as [row Hrow].
      unfold simulate_move in Hs.
      destruct (get_next_open_row g col) as [[row'|]|] eqn:Hopen; [| |done];
        simpl in Hs.
      * pose proof (get_next_open_row_Some g col row' Hopen) as [_ H0].
        destruct (setitem_clear g row' col p H0) as (g2 & Hset & Hclear).
        rewrite Hset in Hs. simpl in Hs. injection Hs as <- <-.
        unfold undo_move. simpl. by rewrite Hclear.
      * destruct (setitem_newaxis g col p); [|done]. simpl in Hs.
        injection Hs as <- <-. simpl in Hrow. done.
Qed.

(** X5: moves applied one after the other and then undone in the reverse
    order (most recent first) give back the object the sequence started
    from, whatever the columns and players, as long as every move found an
    empty cell in its column. *)
Theorem undo_in_reverse_order_restores (g : Connect4) (cs : list Z) (p : Z)
    (undo : list undo_info) (g' : Connect4) :
  simulate_moves g cs p [] = Some (undo, g') →
  Forall (λ u : undo_info, is_Some u.1) undo →
  length undo = length cs ∧ undo_moves g' undo = Some g.
Proof.
  intros Hs Hall. destruct (simulate_moves_undo g cs p [] undo g' Hs)
    as (new & -> & Hlen & Hundo).
  rewrite app_nil_r in *. auto.
Qed.

Lemma undo_in_reverse_order_restores_witness :
  length [(Some 3, 3); (Some 4, 3); (Some 5, 0); (Some 5, 3)] = length [3; 0; 3; 3]
  ∧ undo_moves
      (of_board [ [0;0;0;0;0;0;0]; [0;0;0;0;0;0;0]; [0;0;0;0;0;0;0];
                  [0;0;0;2;0;0;0]; [0;0;0;1;0;0;0]; [2;0;0;1;0;0;0] ])
      [(Some 3, 3); (Some 4, 3); (Some 5, 0); (Some 5, 3)]
    = Some (new_game 6 7).
Proof.
  apply (undo_in_reverse_order_restores (new_game 6 7) [3; 0; 3; 3] 1).
  - vm_compute. reflexivity.
  - repeat constructor; by eexists.
Defined.

(** ** The full-board scan *)

Lemma range_0_4 : Py.range 0 4 = [0; 1; 2; 3].
Proof. reflexivity. Qed.

Lemma four_cases i : 0 ≤ i < 4 → i = 0 ∨ i = 1 ∨ i = 2 ∨ i = 3.
Proof. lia. Qed.

Lemma all_true (l : list (option bool)) :
  Py.all l = Some true ↔ ∀ x, x ∈ l → x = Some true.
Proof.
  induction l as [|x l IH]; simpl.
  - split; [|done]. intros _ x Hx. inversion Hx.
  - destruct x as [[]|]; simpl.
    + rewrite IH. split.
      * intros H y Hy. apply elem_of_cons in Hy as [->|Hy]; auto.
      * intros H y Hy. apply H. by right.
    + split; [done|]. intros H. discriminate (H (Some false)). left.
    + split; [done|]. intros H. discriminate (H None). left.
Qed.

Lemma all_false (l : list (option bool)) :
  Py.all l = Some false → Some false ∈ l.
Proof.
  induction l as [|x l IH]; simpl; [done|].
  destruct x as [[]|]; simpl; [|left|done].
  intros H. right. by apply IH.
Qed.

Lemma all4_true g p cell :
  all4 g p cell = Some true ↔
  ∀ i, 0 ≤ i < 4 → getitem g (cell i).1 (cell i).2 = Some p.
Proof.
  unfold all4. rewrite all_true. split.
  - intros H i Hi.
    assert ((v ← getitem g (cell i).1 (cell i).2; Some (bool_decide (v = p)))
            = Some true) as E.
    { apply H. apply list_elem_of_fmap. exists i. split; [done|].
      by apply elem_of_range. }
    destruct (getitem g (cell i).1 (cell i).2) as [v|]; [|done].
    simpl in E. injection E as E%bool_decide_eq_true. by subst.
  - intros H x Hx. apply list_elem_of_fmap in Hx as (i & -> & Hi%elem_of_range).
    rewrite (H i Hi). simpl. by rewrite bool_decide_eq_true_2.
Qed.

Lemma all_windows_elem g w :
  w ∈ all_windows g ↔
  ∃ d r c, d ∈ directions ∧ 0 ≤ r < rows g ∧ 0 ≤ c < cols g
           ∧ w = window_cells r c d ∧ forallb (in_board g) w = true.
Proof.
  unfold all_windows, cells. rewrite list_elem_of_bind. split.
  - intros (d & Hw & Hd). apply list_elem_of_filter in Hw as [Hin Hw].
    apply list_elem_of_fmap in Hw as ([r c] & -> & Hrc).
    apply list_elem_of_bind in Hrc as (r' & Hrc & Hr).
    apply list_elem_of_bind in Hrc as (c' & Hrc & Hc).
    apply list_elem_of_singleton in Hrc as [= <- <-].
    apply elem_of_range in Hr, Hc. exists d, r, c. simpl.
    split_and!; (done || lia).
  - intros (d & r & c & Hd & Hr & Hc & -> & Hin). exists d. split; [|done].
    apply list_elem_of_filter. split; [done|].
    apply list_elem_of_fmap. exists (r, c). split; [done|].
    apply list_elem_of_bind. exists r. split; [|apply elem_of_range; lia].
    apply list_elem_of_bind. exists c. split; [|apply elem_of_range; lia].
    by apply list_elem_of_singleton.
Qed.

Lemma window_of_cells g p r c d :
  window_of g p (window_cells r c d) ↔
  ∀ i, 0 ≤ i < 4 → getitem g (r + i * d.1) (c + i * d.2) = Some p.
Proof.
  unfold window_of, window_cells. split.
  - intros H i Hi. apply (H (r + i * d.1, c + i * d.2)).
    apply list_elem_of_fmap. exists i. split; [done|]. by apply elem_of_range.
  - intros H rc Hrc. apply list_elem_of_fmap in Hrc as (i & -> & Hi).
    apply elem_of_range in Hi. simpl. by apply H.
Qed.

Lemma window_in_board g r c d :
  forallb (in_board g) (window_cells r c d) = true ↔
  ∀ i, 0 ≤ i < 4 → 0 ≤ r + i * d.1 < rows g ∧ 0 ≤ c + i * d.2 < cols g.
Proof.
  rewrite forallb_forall. unfold window_cells, in_board. split.
  - intros H i Hi.
    assert (In (r + i * d.1, c + i * d.2)
               ((λ i, (r + i * d.1, c + i * d.2)) <$> Py.range 0 4)) as Hin.
    { apply list_elem_of_In, list_elem_of_fmap. exists i.
      split; [done|]. by apply elem_of_range. }
    apply H in Hin. by apply bool_decide_eq_true in Hin.
  - intros H rc Hrc. apply list_elem_of_In, list_elem_of_fmap in Hrc
      as (i & -> & Hi%elem_of_range).
    apply bool_decide_eq_true. simpl. by apply H.
Qed.

(** One direction check of [scan_cell]: the guard keeps the window on the
    board, and then the check holds exactly when its four cells hold the
    token. *)
Lemma direction_check g v row col (guard : bool) d (cell : Z → Z * Z) :
  wf g →
  (∀ i, cell i = (row + i * d.1, col + i * d.2)) →
  (guard = true ↔
   ∀ i, 0 ≤ i < 4 → 0 ≤ row + i * d.1 < rows g ∧ 0 ≤ col + i * d.2 < cols g) →
  ∃ b, (if guard then all4 g v cell else Some false) = Some b
       ∧ (b = true ↔ forallb (in_board g) (window_cells row col d) = true
                     ∧ window_of g v (window_cells row col d)).
Proof.
  intros Hwf Hcell Hguard.
  destruct guard.
  - pose proof (proj1 Hguard eq_refl) as Hin.
    destruct (all4_total g v cell) as [b Hb].
    { intros i Hi. rewrite Hcell. simpl. apply getitem_wf; [done|apply Hin; lia..]. }
    exists b. split; [done|]. rewrite window_in_board, window_of_cells. split.
    + intros ->. split; [done|]. intros i Hi.
      pose proof (proj1 (all4_true g v cell) Hb i Hi) as E.
      by rewrite Hcell in E.
    + intros [_ H]. assert (all4 g v cell = Some true) as E; [|congruence].
      apply all4_true. intros i Hi. rewrite Hcell. by apply H.
  - exists false. split; [done|]. rewrite window_in_board. split; [done|].
    intros [H _]. by apply Hguard.
Qed.

(** [scan_cell] returns a player exactly when the cell holds a token and one
    of the four windows that start at the cell lies on the board and holds
    only that token. *)
Lemma scan_cell_spec g row col :
  wf g → 0 ≤ row < rows g → 0 ≤ col < cols g →
  ∃ v res, getitem g row col = Some v ∧ scan_cell g row col = Some res
    ∧ (∀ p, res = Some p ↔
         p = v ∧ v ≠ 0
         ∧ ∃ d, d ∈ directions
                ∧ forallb (in_board g) (window_cells row col d) = true
                ∧ window_of g v (window_cells row col d)).
Proof.
  intros Hwf Hr Hc. destruct (getitem_wf g row col Hwf Hr Hc) as [v Hv].
  exists v. unfold scan_cell. rewrite Hv. simpl.
  case_bool_decide as Hv0.
  2:{ exists None. split_and!; [done..|]. intros p. split; [done|tauto]. }
  destruct (direction_check g v row col (bool_decide (col ≤ cols g - 4)) (0, 1)
              (λ i, (row, col + i)) Hwf) as (h & -> & Hhs).
  { intros i. simpl. f_equal; lia. }
  { rewrite bool_decide_eq_true. simpl. split; [intros ? i Hi; lia|].
    intros H. specialize (H 3). lia. }
  destruct (direction_check g v row col (bool_decide (row ≤ rows g - 4)) (1, 0)
              (λ i, (row + i, col)) Hwf) as (vv & -> & Hvs).
  { intros i. simpl. f_equal; lia. }
  { rewrite bool_decide_eq_true. simpl. split; [intros ? i Hi; lia|].
    intros H. specialize (H 3). lia. }
  destruct (direction_check g v row col
              (bool_decide (row ≤ rows g - 4) && bool_decide (col ≤ cols g - 4))
              (1, 1) (λ i, (row + i, col + i)) Hwf) as (pp & -> & Hps).
  { intros i. simpl. f_equal; lia. }
  { rewrite andb_true_iff, !bool_decide_eq_true. simpl.
    split; [intros ? i Hi; lia|]. intros H. specialize (H 3). lia. }
  destruct (direction_check g v row col
              (bool_decide (row ≤ rows g - 4) && bool_decide (3 ≤ col))
              (1, -1) (λ i, (row + i, col - i)) Hwf) as (nn & -> & Hns).
  { intros i. simpl. f_equal; lia. }
  { rewrite andb_true_iff, !bool_decide_eq_true. simpl.
    split; [intros ? i Hi; lia|]. intros H. specialize (H 3). lia. }
  assert (∀ d, d ∈ directions ↔ d = (0, 1) ∨ d = (1, 0) ∨ d = (1, 1) ∨ d = (1, -1))
    as Hdirs.
  { intros d. unfold directions. rewrite !elem_of_cons, elem_of_nil. tauto. }
  assert (∀ (b : bool) d, b = true →
            (b = true ↔ forallb (in_board g) (window_cells row col d) = true
                        ∧ window_of g v (window_cells row col d)) →
            d ∈ directions →
            ∀ p, Some v = Some p ↔
              p = v ∧ v ≠ 0
              ∧ ∃ d, d ∈ directions
                     ∧ forallb (in_board g) (window_cells row col d) = true
                     ∧ window_of g v (window_cells row col d)) as Hfound.
  { intros b d Hb Hiff Hd p. split.
    - intros [= <-]. split_and!; [done..|]. exists d. split; [done|].
      by apply Hiff.
    - by intros (-> & _). }
  simpl. destruct h.
  { exists (Some v). split_and!; [done..|].
    apply (Hfound true (0, 1)); [done..|]. apply Hdirs. tauto. }
  simpl. destruct vv.
  { exists (Some v). split_and!; [done..|].
    apply (Hfound true (1, 0)); [done..|]. apply Hdirs. tauto. }
  simpl. destruct pp.
  { exists (Some v). split_and!; [done..|].
    apply (Hfound true (1, 1)); [done..|]. apply Hdirs. tauto. }
  simpl. destruct nn.
  { exists (Some v). split_and!; [done..|].
    apply (Hfound true (1, -1)); [done..|]. apply Hdirs. tauto. }
  exists None. split_and!; [done..|]. intros p. split; [done|].
  intros (_ & _ & d & Hd & Hin & Hw). apply Hdirs in Hd.
  destruct Hd as [-> | [-> | [-> | -> ]]].
  - discriminate (proj2 Hhs (conj Hin Hw)).
  - discriminate (proj2 Hvs (conj Hin Hw)).
  - discriminate (proj2 Hps (conj Hin Hw)).
  - discriminate (proj2 Hns (conj Hin Hw)).
Qed.

(** The outcome of the win scan of [get_game_state]. *)
Lemma win_scan_spec g :
  wf g →
  ∃ w, Py.for_return (Py.range 0 (rows g))
         (λ row, Py.for_return (Py.range 0 (cols g))
                   (λ col, scan_cell g row col)) = Some w
       ∧ match w with
         | Some p => p ≠ 0 ∧ has_four g p
         | None => ∀ p, p ≠ 0 → ¬ has_four g p
         end.
Proof.
  intros Hwf.
  destruct (for_return_total (Py.range 0 (rows g))
              (λ row, Py.for_return (Py.range 0 (cols g))
                        (λ col, scan_cell g row col))) as [w Hw].
  { intros row Hr%elem_of_range. apply for_return_total.
    intros col Hc%elem_of_range. by apply scan_cell_total. }
  exists w. split; [done|]. destruct w as [p|].
  - apply for_return_found in Hw as (row & Hr%elem_of_range & Hw).
    apply for_return_found in Hw as (col & Hc%elem_of_range & Hw).
    destruct (scan_cell_spec g row col Hwf) as (v & res & Hv & Hres & Hspec);
      [lia..|].
    rewrite Hw in Hres. injection Hres as <-.
    destruct (proj1 (Hspec p) eq_refl) as (-> & Hv0 & d & Hd & Hin & Hwin).
    split; [done|]. exists (window_cells row col d). split; [|done].
    apply all_windows_elem. exists d, row, col. split_and!; (done || lia).
  - intros p Hp (win & Hwin & Hof).
    apply all_windows_elem in Hwin as (d & row & col & Hd & Hr & Hc & -> & Hin).
    pose proof (for_return_all_none _ _ Hw row) as Hrow.
    rewrite elem_of_range in Hrow. specialize (Hrow ltac:(lia)).
    pose proof (for_return_all_none _ _ Hrow col) as Hcol.
    rewrite elem_of_range in Hcol. specialize (Hcol ltac:(lia)).
    destruct (scan_cell_spec g row col Hwf) as (v & res & Hv & Hres & Hspec);
      [lia..|].
    rewrite Hcol in Hres. injection Hres as <-.
    pose proof (proj1 (window_of_cells g p row col d) Hof 0 ltac:(lia)) as H0.
    replace (row + 0 * d.1) with row in H0 by lia.
    replace (col + 0 * d.2) with col in H0 by lia.
    assert (v = p) as -> by congruence.
    assert (@None Z = Some p) as Hbad; [|done].
    apply Hspec. split_and!; [done..|]. by exists d.
Qed.

(** The outcome of the draw test of [get_game_state]. *)
Lemma top_row_spec g :
  wf g →
  ∃ full, Py.all ((λ col, v ← getitem g 0 col; Some (bool_decide (v ≠ 0)))
                    <$> Py.range 0 (cols g)) = Some full
    ∧ if full : bool
      then ∀ c, 0 ≤ c < cols g → ∃ v, getitem g 0 c = Some v ∧ v ≠ 0
      else ∃ c, 0 ≤ c < cols g ∧ getitem g 0 c = Some 0.
Proof.
  intros Hwf.
  set (top := (λ col, v ← getitem g 0 col; Some (bool_decide (v ≠ 0)))
                <$> Py.range 0 (cols g)).
  destruct (all_total top) as [full Hfull].
  { apply Forall_fmap, Forall_forall. intros col Hc%elem_of_range. simpl.
    destruct (getitem_wf g 0 col) as [v ->]; [done|destruct Hwf; lia|done|].
    simpl. eauto. }
  exists full. split; [done|]. destruct full.
  - intros c Hc.
    assert ((v ← getitem g 0 c; Some (bool_decide (v ≠ 0))) = Some true) as E.
    { apply (proj1 (all_true top) Hfull). apply list_elem_of_fmap. exists c.
      split; [done|]. by apply elem_of_range. }
    destruct (getitem g 0 c) as [v|]; [|done]. exists v. split; [done|].
    simpl in E. injection E as E. by apply bool_decide_eq_true in E.
  - apply all_false, list_elem_of_fmap in Hfull as (c & E & Hc%elem_of_range).
    exists c. split; [lia|].
    destruct (getitem g 0 c) as [v|]; [|done]. simpl in E.
    injection E as E. symmetry in E. apply bool_decide_eq_false in E.
    f_equal. destruct (decide (v = 0)); [done|]. by destruct E.
Qed.

(** X6: [get_game_state] is a sound and complete win test on every board of
    the right shape, whatever its content: when some player has four in a
    row (horizontal, vertical or either diagonal, anywhere on the board) the
    result is such a player, and when nobody has, the result is 3 if the top
    row is full and 0 otherwise. *)
Theorem get_game_state_finds_every_four (g : Connect4) :
  wf g →
  ∃ s, get_game_state g = Some s
    ∧ ((∃ p, p ≠ 0 ∧ has_four g p) → s ≠ 0 ∧ has_four g s)
    ∧ ((∀ p, p ≠ 0 → ¬ has_four g p) →
         (s = 3 ∧ ∀ c, 0 ≤ c < cols g → ∃ v, getitem g 0 c = Some v ∧ v ≠ 0)
         ∨ (s = 0 ∧ ∃ c, 0 ≤ c < cols g ∧ getitem g 0 c = Some 0)).
Proof.
  intros Hwf. unfold get_game_state.
  destruct (win_scan_spec g Hwf) as (w & -> & Hw). simpl.
  destruct w as [p|].
  { exists p. split; [done|]. split; [done|]. intros Hno.
    destruct Hw as [Hp Hfour]. by destruct (Hno p Hp). }
  destruct (top_row_spec g Hwf) as (full & -> & Htop). simpl.
  destruct full.
  - exists 3. split; [done|]. split.
    + intros (p & Hp & Hfour). by destruct (Hw p Hp).
    + intros _. by left.
  - exists 0. split; [done|]. split.
    + intros (p & Hp & Hfour). by destruct (Hw p Hp).
    + intros _. by right.
Qed.

Lemma get_game_state_finds_every_four_witness :
  ∃ s, get_game_state diagonal_win = Some s
    ∧ ((∃ p, p ≠ 0 ∧ has_four diagonal_win p) → s ≠ 0 ∧ has_four diagonal_win s)
    ∧ ((∀ p, p ≠ 0 → ¬ has_four diagonal_win p) →
         (s = 3 ∧ ∀ c, 0 ≤ c < cols diagonal_win →
                    ∃ v, getitem diagonal_win 0 c = Some v ∧ v ≠ 0)
         ∨ (s = 0 ∧ ∃ c, 0 ≤ c < cols diagonal_win
                         ∧ getitem diagonal_win 0 c = Some 0)).
Proof.
  apply (get_game_state_finds_every_four diagonal_win).
  unfold wf. split_and!; [done..|]. repeat constructor.
Defined.

(** X7: the game is reported as ongoing exactly when nobody has four in a
    row and some column is still open.  So after the test
    [get_game_state() != 0] the list of legal moves is never empty: the
    second guard of the two searches and the second condition of the rollout
    loop never decide anything. *)
Theorem ongoing_iff_no_four_and_open_column (g : Connect4) :
  wf g →
  ∃ vm, get_valid_moves g = Some vm
    ∧ (get_game_state g = Some 0 ↔
       (∀ p, p ≠ 0 → ¬ has_four g p) ∧ vm ≠ []).
Proof.
  intros Hwf.
  destruct (get_valid_moves g) as [vm|] eqn:Hvm.
  2:{ by rewrite get_valid_moves_wf in Hvm. }
  exists vm. split; [done|].
  pose proof (elem_of_valid_moves g vm) as Hel.
  unfold get_game_state.
  destruct (win_scan_spec g Hwf) as (w & -> & Hw). simpl.
  destruct w as [p|].
  { destruct Hw as [Hp Hfour]. split; [congruence|].
    intros [Hno _]. by destruct (Hno p Hp). }
  destruct (top_row_spec g Hwf) as (full & -> & Htop). simpl.
  destruct full.
  - split; [done|]. intros [_ Hne]. destruct vm as [|c vm]; [done|].
    destruct (proj1 (Hel c Hwf Hvm)) as [Hc H0]; [left|].
    destruct (Htop c Hc) as (v & Hv & Hv0). congruence.
  - split; [|done]. intros _. split; [done|].
    destruct Htop as (c & Hc & H0). intros ->.
    assert (c ∈ @nil Z) as Hin by (apply (Hel c Hwf Hvm); done).
    inversion Hin.
Qed.

Lemma ongoing_iff_no_four_and_open_column_witness :
  ∃ vm, get_valid_moves many_threats = Some vm
    ∧ (get_game_state many_threats = Some 0 ↔
       (∀ p, p ≠ 0 → ¬ has_four many_threats p) ∧ vm ≠ []).
Proof.
  apply (ongoing_iff_no_four_and_open_column many_threats).
  unfold wf. split_and!; [done..|]. repeat constructor.
Defined.

(** ** The win test after a move *)

(** numpy accepts a negative column index down to [-cols]. *)
Lemma getitem_wrap g r c :
  wf g → 0 ≤ r < rows g → - cols g ≤ c < cols g → is_Some (getitem g r c).
Proof.
  intros (Hr & Hlen & Hrows) Hr' Hc. unfold getitem, Py.index.
  rewrite position_in_range by lia. simpl.
  destruct (lookup_lt_is_Some_2 (board g) (Z.to_nat r)) as [row Hrow]; [lia|].
  rewrite Hrow. simpl.
  rewrite Forall_forall in Hrows.
  pose proof (Hrows row (list_elem_of_lookup_2 _ _ _ Hrow)) as Hl.
  unfold Py.position. repeat case_bool_decide; simpl; try lia;
    apply lookup_lt_is_Some_2; lia.
Qed.

(** A loop of [is_winning_move]: it returns [True] at the first window that
    passes the test and falls through when none does. *)
Lemma hit_loop {A} (l : list A) (f : A → option bool) :
  (∀ x, x ∈ l → is_Some (f x)) →
  ∃ res, Py.for_return l
           (λ x, b' ← f x; if b' : bool then Some (Some true) else Some None)
         = Some res
    ∧ (res = None ∨ res = Some true)
    ∧ ((∃ x, x ∈ l ∧ f x = Some true) → res = Some true).
Proof.
  induction l as [|x l IH]; intros Ht; simpl.
  - exists None. split_and!; [done|by left|]. intros (x & Hx & _). inversion Hx.
  - destruct (Ht x) as [[] Hx]; [left| |]; rewrite Hx; simpl.
    + exists (Some true). split_and!; [done|by right|done].
    + destruct IH as (res & -> & Hres & Hfound).
      { intros y Hy. apply Ht. by right. }
      exists res. split_and!; [done..|].
      intros (y & Hy & Hfy). apply Hfound.
      apply elem_of_cons in Hy as [->|Hy]; [congruence|eauto].
Qed.

(** X8: on a board of the right shape with at least 3 columns,
    [is_winning_move] at a cell of the board never raises, and it answers
    [True] whenever a horizontal or a vertical 4-cell window through the
    cell holds only tokens of the current player. *)
Theorem is_winning_move_detects_rows_and_columns (g : Connect4) (row col : Z) :
  wf g → 3 ≤ cols g → 0 ≤ row < rows g → 0 ≤ col < cols g →
  ∃ b, is_winning_move g row col = Some b
    ∧ ∀ r c d, d = (0, 1) ∨ d = (1, 0) →
        forallb (in_board g) (window_cells r c d) = true →
        (row, col) ∈ window_cells r c d →
        window_of g (current_player g) (window_cells r c d) →
        b = true.
Proof.
  intros Hwf Hcols Hr Hc. unfold is_winning_move. cbv zeta. cbv beta.
  set (me := current_player g).
  set (rs := Py.range (Z.max 0 (row - 3)) (Z.min (rows g - 3) (row + 1))).
  set (cs := Py.range (Z.max 0 (col - 3)) (Z.min (cols g - 3) (col + 1))).
  set (cs_down := Py.range_down (Z.min (cols g - 1) (col + 3))
                                (Z.max (-1) (col - 4))).
  destruct (hit_loop cs (λ c, all4 g me (λ i, (row, c + i))))
    as (h & -> & Hh & Hhf).
  { intros c Hc'%elem_of_range. apply all4_total. intros i Hi. simpl.
    apply getitem_wf; [done|lia..]. }
  destruct (hit_loop rs (λ r, all4 g me (λ i, (r + i, col))))
    as (v & Hv & Hv' & Hvf).
  { intros r Hr'%elem_of_range. apply all4_total. intros i Hi. simpl.
    apply getitem_wf; [done|lia..]. }
  destruct (hit_loop (zip rs cs) (λ rc, all4 g me (λ i, (rc.1 + i, rc.2 + i))))
    as (p & Hp & Hp' & _).
  { intros [r c] Hrc. apply all4_total. intros i Hi. simpl.
    pose proof (elem_of_zip_l _ _ _ _ Hrc) as Hr'%elem_of_range.
    pose proof (elem_of_zip_r _ _ _ _ Hrc) as Hc'%elem_of_range.
    apply getitem_wf; [done|lia..]. }
  destruct (hit_loop (zip rs cs_down)
              (λ rc, all4 g me (λ i, (rc.1 + i, rc.2 - i))))
    as (n & Hn & Hn' & _).
  { intros [r c] Hrc. apply all4_total. intros i Hi. simpl.
    pose proof (elem_of_zip_l _ _ _ _ Hrc) as Hr'%elem_of_range.
    pose proof (elem_of_zip_r _ _ _ _ Hrc) as Hc'%elem_of_range_down.
    apply getitem_wrap; [done|lia..]. }
  assert (∀ r c d, d = (0, 1) ∨ d = (1, 0) →
            forallb (in_board g) (window_cells r c d) = true →
            (row, col) ∈ window_cells r c d →
            window_of g me (window_cells r c d) →
            h = Some true ∨ v = Some true) as Hfound.
  { intros r c d Hd Hin Hthrough Hwin.
    rewrite window_in_board in Hin. rewrite window_of_cells in Hwin.
    apply list_elem_of_fmap in Hthrough as (k & Hk & Hk'%elem_of_range).
    destruct Hd as [-> | ->]; cbn [fst snd] in *; injection Hk as Hk1 Hk2;
      pose proof (Hin 0 ltac:(lia)); pose proof (Hin 3 ltac:(lia)).
    - left. apply Hhf. exists c. split.
      + apply elem_of_range. lia.
      + apply all4_true. intros i Hi. simpl. specialize (Hwin i Hi).
        by replace (r + i * 0) with row in Hwin by lia;
           replace (c + i * 1) with (c + i) in Hwin by lia.
    - right. apply Hvf. exists r. split.
      + apply elem_of_range. lia.
      + apply all4_true. intros i Hi. simpl. specialize (Hwin i Hi).
        by replace (c + i * 0) with col in Hwin by lia;
           replace (r + i * 1) with (r + i) in Hwin by lia. }
  simpl. destruct Hh as [-> | ->].
  2:{ exists true. done. }
  rewrite Hv. simpl. destruct Hv' as [-> | ->].
  2:{ exists true. done. }
  rewrite Hp. simpl. destruct Hp' as [-> | ->].
  2:{ exists true. done. }
  rewrite Hn. simpl. destruct Hn' as [-> | ->].
  2:{ exists true. done. }
  exists false. split; [done|]. intros r c d Hd Hin Hthrough Hwin.
  by destruct (Hfound r c d Hd Hin Hthrough Hwin).
Qed.

(** In [wrapped_read] the call at (3,0) reaches the negative-diagonal check,
    which reads column -1, that is column 6; in [four_in_bottom_row] the
    call at (5,3) finds the row. *)
Example is_winning_move_samples :
  getitem wrapped_read 2 1 = Some 1 ∧ getitem wrapped_read 3 0 = Some 1
  ∧ getitem wrapped_read 4 (-1) = getitem wrapped_read 4 6
  ∧ is_winning_move wrapped_read 3 0 = Some false
  ∧ is_winning_move four_in_bottom_row 5 3 = Some true.
Proof. split_and!; vm_compute; reflexivity. Qed.

Lemma is_winning_move_detects_rows_and_columns_witness :
  is_winning_move four_in_bottom_row 5 3 = Some true
  ∧ ∃ b, is_winning_move wrapped_read 3 0 = Some b
      ∧ ∀ r c d, d = (0, 1) ∨ d = (1, 0) →
          forallb (in_board wrapped_read) (window_cells r c d) = true →
          (3, 0) ∈ window_cells r c d →
          window_of wrapped_read (current_player wrapped_read)
                    (window_cells r c d) →
          b = true.
Proof.
  split.
  - destruct (is_winning_move_detects_rows_and_columns four_in_bottom_row 5 3)
      as (b & -> & Hall).
    + unfold wf. split_and!; [done..|]. repeat constructor.
    + vm_compute. congruence.
    + vm_compute. split; congruence.
    + vm_compute. split; congruence.
    + f_equal. apply (Hall 5 0 (0, 1)).
      * by left.
      * vm_compute. reflexivity.
      * do 3 right. left.
      * intros rc Hrc.
        repeat (apply elem_of_cons in Hrc as [-> | Hrc]; [reflexivity|]).
        inversion Hrc.
  - apply (is_winning_move_detects_rows_and_columns wrapped_read 3 0).
    + unfold wf. split_and!; [done..|]. repeat constructor.
    + vm_compute. congruence.
    + vm_compute. split; congruence.
    + vm_compute. split; congruence.
Defined.

(** ** The heuristic seen from both players *)

Lemma evaluate_window_opponent w p :
  evaluate_window w (3 - p) = - evaluate_window w p.
Proof.
  unfold evaluate_window, THREE_IN_ROW, TWO_IN_ROW.
  replace (3 - (3 - p)) with p by lia.
  repeat case_bool_decide; lia.
Qed.

(** Two loops over the same list whose bodies add opposite amounts add
    opposite amounts. *)
Lemma for_opposite {A} (l : list A) (f f' : Z → A → option Z) :
  (∀ s s' x, f' s' x = (λ r, s' - (r - s)) <$> f s x) →
  ∀ s s', Py.for_ l f' s' = (λ r, s' - (r - s)) <$> Py.for_ l f s.
Proof.
  intros Hf. induction l as [|x l IH]; intros s s'; simpl.
  - f_equal. lia.
  - rewrite (Hf s s' x). destruct (f s x) as [r|]; simpl; [|done].
    rewrite (IH r (s' - (r - s))). destruct (Py.for_ l f r); simpl; [|done].
    f_equal. lia.
Qed.

Lemma window_loops_opposite g p (outer inner : list Z) (cell : Z → Z → Z → Z * Z) :
  ∀ s s',
    Py.for_ outer (λ score a,
      Py.for_ inner (λ score b, add_window g (3 - p) (cell a b) score) score) s'
    = (λ r, s' - (r - s)) <$>
      Py.for_ outer (λ score a,
        Py.for_ inner (λ score b, add_window g p (cell a b) score) score) s.
Proof.
  apply for_opposite. intros s s' a. apply for_opposite. clear s s'.
  intros s s' b. unfold add_window.
  destruct (window4 g (cell a b)) as [w|]; simpl; [|done].
  rewrite evaluate_window_opponent. f_equal. lia.
Qed.

Lemma window_score_opponent_aux (g : Connect4) (p : Z) :
  window_score g (3 - p) = Z.opp <$> window_score g p.
Proof.
  unfold window_score.
  rewrite (window_loops_opposite g p _ _ (λ row col i, (row, col + i)) 0 0).
  destruct (Py.for_ (Py.range 0 (rows g - 3)) _ 0) as [s1|]; simpl; [|done].
  rewrite (window_loops_opposite g p _ _ (λ col row i, (row + i, col)) s1).
  destruct (Py.for_ (Py.range 0 (cols g)) _ s1) as [s2|]; simpl; [|done].
  rewrite (window_loops_opposite g p _ _ (λ row col i, (row + i, col + i)) s2).
  destruct (Py.for_ (Py.range 0 (rows g - 3)) _ s2) as [s3|]; simpl; [|done].
  rewrite (window_loops_opposite g p _ _ (λ row col i, (row - i, col + i)) s3).
  destruct (Py.for_ (Py.range 3 (rows g)) _ s3) as [s4|]; simpl; [|done].
  f_equal. lia.
Qed.

(** X9: the four window loops of [evaluate_position] are antisymmetric in
    the player: seen from the opponent [3 - player] they give the opposite
    score (and raise exactly when they raise for [player]). *)
Theorem window_score_opponent_is_opposite (g : Connect4) (p : Z) :
  window_score g (3 - p) = Z.opp <$> window_score g p.
Proof.
  unfold window_score.
  rewrite (window_loops_opposite g p _ _ (λ row col i, (row, col + i)) 0 0).
  destruct (Py.for_ (Py.range 0 (rows g - 3)) _ 0) as [s1|]; simpl; [|done].
  rewrite (window_loops_opposite g p _ _ (λ col row i, (row + i, col)) s1).
  destruct (Py.for_ (Py.range 0 (cols g)) _ s1) as [s2|]; simpl; [|done].
  rewrite (window_loops_opposite g p _ _ (λ row col i, (row + i, col + i)) s2).
  destruct (Py.for_ (Py.range 0 (rows g - 3)) _ s2) as [s3|]; simpl; [|done].
  rewrite (window_loops_opposite g p _ _ (λ row col i, (row - i, col + i)) s3).
  destruct (Py.for_ (Py.range 3 (rows g)) _ s3) as [s4|]; simpl; [|done].
  f_equal. lia.
Qed.

(** X10: [evaluate_position] is zero-sum on decided positions and not on
    ongoing ones: when the state is 1, 2 or 3 the evaluations of the two
    players are opposite, and on an ongoing position they add up to the
    center bonus of all the tokens on the board. *)
Theorem evaluate_position_sum_of_both_players (g : Connect4) (p st : Z) :
  wf g → is_player p → get_game_state g = Some st → 0 ≤ st ≤ 3 →
  ∃ e e', evaluate_position g p = Some e
    ∧ evaluate_position g (3 - p) = Some e'
    ∧ e + e' = if bool_decide (st = 0)
               then Zsum ((λ rc, center_term g rc.2) <$> cells_of g p)
                    + Zsum ((λ rc, center_term g rc.2) <$> cells_of g (3 - p))
               else 0.
Proof.
  intros Hwf Hp Hst Hrange. unfold evaluate_position. rewrite Hst. simpl.
  replace (3 - (3 - p)) with p by lia.
  rewrite window_score_opponent_aux, !center_bonus_sum by done.
  destruct (window_score_total g p Hwf) as [s ->]. simpl.
  destruct Hp as [-> | ->];
    repeat (case_bool_decide; try lia); eexists _, _;
    (split_and!; [reflexivity..|lia]).
Qed.

Lemma evaluate_position_sum_of_both_players_witness :
  ∃ e e', evaluate_position many_threats 1 = Some e
    ∧ evaluate_position many_threats (3 - 1) = Some e'
    ∧ e + e' = if bool_decide (0 = 0)
               then Zsum ((λ rc, center_term many_threats rc.2)
                            <$> cells_of many_threats 1)
                    + Zsum ((λ rc, center_term many_threats rc.2)
                              <$> cells_of many_threats (3 - 1))
               else 0.
Proof.
  apply (evaluate_position_sum_of_both_players many_threats 1 0).
  - unfold wf. split_and!; [done..|]. repeat constructor.
  - by left.
  - vm_compute. reflexivity.
  - lia.
Defined.

(** ** The searches *)

(** X11: alpha-beta is fail-soft for every open window and on both kinds of
    layer: the call terminates with a finite score and leaves the board as
    it found it; a score inside the window is the minimax score, a score at
    or below [alpha] is an upper bound of the minimax score, a score at or
    above [beta] a lower bound. *)
Theorem alpha_beta_fail_soft (g : Connect4) (d : Z) (a b : score) (m : bool)
    (p : Z) :
  wf g → is_player p → slt a b →
  ∃ v cv s cs,
    minimax_basic (search_fuel g) g d m p = Some ((Fin v, cv), g)
    ∧ minimax_ab (search_fuel g) g d a b m p = Some ((Fin s, cs), g)
    ∧ (slt a (Fin s) → slt (Fin s) b → s = v)
    ∧ (sle (Fin s) a → v ≤ s)
    ∧ (sle b (Fin s) → s ≤ v).
Proof.
  intros Hwf Hp Hab.
  destruct (ab_bounds (search_fuel g) g d m p Hwf Hp) as (v & cv & Hv & Hs).
  { unfold search_fuel. lia. }
  destruct (Hs a b Hab) as (s & cs & Hs' & Hle & Hge & Hin).
  exists v, cv, s, cs. split_and!; [done..| | |].
  - intros H1 H2. exact (Hin H1 H2).
  - intros H1. exact (Hle H1).
  - intros H1. exact (Hge H1).
Qed.

Lemma alpha_beta_fail_soft_witness :
  ∃ v cv s cs,
    minimax_basic (search_fuel three_bottom_left) three_bottom_left 2 false 1
      = Some ((Fin v, cv), three_bottom_left)
    ∧ minimax_ab (search_fuel three_bottom_left) three_bottom_left 2
                 (Fin 0) (Fin 50) false 1
      = Some ((Fin s, cs), three_bottom_left)
    ∧ (slt (Fin 0) (Fin s) → slt (Fin s) (Fin 50) → s = v)
    ∧ (sle (Fin s) (Fin 0) → v ≤ s)
    ∧ (sle (Fin 50) (Fin s) → s ≤ v).
Proof.
  apply (alpha_beta_fail_soft three_bottom_left 2 (Fin 0) (Fin 50) false 1).
  - unfold wf. split_and!; [done..|]. repeat constructor.
  - by left.
  - simpl. lia.
Defined.

(** Loops whose bodies agree on the states that occur. *)
Lemma for_ext_inv {A S} (I : S → Prop) (l : list A) (f f' : S → A → option S) :
  (∀ s x, I s → x ∈ l →
     f s x = f' s x ∧ ∀ s', f s x = Some s' → I s') →
  ∀ s, I s → Py.for_ l f s = Py.for_ l f' s.
Proof.
  induction l as [|x l IH]; intros Hf s Hs; simpl; [done|].
  destruct (Hf s x Hs) as [<- Hnext]; [left|].
  destruct (f s x) as [s'|]; simpl; [|done].
  apply IH; [|by apply Hnext]. intros s0 y Hs0 Hy. apply Hf; [done|by right].
Qed.

Lemma for_break_ext_inv {A S} (I : S → Prop) (l : list A)
    (f f' : S → A → option (S * bool)) :
  (∀ s x, I s → x ∈ l →
     f s x = f' s x ∧ ∀ r, f s x = Some r → I r.1) →
  ∀ s, I s → Py.for_break l f s = Py.for_break l f' s.
Proof.
  induction l as [|x l IH]; intros Hf s Hs; simpl; [done|].
  destruct (Hf s x Hs) as [<- Hnext]; [left|].
  destruct (f s x) as [[s' brk]|]; simpl; [|done].
  destruct brk; [done|].
  apply IH; [|by apply (Hnext (s', false))].
  intros s0 y Hs0 Hy. apply Hf; [done|by right].
Qed.

Lemma exhaustive_step g g1 d :
  exhaustive g d → S (count_empty g1) = count_empty g → exhaustive g1 (d - 1).
Proof. unfold exhaustive. lia. Qed.

Lemma exhaustive_depth fuel :
  ∀ g d d' m p, wf g → is_player p → (count_empty g < fuel)%nat →
    exhaustive g d → exhaustive g d' →
    minimax_basic fuel g d m p = minimax_basic fuel g d' m p
    ∧ ∀ a b, minimax_ab fuel g d a b m p = minimax_ab fuel g d' a b m p.
Proof.
  induction fuel as [|fuel IH]; intros g d d' m p Hwf Hp Hfuel Hd Hd'; [lia|].
  assert (d ≠ 0) as Hd0 by (unfold exhaustive in Hd; lia).
  assert (d' ≠ 0) as Hd0' by (unfold exhaustive in Hd'; lia).
  rewrite !minimax_basic_S. setoid_rewrite minimax_ab_S.
  rewrite !bool_decide_eq_false_2 by done.
  destruct (get_game_state g) as [st|]; simpl; [|done].
  case_bool_decide; [done|].
  destruct (get_valid_moves g) as [vm|] eqn:Hvm; simpl; [|done].
  case_bool_decide; [done|].
  destruct (head vm) as [c0|]; simpl; [|done].
  assert (∀ col, col ∈ vm →
            ∃ row g1, simulate_move g col (mover m p) = Some ((Some row, col), g1)
              ∧ undo_move g1 (Some row, col) = Some g
              ∧ (∃ z c, minimax_basic fuel g1 (d - 1) (negb m) p
                        = Some ((Fin z, c), g1)
                        ∧ minimax_basic fuel g1 (d' - 1) (negb m) p
                          = Some ((Fin z, c), g1))
              ∧ ∀ a b, ∃ z c, minimax_ab fuel g1 (d - 1) a b (negb m) p
                              = Some ((Fin z, c), g1)
                              ∧ minimax_ab fuel g1 (d' - 1) a b (negb m) p
                                = Some ((Fin z, c), g1)) as Hchild.
  { intros col Hcol.
    destruct (simulate_move_valid g vm col (mover m p))
      as (row & g1 & Hs & Hwf1 & Hc1 & Hu);
      [done|done|done|by apply is_player_mover|].
    exists row, g1. split; [done|]. split; [done|].
    assert (count_empty g1 < fuel)%nat as Hfuel1 by lia.
    destruct (IH g1 (d - 1) (d' - 1) (negb m) p Hwf1 Hp Hfuel1) as [Eb Ea];
      [by eapply exhaustive_step..|].
    destruct (minimax_total fuel g1 (d - 1) (negb m) p Hwf1 Hp Hfuel1)
      as [(z & c & Hz) Hab].
    split.
    - exists z, c. split; [done|]. by rewrite <- Eb.
    - intros a b. destruct (Hab a b) as (z' & c' & Hz').
      exists z', c'. split; [done|]. by rewrite <- Ea. }
  split.
  - rewrite (for_ext_inv (λ s : score * Z * Connect4, s.2 = g) vm
               (basic_body m fuel d p) (basic_body m fuel d' p)); [done| |done].
    intros [[bs bc] g0] col Hg0 Hcol. simpl in Hg0. subst g0.
    destruct (Hchild col Hcol) as (row & g1 & Hs & Hu & (z & c & Hz & Hz') & _).
    destruct (basic_body_eq m fuel d p g g1 row col bs bc _ _ Hs Hu Hz) as [-> _].
    destruct (basic_body_eq m fuel d' p g g1 row col bs bc _ _ Hs Hu Hz')
      as [-> _].
    split; [done|]. by intros s' [= <-].
  - intros a b.
    rewrite (for_break_ext_inv (λ s : score * Z * score * Connect4, s.2 = g) vm
               (ab_body m fuel d (if m then b else a) p)
               (ab_body m fuel d' (if m then b else a) p)); [done| |done].
    intros [[[bs bc] w] g0] col Hg0 Hcol. simpl in Hg0. subst g0.
    destruct (Hchild col Hcol) as (row & g1 & Hs & Hu & _ & Hab).
    destruct (Hab (if m then w else if m then b else a)
                  (if m then if m then b else a else w)) as (z & c & Hz & Hz').
    destruct (ab_body_eq m fuel d (if m then b else a) p g g1 row col bs bc w
                _ _ Hs Hu Hz) as [-> _].
    destruct (ab_body_eq m fuel d' (if m then b else a) p g g1 row col bs bc w
                _ _ Hs Hu Hz') as [-> _].
    split; [done|]. by intros r [= <-].
Qed.

(** X12: the depth limit only matters while it can be used up.  Every
    negative depth and every depth greater than the number of empty cells
    gives the same result, score and column, in both searches: the search is
    then exhaustive, because [depth == 0] is never met before the game is
    decided. *)
Theorem depth_beyond_empty_cells_is_exhaustive (g : Connect4) (d d' : Z)
    (m : bool) (p : Z) (a b : score) (ab : bool) :
  wf g → is_player p → exhaustive g d → exhaustive g d' →
  minimax_basic (search_fuel g) g d m p = minimax_basic (search_fuel g) g d' m p
  ∧ minimax_ab (search_fuel g) g d a b m p
    = minimax_ab (search_fuel g) g d' a b m p
  ∧ get_best_move (mkMinimaxPlayer d ab) g p
    = get_best_move (mkMinimaxPlayer d' ab) g p.
Proof.
  intros Hwf Hp Hd Hd'.
  assert (count_empty g < search_fuel g)%nat as Hfuel by (unfold search_fuel; lia).
  destruct (exhaustive_depth (search_fuel g) g d d' m p Hwf Hp Hfuel Hd Hd')
    as [Eb Ea].
  destruct (exhaustive_depth (search_fuel g) g d d' true p Hwf Hp Hfuel Hd Hd')
    as [Eb' Ea'].
  split; [done|]. split; [done|].
  unfold get_best_move. cbn [use_alpha_beta depth].
  destruct ab; [by rewrite Ea'|by rewrite Eb'].
Qed.

Lemma depth_beyond_empty_cells_is_exhaustive_witness :
  minimax_basic (search_fuel many_threats) many_threats (-1) true 1
  = minimax_basic (search_fuel many_threats) many_threats 22 true 1
  ∧ minimax_ab (search_fuel many_threats) many_threats (-1) NegInf PosInf true 1
    = minimax_ab (search_fuel many_threats) many_threats 22 NegInf PosInf true 1
  ∧ get_best_move (mkMinimaxPlayer (-1) true) many_threats 1
    = get_best_move (mkMinimaxPlayer 22 true) many_threats 1.
Proof.
  apply (depth_beyond_empty_cells_is_exhaustive many_threats (-1) 22 true 1
           NegInf PosInf true).
  - unfold wf. split_and!; [done..|]. repeat constructor.
  - by left.
  - left. lia.
  - right. vm_compute. reflexivity.
Defined.

(** The score of a position that the player has won. *)
Lemma won_position_score fuel g d m p :
  is_player p → get_game_state g = Some p → (0 < fuel)%nat →
  minimax_basic fuel g d m p = Some ((Fin 1000, None), g).
Proof.
  intros Hp Hst Hfuel. destruct fuel as [|fuel]; [lia|].
  rewrite minimax_basic_S.
  assert (leaf g p = Some ((Fin 1000, None), g)) as Hleaf.
  { unfold leaf, evaluate_position. rewrite Hst. simpl.
    by rewrite bool_decide_eq_true_2. }
  case_bool_decide; [done|]. rewrite Hst. simpl.
  rewrite bool_decide_eq_true_2; [done|]. by apply is_player_nonzero.
Qed.

(** X13: when the player to move has a legal move that gives four in a row
    at once, the search of any depth other than 0 reports a score of at
    least 1000 for the position, with and without alpha-beta. *)
Theorem winning_move_scores_at_least_1000 (g : Connect4) (d p col : Z)
    (vm : list Z) (u : undo_info) (g1 : Connect4) :
  wf g → is_player p → inner_node g d vm → col ∈ vm →
  simulate_move g col p = Some (u, g1) → get_game_state g1 = Some p →
  ∃ z bc,
    minimax_basic (search_fuel g) g d true p = Some ((Fin z, Some bc), g)
    ∧ minimax_ab (search_fuel g) g d NegInf PosInf true p
      = Some ((Fin z, Some bc), g)
    ∧ bc ∈ vm ∧ 1000 ≤ z.
Proof.
  intros Hwf Hp Hin Hcol Hsim Hwon.
  assert (Hvm := Hin). destruct Hvm as (_ & _ & Hvm & _).
  destruct (simulate_move_valid g vm col p Hwf Hvm Hcol)
    as (row & g1' & Hs & Hwf1 & Hc1 & Hu); [by apply is_player_nonzero|].
  rewrite Hsim in Hs. injection Hs as -> <-.
  destruct (basic_layer true (count_empty g) g d p vm Hwf Hp Hin)
    as (z & bc & tr & Hb & Htr & Hch & Hfb).
  { intros g2 Hwf2 Hc2.
    destruct (minimax_total (count_empty g) g2 (d - 1) false p Hwf2 Hp)
      as [H _]; [lia|done]. }
  destruct (root_call_agrees (search_fuel g) g d p Hwf Hp) as (r & Hrb & Hra).
  { unfold search_fuel. lia. }
  unfold search_fuel in *. rewrite Hb in Hrb. injection Hrb as <-.
  exists z, bc. split; [done|]. split; [done|]. split.
  { rewrite <- Htr. by eapply first_best_elem. }
  assert (col ∈ tr.*1) as Hcoltr by (by rewrite Htr).
  apply list_elem_of_fmap in Hcoltr as ([c s] & -> & Hcs). simpl in *.
  pose proof (Hch c s Hcs) as Hscore. unfold child_score_basic in Hscore.
  simpl in Hscore. rewrite Hsim in Hscore. simpl in Hscore.
  rewrite (won_position_score (count_empty g) g1 (d - 1) false p Hp Hwon)
    in Hscore by lia.
  simpl in Hscore. injection Hscore as <-.
  destruct Hfb as (t1 & t2 & -> & H1 & H2).
  apply elem_of_app in Hcs as [Hcs|Hcs].
  - specialize (H1 c _ Hcs). simpl in H1. apply bool_decide_eq_true in H1. lia.
  - apply elem_of_cons in Hcs as [[= _ ->]|Hcs]; [lia|].
    specialize (H2 c _ Hcs). simpl in H2. apply bool_decide_eq_false in H2. lia.
Qed.

Lemma winning_move_scores_at_least_1000_witness :
  ∃ z bc,
    minimax_basic (search_fuel three_bottom_left) three_bottom_left 1 true 1
      = Some ((Fin z, Some bc), three_bottom_left)
    ∧ minimax_ab (search_fuel three_bottom_left) three_bottom_left 1
                 NegInf PosInf true 1
      = Some ((Fin z, Some bc), three_bottom_left)
    ∧ bc ∈ [0; 1; 2; 3; 4; 5; 6] ∧ 1000 ≤ z.
Proof.
  apply (winning_move_scores_at_least_1000 three_bottom_left 1 1 3
           [0; 1; 2; 3; 4; 5; 6] (Some 5, 3)
           (of_board [ [0;0;0;0;0;0;0]; [0;0;0;0;0;0;0]; [0;0;0;0;0;0;0];
                       [0;0;0;0;0;0;0]; [0;0;0;0;0;0;0]; [1;1;1;1;0;0;0] ])).
  - unfold wf. split_and!; [done..|]. repeat constructor.
  - by left.
  - unfold inner_node. split_and!; [done|vm_compute; reflexivity..|done].
  - do 3 right. left.
  - vm_compute. reflexivity.
  - vm_compute. reflexivity.
Defined.

(** ** The tree search *)

Lemma ongoing_has_move g :
  wf g → get_game_state g = Some 0 →
  ∃ vm, get_valid_moves g = Some vm ∧ vm ≠ [].
Proof.
  intros Hwf Hst.
  destruct (get_valid_moves g) as [vm|] eqn:Hvm.
  2:{ by rewrite get_valid_moves_wf in Hvm. }
  exists vm. split; [done|]. intros ->.
  unfold get_game_state in Hst.
  destruct (win_scan_spec g Hwf) as (w & Hw & Hspec). rewrite Hw in Hst.
  simpl in Hst. destruct w as [p|].
  { destruct Hspec as [Hp _]. congruence. }
  destruct (top_row_spec g Hwf) as (full & Hfull & Htop).
  rewrite Hfull in Hst. simpl in Hst. destruct full; [done|].
  destruct Htop as (c & Hc & H0).
  assert (c ∈ @nil Z) as Hin by (by apply (elem_of_valid_moves g [] c Hwf Hvm)).
  inversion Hin.
Qed.

Lemma rollout_playout `{Runtime} fuel :
  ∀ g q tick, wf g → is_player q → (count_empty g < fuel)%nat →
    ∃ r tick' g',
      rollout fuel g q tick = Some (r, tick')
      ∧ playout g q g' ∧ get_game_state g' = Some r ∧ r ≠ 0
      ∧ (tick ≤ tick' ≤ tick + count_empty g)%nat
      ∧ (get_game_state g ≠ Some 0 → g' = g ∧ tick' = tick).
Proof.
  induction fuel as [|fuel IH]; intros g q tick Hwf Hq Hfuel; [lia|].
  simpl. destruct (get_game_state_total g Hwf) as [st Hst]. rewrite Hst. simpl.
  case_bool_decide as Hst0; simpl.
  - subst st. destruct (ongoing_has_move g Hwf Hst) as (vm & Hvm & Hne).
    rewrite Hvm. simpl. rewrite bool_decide_eq_true_2 by (destruct vm; simpl; [done|lia]).
    destruct (random_choice_total vm tick Hne) as (mv & -> & Hmv). simpl.
    destruct (simulate_move_valid g vm mv q Hwf Hvm Hmv (is_player_nonzero q Hq))
      as (row & g1 & Hs & Hwf1 & Hc1 & _).
    rewrite Hs. simpl.
    destruct (IH g1 (3 - q) (S tick) Hwf1 (is_player_other q Hq))
      as (r & tick' & g' & -> & Hplay & Hr & Hr0 & Htick & _); [lia|].
    exists r, tick', g'. split_and!; [done| |done|done|lia|lia|done].
    by eapply playout_move.
  - exists st, tick, g. split_and!; [done|constructor|done|done|lia|lia|done].
Qed.

(** X14: [simulate] on a node with a well-shaped board, whose
    [player_who_moved] is [None] (as for [Node(game)]) or a player, always
    returns, and never the value 0: the result is the state of a decided
    position that is reached from the node's position by legal moves of the
    alternating players.  It draws at most one random number per empty cell,
    and none at all when the node's position is already decided, whose
    state it then returns. *)
Theorem simulate_ends_in_a_decided_position `{Runtime} (h : list Node) (n : nat)
    (nd : Node) (tick : nat) :
  h !! n = Some nd → wf (game_state nd) →
  (∀ q, player_who_moved nd = Some q → is_player q) →
  ∃ r tick' g',
    simulate h n tick = Some (r, tick')
    ∧ playout (game_state nd) (get_next_player nd) g'
    ∧ get_game_state g' = Some r ∧ r ≠ 0
    ∧ (tick ≤ tick' ≤ tick + count_empty (game_state nd))%nat
    ∧ (get_game_state (game_state nd) ≠ Some 0 →
       g' = game_state nd ∧ tick' = tick).
Proof.
  intros Hn Hwf Hpl. unfold simulate. rewrite Hn. cbn [mbind option_bind].
  rewrite copy_game_id.
  apply rollout_playout; [done| |lia].
  unfold get_next_player. destruct (player_who_moved nd) as [q|].
  - apply is_player_other. by apply Hpl.
  - by left.
Qed.

Lemma simulate_ends_in_a_decided_position_witness :
  ∃ r tick' g',
    @simulate test_runtime chain_of_three 0 0 = Some (r, tick')
    ∧ playout (new_game 6 7) 1 g'
    ∧ get_game_state g' = Some r ∧ r ≠ 0
    ∧ (0 ≤ tick' ≤ 0 + count_empty (new_game 6 7))%nat
    ∧ (get_game_state (new_game 6 7) ≠ Some 0 →
       g' = new_game 6 7 ∧ tick' = 0%nat).
Proof.
  apply (@simulate_ends_in_a_decided_position test_runtime chain_of_three 0
           {| game_state := new_game 6 7; move := None; parent := None;
              player_who_moved := None; visits := 0; wins2 := 0;
              children := [1%nat]; untried_moves := [0; 1; 2; 3; 4; 5] |} 0).
  - reflexivity.
  - exact wf_new_game.
  - intros q Hq. discriminate Hq.
Defined.

Lemma credit_eq result nd :
  (if bool_decide (Some result = player_who_moved nd) then wins2 nd + 2
   else if bool_decide (result = 3) then wins2 nd + 1
   else wins2 nd) = wins2 nd + credit result nd.
Proof. unfold credit. repeat case_bool_decide; lia. Qed.

Lemma backpropagate_wins fuel :
  ∀ h n result, parents_ok h → (n < length h)%nat → (n < fuel)%nat →
    ∃ h', backpropagate fuel h n result = Some h'
      ∧ (∀ k nd, on_path h n k → h !! k = Some nd →
           wins2_at h' k = Some (wins2 nd + credit result nd))
      ∧ (∀ k, ¬ on_path h n k → wins2_at h' k = wins2_at h k).
Proof.
  induction fuel as [|fuel IH]; intros h n result Hpar Hn Hfuel; [lia|].
  simpl. destruct (lookup_lt_is_Some_2 h n Hn) as [nd Hnd]. rewrite Hnd. simpl.
  rewrite credit_eq.
  set (nd' := set_visits_wins nd _ _).
  assert (∀ i, parent <$> <[n := nd']> h !! i = parent <$> h !! i) as Hsame.
  { intros i. destruct (decide (i = n)) as [->|Hne].
    - rewrite list_lookup_insert_eq by done. by rewrite Hnd.
    - by rewrite list_lookup_insert_ne. }
  destruct (parent nd) as [p|] eqn:Hp.
  - pose proof (Hpar n nd p Hnd Hp) as Hlt.
    assert (parents_ok (<[n := nd']> h)) as Hpar'.
    { intros i x q Hi Hq. pose proof (Hsame i) as E. rewrite Hi in E. simpl in E.
      destruct (h !! i) as [y|] eqn:Hy; [|done]. injection E as E.
      apply (Hpar i y q Hy). congruence. }
    destruct (IH (<[n := nd']> h) p result Hpar') as (h' & Hb & Hon & Hoff).
    { rewrite length_insert. lia. }
    { lia. }
    exists h'. split_and!; [done|..].
    + intros k kd Hk Hkd. destruct (decide (k = n)) as [->|Hne].
      * rewrite Hoff.
        { unfold wins2_at. rewrite list_lookup_insert_eq by done.
          rewrite Hnd in Hkd. by injection Hkd as <-. }
        intros Hbad. apply (on_path_le _ _ _ Hpar') in Hbad. lia.
      * apply Hon; [|by rewrite list_lookup_insert_ne].
        inversion Hk; simplify_eq. by apply (on_path_static h).
    + intros k Hk. rewrite Hoff.
      * unfold wins2_at. rewrite list_lookup_insert_ne; [done|].
        intros ->. apply Hk. constructor.
      * intros Hbad. apply Hk. eapply on_path_up; [done..|].
        apply (on_path_static (<[n:=nd']> h)); [|done].
        intros i. by rewrite Hsame.
  - exists (<[n := nd']> h). split_and!; [done| |].
    + intros k kd Hk Hkd. inversion Hk; simplify_eq.
      unfold wins2_at. by rewrite list_lookup_insert_eq by done.
    + intros k Hk. unfold wins2_at. rewrite list_lookup_insert_ne; [done|].
      intros ->. apply Hk. constructor.
Qed.

(** X15: [backpropagate] credits the result along the path and nowhere
    else: on the node and on each of its ancestors [wins] grows by 1 when
    the result is the player who moved into that node, by 0.5 when the
    result is a draw (3), and by nothing otherwise; the [wins] of the nodes
    off the path are left as they were. *)
Theorem backpropagate_credits_the_path (h : list Node) (n : nat) (result : Z) :
  parents_ok h → (n < length h)%nat →
  ∃ h', backpropagate (length h) h n result = Some h'
    ∧ (∀ k nd, on_path h n k → h !! k = Some nd →
         wins2_at h' k = Some (wins2 nd + credit result nd))
    ∧ (∀ k, ¬ on_path h n k → wins2_at h' k = wins2_at h k).
Proof.
  intros Hpar Hn.
  destruct (backpropagate_wins (length h) h n result Hpar Hn Hn)
    as (h' & Hb & Hon & Hoff).
  exists h'. split; [done|]. split.
  - intros k nd Hk Hnd. by apply Hon.
  - intros k Hk. by apply Hoff.
Qed.

Lemma backpropagate_credits_the_path_witness :
  ∃ h', backpropagate (length chain_of_three) chain_of_three 2 1 = Some h'
    ∧ (∀ k nd, on_path chain_of_three 2 k → chain_of_three !! k = Some nd →
         wins2_at h' k = Some (wins2 nd + credit 1 nd))
    ∧ (∀ k, ¬ on_path chain_of_three 2 k →
         wins2_at h' k = wins2_at chain_of_three k).
Proof.
  apply (backpropagate_credits_the_path chain_of_three 2 1).
  - intros i nd p Hi Hp.
    destruct i as [|[|[|i]]]; simpl in Hi; simplify_eq; simpl in Hp;
      simplify_eq; lia.
  - simpl. lia.
Defined.

Lemma range_empty lo hi : hi ≤ lo → Py.range lo hi = [].
Proof.
  intros Hle. unfold Py.range, seqZ.
  replace (Z.to_nat (hi - lo)) with 0%nat by lia. done.
Qed.

(** X16: without simulations ([simulations <= 0]) the loop of [get_move]
    does not run, the root has no children, and the fallback answers: one
    [random.choice] among the legal moves, made with the first draw of the
    generator, or column 0 when there is no legal move. *)
Theorem get_move_without_simulations `{Runtime} (self : MCTSPlayer)
    (game : Connect4) (player : Z) (vm : list Z) :
  simulations self ≤ 0 → get_valid_moves game = Some vm →
  get_move self game player
  = Some (Some (default 0 (vm !! (random_draw 0 `mod` length vm)%nat))).
Proof.
  intros Hsim Hvm. unfold get_move, run_simulations, Node_init.
  rewrite copy_game_id, Hvm. simpl. rewrite range_empty by lia. simpl.
  rewrite Hvm. simpl. case_bool_decide as Hne.
  - unfold random_choice.
    destruct (lookup_lt_is_Some_2 vm (random_draw 0 `mod` length vm)%nat)
      as [x Hx].
    { apply Nat.mod_upper_bound. by destruct vm. }
    rewrite Hx. done.
  - by subst vm.
Qed.

Lemma get_move_without_simulations_witness :
  @get_move test_runtime (mkMCTSPlayer 0) many_threats 1
  = Some (Some (default 0 ([0; 1; 2; 3; 4; 5; 6]
                             !! (@random_draw test_runtime 0
                                 `mod` length [0; 1; 2; 3; 4; 5; 6])%nat))).
Proof.
  apply (@get_move_without_simulations test_runtime (mkMCTSPlayer 0)
           many_threats 1 [0; 1; 2; 3; 4; 5; 6]).
  - simpl. lia.
  - vm_compute. reflexivity.
Defined.

(** X17: on a board without a legal move [get_move] answers column 0,
    whatever the number of simulations, although column 0 is full. *)
Theorem get_move_on_a_full_top_row `{Runtime} (self : MCTSPlayer)
    (game : Connect4) (player : Z) :
  no_nan → wf game → is_player player → get_valid_moves game = Some [] →
  get_move self game player = Some (Some 0)
  ∧ is_valid_location game 0 ≠ Some true.
Proof.
  intros Hnan Hwf Hp Hvm. split.
  - destruct (run_simulations_ok self game player Hnan Hwf Hp)
      as (h & tick & root & Hrun & Hok & Hroot & Hg & _).
    unfold get_move. rewrite Hrun. simpl. rewrite Hroot. simpl.
    destruct (Hok 0%nat root Hroot) as [(_ & _ & _ & _ & vm & cm & Hvm' & Happ & Hch) _].
    rewrite Hg, Hvm in Hvm'. injection Hvm' as <-.
    apply app_eq_nil in Happ as [_ Hcm].
    assert (cm = []) as -> by (by destruct cm using rev_ind;
                                [|rewrite reverse_snoc in Hcm]).
    apply Forall2_nil_inv_r in Hch. rewrite Hch, Hg, Hvm. done.
  - intros Hopen.
    assert (0 ∈ @nil Z) as Hin; [|inversion Hin].
    unfold is_valid_location in Hopen.
    destruct (getitem game 0 0) as [v|] eqn:E; [|done]. simpl in Hopen.
    injection Hopen as Hv%bool_decide_eq_true. subst v.
    apply (elem_of_valid_moves game [] 0 Hwf Hvm). split; [|done].
    apply getitem_Some in E as (i & j & row & Hi & Hrow & Hj & _).
    apply position_lt in Hj. destruct Hwf as (_ & _ & Hrows).
    rewrite Forall_forall in Hrows.
    pose proof (Hrows row (list_elem_of_lookup_2 _ _ _ Hrow)). lia.
Qed.

Lemma get_move_on_a_full_top_row_witness :
  @get_move test_runtime (mkMCTSPlayer 5)
     (of_board [ [1; 2; 1; 2]; [2; 1; 2; 1] ]) 1 = Some (Some 0)
  ∧ is_valid_location (of_board [ [1; 2; 1; 2]; [2; 1; 2; 1] ]) 0 ≠ Some true.
Proof.
  apply (@get_move_on_a_full_top_row test_runtime (mkMCTSPlayer 5)
           (of_board [ [1; 2; 1; 2]; [2; 1; 2; 1] ]) 1).
  - exact test_runtime_no_nan.
  - unfold wf. split_and!; [done..|]. repeat constructor.
  - by left.
  - vm_compute. reflexivity.
Defined.

Lemma credit_range result nd : 0 ≤ credit result nd ≤ 2.
Proof. unfold credit. repeat case_bool_decide; lia. Qed.

Lemma rates_ok_insert h n nd :
  rates_ok h → 0 ≤ wins2 nd ≤ 2 * visits nd → rates_ok (<[n := nd]> h).
Proof.
  intros Hok Hnd k kd Hk. destruct (decide (k = n)) as [->|Hne].
  - apply list_lookup_insert_Some in Hk as [(_ & <- & _)|[? _]]; done.
  - rewrite list_lookup_insert_ne in Hk by done. by eapply Hok.
Qed.

Lemma backpropagate_shape fuel :
  ∀ h n result h', backpropagate fuel h n result = Some h' →
    length h' = length h ∧ (rates_ok h → rates_ok h').
Proof.
  induction fuel as [|fuel IH]; intros h n result h'; [done|]. simpl.
  destruct (h !! n) as [nd|] eqn:Hnd; simpl; [|done].
  rewrite credit_eq. set (nd' := set_visits_wins nd _ _).
  assert (rates_ok h → rates_ok (<[n := nd']> h)) as Hins.
  { intros Hok. apply rates_ok_insert; [done|]. simpl.
    pose proof (Hok n nd Hnd). pose proof (credit_range result nd). lia. }
  destruct (parent nd) as [p|].
  - intros Hb. apply IH in Hb as [Hlen Hrates].
    rewrite length_insert in Hlen. split; [done|]. auto.
  - intros [= <-]. rewrite length_insert. split; [done|]. auto.
Qed.

Lemma expand_node_shape h n r h' :
  expand_node h n = Some (r, h') →
  (length h ≤ length h' ≤ S (length h))%nat ∧ (rates_ok h → rates_ok h').
Proof.
  unfold expand_node, Node_init.
  destruct (h !! n) as [nd|] eqn:Hnd; simpl; [|done].
  destruct (is_fully_expanded nd); simpl.
  { intros [= _ <-]. split; [lia|done]. }
  destruct (last (untried_moves nd)) as [mv|]; simpl; [|done].
  destruct (simulate_move _ mv _) as [[u g1]|]; simpl; [|done].
  destruct (get_valid_moves (copy_game g1)) as [vm|]; simpl; [|done].
  set (child := {| game_state := copy_game g1; move := Some mv;
                   parent := Some n; player_who_moved := _; visits := 0;
                   wins2 := 0; children := []; untried_moves := vm |}).
  destruct ((h ++ [child]) !! n) as [nd2|] eqn:Hnd2; simpl; [|done].
  intros [= _ <-]. rewrite length_insert, length_app. simpl. split; [lia|].
  intros Hok.
  assert (rates_ok (h ++ [child])) as Hok2.
  { intros k kd Hk. apply lookup_app_Some in Hk as [Hk|[_ Hk]].
    - by eapply Hok.
    - apply list_lookup_singleton_Some in Hk as [_ <-]. simpl. lia. }
  apply rates_ok_insert; [done|]. simpl. by eapply Hok2.
Qed.

Lemma expand_step_shape h n (term : bool) x h1 :
  (if negb term
   then '(expanded_node, h) ← expand_node h n;
        match expanded_node with
        | Some e => Some (e, h)
        | None => Some (n, h)
        end
   else Some (n, h)) = Some (x, h1) →
  (length h ≤ length h1 ≤ S (length h))%nat ∧ (rates_ok h → rates_ok h1).
Proof.
  destruct (negb term).
  - destruct (expand_node h n) as [[r h2]|] eqn:He; simpl; [|done].
    apply expand_node_shape in He.
    destruct r; by intros [= _ <-].
  - intros [= _ <-]. split; [lia|done].
Qed.

Lemma iteration_shape `{Runtime} root h tick h' tick' :
  iteration root (h, tick) = Some (h', tick') →
  (length h ≤ length h' ≤ S (length h))%nat ∧ (rates_ok h → rates_ok h').
Proof.
  unfold iteration.
  destruct (_select (length h) h root tick) as [[n tick1]|]; simpl; [|done].
  destruct (h !! n) as [nd|]; simpl; [|done].
  destruct (is_terminal nd) as [term|]; simpl; [|done].
  match goal with
  | |- context [mbind _ ?x] =>
      match x with
      | if negb term then _ else _ => destruct x as [[x1 h1]|] eqn:Hx
      end
  end; simpl; [|done].
  apply expand_step_shape in Hx as [Hlen Hrates].
  destruct (simulate h1 x1 tick1) as [[res tick2]|]; simpl; [|done].
  destruct (backpropagate (length h1) h1 x1 res) as [h2|] eqn:Hb; simpl; [|done].
  apply backpropagate_shape in Hb as [Hlen2 Hrates2].
  intros [= <- _]. split; [lia|auto].
Qed.

Lemma iterations_shape `{Runtime} root (l : list Z) :
  ∀ h tick h' tick',
    Py.for_ l (λ s _, iteration root s) (h, tick) = Some (h', tick') →
    (length h ≤ length h' ≤ length h + length l)%nat
    ∧ (rates_ok h → rates_ok h').
Proof.
  induction l as [|x l IH]; intros h tick h' tick'.
  - simpl. intros [= <- _]. split; [lia|done].
  - rewrite for_cons.
    destruct (iteration root (h, tick)) as [[h1 tick1]|] eqn:Hit;
      cbn [mbind option_bind]; [|done].
    apply iteration_shape in Hit as [Hlen Hrates].
    intros Hfor. apply IH in Hfor as [Hlen2 Hrates2].
    simpl length. split; [lia|auto].
Qed.

(** X18: the tree that [get_move] builds has at most one node per
    simulation besides the root, and in every node the wins lie between 0
    and the visits, so that the win rate of UCB1 lies between 0 and 1. *)
Theorem tree_size_and_win_rates `{Runtime} (self : MCTSPlayer)
    (game : Connect4) (player : Z) :
  no_nan → wf game → is_player player →
  ∃ h tick,
    run_simulations self game player = Some (h, tick)
    ∧ 1 ≤ Z.of_nat (length h) ≤ 1 + Z.max 0 (simulations self)
    ∧ rates_ok h.
Proof.
  intros Hnan Hwf Hp.
  destruct (run_simulations_ok self game player Hnan Hwf Hp)
    as (h & tick & root & Hrun & _).
  exists h, tick. split; [done|].
  unfold run_simulations, Node_init in Hrun.
  rewrite copy_game_id, (get_valid_moves_wf game Hwf) in Hrun. simpl in Hrun.
  apply iterations_shape in Hrun as [Hlen Hrates].
  pose proof (length_range 0 (simulations self)). simpl in Hlen.
  split; [lia|]. apply Hrates.
  intros k nd Hk. apply list_lookup_singleton_Some in Hk as [_ <-]. simpl. lia.
Qed.

Lemma tree_size_and_win_rates_witness :
  ∃ h tick,
    @run_simulations test_runtime (mkMCTSPlayer 3) (new_game 6 7) 1
    = Some (h, tick)
    ∧ 1 ≤ Z.of_nat (length h) ≤ 1 + Z.max 0 (simulations (mkMCTSPlayer 3))
    ∧ rates_ok h.
Proof.
  apply (@tree_size_and_win_rates test_runtime (mkMCTSPlayer 3) (new_game 6 7) 1).
  - exact test_runtime_no_nan.
  - exact wf_new_game.
  - by left.
Defined.

(** ** The move of the driver *)

Lemma is_winning_move_total g row col :
  wf g → 3 ≤ cols g → 0 ≤ row < rows g → 0 ≤ col < cols g →
  is_Some (is_winning_move g row col).
Proof.
  intros Hwf Hcols Hr Hc. unfold is_winning_move. cbv zeta. cbv beta.
  set (me := current_player g).
  set (rs := Py.range (Z.max 0 (row - 3)) (Z.min (rows g - 3) (row + 1))).
  set (cs := Py.range (Z.max 0 (col - 3)) (Z.min (cols g - 3) (col + 1))).
  set (cs_down := Py.range_down (Z.min (cols g - 1) (col + 3))
                                (Z.max (-1) (col - 4))).
  destruct (hit_loop cs (λ c, all4 g me (λ i, (row, c + i))))
    as (h & -> & Hh & _).
  { intros c Hc'%elem_of_range. apply all4_total. intros i Hi. simpl.
    apply getitem_wf; [done|lia..]. }
  destruct (hit_loop rs (λ r, all4 g me (λ i, (r + i, col))))
    as (v & Hv & Hv' & _).
  { intros r Hr'%elem_of_range. apply all4_total. intros i Hi. simpl.
    apply getitem_wf; [done|lia..]. }
  destruct (hit_loop (zip rs cs) (λ rc, all4 g me (λ i, (rc.1 + i, rc.2 + i))))
    as (p & Hp & Hp' & _).
  { intros [r c] Hrc. apply all4_total. intros i Hi. simpl.
    pose proof (elem_of_zip_l _ _ _ _ Hrc) as Hr'%elem_of_range.
    pose proof (elem_of_zip_r _ _ _ _ Hrc) as Hc'%elem_of_range.
    apply getitem_wf; [done|lia..]. }
  destruct (hit_loop (zip rs cs_down)
              (λ rc, all4 g me (λ i, (rc.1 + i, rc.2 - i))))
    as (n & Hn & Hn' & _).
  { intros [r c] Hrc. apply all4_total. intros i Hi. simpl.
    pose proof (elem_of_zip_l _ _ _ _ Hrc) as Hr'%elem_of_range.
    pose proof (elem_of_zip_r _ _ _ _ Hrc) as Hc'%elem_of_range_down.
    apply getitem_wrap; [done|lia..]. }
  simpl. destruct Hh as [-> | ->]; [|done].
  rewrite Hv. simpl. destruct Hv' as [-> | ->]; [|done].
  rewrite Hp. simpl. destruct Hp' as [-> | ->]; [|done].
  rewrite Hn. simpl. by destruct Hn' as [-> | ->].
Qed.

(** X19: [make_move] of the driver on a board of the right shape with at
    least 3 columns never raises.  On a full column it changes nothing.  On
    an open column it puts one token of the current player on the lowest
    empty cell and leaves the other cells alone; then either the game is
    over, with the player and the turn counter as they were, or the other
    player is to move, the turn counter is one higher and some column is
    still open. *)
Theorem make_move_places_one_token (self : GameInterface) (col : Z) :
  wf (game self) → 3 ≤ cols (game self) → 0 ≤ col < cols (game self) →
  ∃ self', make_move self col = Some self'
    ∧ (getitem (game self) 0 col ≠ Some 0 → self' = self)
    ∧ (getitem (game self) 0 col = Some 0 →
       ∃ row, get_next_open_row (game self) col = Some (Some row)
         ∧ (∀ r c, 0 ≤ r < rows (game self) → 0 ≤ c < cols (game self) →
              getitem (game self') r c
              = if decide (r = row ∧ c = col)
                then Some (current_player (game self))
                else getitem (game self) r c)
         ∧ ((game_over self' = true ∧ turn self' = turn self
             ∧ current_player (game self') = current_player (game self))
            ∨ (game_over self' = game_over self ∧ turn self' = turn self + 1
               ∧ current_player (game self') = 3 - current_player (game self)
               ∧ ∃ vm, get_valid_moves (game self') = Some vm ∧ vm ≠ []))).
Proof.
  intros Hwf Hcols Hc. destruct self as [g over t]. simpl in *.
  unfold make_move, is_valid_location. simpl.
  destruct (getitem_wf g 0 col Hwf) as [v Hv]; [destruct Hwf; lia|done|].
  rewrite Hv. simpl. case_bool_decide as Hv0.
  2:{ eexists. split_and!; [done|done|]. intros [= ?]. done. }
  subst v.
  destruct (get_next_open_row_valid g col Hwf Hc Hv) as [row Hrow].
  rewrite Hrow. simpl.
  pose proof (get_next_open_row_Some g col row Hrow) as [Hr H0].
  destruct (setitem_clear g row col (current_player g) H0) as (g1 & Hset & _).
  unfold drop_piece. rewrite Hset. simpl.
  pose proof (setitem_fields _ _ _ _ _ Hset) as (Hrows1 & Hcols1 & Hcur1).
  pose proof (setitem_wf _ _ _ _ _ Hwf Hset) as Hwf1.
  pose proof (getitem_setitem g row col _ g1 Hwf ltac:(lia) Hc Hset) as Hcells.
  destruct (is_winning_move_total g1 row col Hwf1) as [win ->]; [lia..|].
  simpl. destruct win.
  { eexists. split; [done|]. split; [by intros []|]. intros _. exists row.
    split_and!; [done|done|]. left. done. }
  rewrite (get_valid_moves_wf g1 Hwf1). simpl.
  case_bool_decide as Hlen.
  { eexists. split; [done|]. split; [by intros []|]. intros _. exists row.
    split_and!; [done|done|]. left. done. }
  eexists. split; [done|]. split; [by intros []|]. intros _. exists row.
  split_and!; [done|done|]. right. simpl. split_and!; [done|done|by rewrite Hcur1|].
  eexists. split.
  - exact (get_valid_moves_wf g1 Hwf1).
  - intros E. apply Hlen. by rewrite E.
Qed.

Lemma make_move_places_one_token_witness :
  ∃ self', make_move (mkGameInterface many_threats false 21) 2 = Some self'
    ∧ (getitem many_threats 0 2 ≠ Some 0 →
       self' = mkGameInterface many_threats false 21)
    ∧ (getitem many_threats 0 2 = Some 0 →
       ∃ row, get_next_open_row many_threats 2 = Some (Some row)
         ∧ (∀ r c, 0 ≤ r < rows many_threats → 0 ≤ c < cols many_threats →
              getitem (game self') r c
              = if decide (r = row ∧ c = 2)
                then Some (current_player many_threats)
                else getitem many_threats r c)
         ∧ ((game_over self' = true ∧ turn self' = 21
             ∧ current_player (game self') = current_player many_threats)
            ∨ (game_over self' = false ∧ turn self' = 21 + 1
               ∧ current_player (game self') = 3 - current_player many_threats
               ∧ ∃ vm, get_valid_moves (game self') = Some vm ∧ vm ≠ []))).
Proof.
  apply (make_move_places_one_token (mkGameInterface many_threats false 21) 2).
  - unfold wf. split_and!; [done..|]. repeat constructor.
  - vm_compute. congruence.
  - vm_compute. split; congruence.
Defined.

(** ** Selection and expansion *)

Lemma tree_ok_fresh_root : tree_ok None fresh_root.
Proof.
  intros i nd Hi. apply list_lookup_singleton_Some in Hi as [-> <-].
  split; [|done]. split_and!; [exact wf_new_game|done| |done|].
  - exists 2. split; [done|by right].
  - exists [0; 1; 2; 3; 4; 5; 6], []. split_and!; [|done|constructor].
    vm_compute. reflexivity.
Qed.

Lemma on_path_parent h a c cn n :
  on_path h a c → h !! c = Some cn → parent cn = Some n → on_path h a n.
Proof.
  induction 1 as [c|a ad p c Ha Hp _ IH]; intros Hc Hpar.
  - apply (on_path_up h c cn n n); [done..|constructor].
  - apply (on_path_up h a ad p n); [done..|]. by apply IH.
Qed.

Lemma select_none `{Runtime} h n nd tick tick' :
  h !! n = Some nd → select_best_child h n tick = Some (None, tick') →
  children nd = [].
Proof.
  intros Hn. unfold select_best_child. rewrite Hn. simpl.
  case_bool_decide; [done|].
  destruct (mapM (ucb1_score h) (children nd)) as [scores|]; simpl; [|done].
  destruct (head scores); simpl; [|done].
  destruct (mapM _ (children nd)) as [scored|]; simpl; [|done].
  by destruct (random_choice _ tick).
Qed.

(** A node of the tree whose position is ongoing and whose moves have all
    been tried has children. *)
Lemma inner_node_has_children h n nd :
  tree_ok None h → h !! n = Some nd →
  is_terminal nd = Some false → is_fully_expanded nd = true →
  children nd ≠ [].
Proof.
  intros Hok Hn Hterm Hfull.
  destruct (Hok n nd Hn) as [(Hwf & _ & _ & _ & vm & cm & Hvm & Hcm & Hf) _].
  unfold is_terminal in Hterm.
  destruct (get_game_state (game_state nd)) as [st|] eqn:Hst; [|done].
  simpl in Hterm. injection Hterm as Hterm. apply bool_decide_eq_false in Hterm.
  assert (st = 0) as -> by (destruct (decide (st = 0)); [done|by destruct Hterm]).
  destruct (ongoing_has_move _ Hwf Hst) as (vm' & Hvm' & Hne).
  rewrite Hvm in Hvm'. injection Hvm' as <-.
  unfold is_fully_expanded in Hfull. apply bool_decide_eq_true in Hfull.
  apply nil_length_inv in Hfull. rewrite Hfull in Hcm. simpl in Hcm.
  intros Hch. rewrite Hch in Hf. apply Forall2_nil_inv_l in Hf. subst cm.
  by apply Hne.
Qed.

Lemma select_stops fuel `{Runtime} :
  ∀ h n tick, no_nan → tree_ok None h → (n < length h)%nat →
    (length h ≤ fuel + n)%nat →
    ∃ n' tick' nd',
      _select fuel h n tick = Some (n', tick')
      ∧ h !! n' = Some nd' ∧ on_path h n' n
      ∧ (is_terminal nd' = Some true ∨ is_fully_expanded nd' = false).
Proof.
  induction fuel as [|fuel IH]; intros h n tick Hnan Hok Hn Hfuel; [lia|].
  simpl. destruct (lookup_lt_is_Some_2 h n Hn) as [nd Hnd]. rewrite Hnd. simpl.
  destruct (Hok n nd Hnd) as [Hnode _].
  destruct (is_terminal_total nd) as [term Hterm]; [apply Hnode|].
  rewrite Hterm. simpl.
  destruct term; simpl.
  { exists n, tick, nd. split_and!; [done|done|constructor|by left]. }
  destruct (is_fully_expanded nd) eqn:Hfull.
  2:{ exists n, tick, nd. split_and!; [done|done|constructor|by right]. }
  destruct (select_best_child_ok h n nd tick Hnan Hok Hnd)
    as (r & tick' & Hsel & Hr).
  rewrite Hsel. simpl. destruct r as [c|].
  - destruct (children_lookup h n nd c Hnode (Hr c eq_refl))
      as (Hlt & cn & _ & Hcn & Hpar & _).
    destruct (IH h c tick' Hnan Hok) as (n' & tick2 & nd' & -> & Hn' & Hpath & Hstop);
      [by eapply lookup_lt_Some|lia|].
    exists n', tick2, nd'. split_and!; [done|done| |done].
    by eapply on_path_parent.
  - exfalso. apply (inner_node_has_children h n nd Hok Hnd Hterm Hfull).
    by eapply select_none.
Qed.

(** X20: the selection of [get_move] always returns, and it stops at a
    node of the subtree it started from whose position is decided or which
    still has an untried move; the exit [best_child is None] is never
    taken, because an ongoing position has a legal move. *)
Theorem select_stops_where_work_remains `{Runtime} (h : list Node) (n : nat)
    (tick : nat) :
  no_nan → tree_ok None h → (n < length h)%nat →
  ∃ n' tick' nd',
    _select (length h) h n tick = Some (n', tick')
    ∧ h !! n' = Some nd' ∧ on_path h n' n
    ∧ (is_terminal nd' = Some true ∨ is_fully_expanded nd' = false).
Proof.
  intros Hnan Hok Hn.
  destruct (select_stops (length h) h n tick Hnan Hok Hn)
    as (n' & tick' & nd' & Hsel & Hn' & Hpath & Hstop); [lia|].
  exists n', tick', nd'. split_and!; [done..|].
  destruct Hstop as [Ht|Hf]; [by left|by right].
Qed.

Lemma tree_ok_expanded_root : tree_ok None expanded_root.
Proof.
  destruct (@run_simulations_ok test_runtime (mkMCTSPlayer 1) (new_game 2 1) 1
              test_runtime_no_nan) as (h & tick & root & Hrun & Hok & _).
  - unfold wf. split_and!; [done..|]. repeat constructor.
  - by left.
  - vm_compute in Hrun. injection Hrun as <- _. exact Hok.
Qed.

(** [expanded_root] is the tree after one simulation, and the selection
    from its root descends to the child. *)
Example expanded_root_selection :
  @run_simulations test_runtime (mkMCTSPlayer 1) (new_game 2 1) 1
  = Some (expanded_root, 1%nat)
  ∧ @_select test_runtime (length expanded_root) expanded_root 0 0
    = Some (1%nat, 1%nat).
Proof. split; vm_compute; reflexivity. Qed.

Lemma select_stops_where_work_remains_witness :
  ∃ n' tick' nd',
    @_select test_runtime (length expanded_root) expanded_root 0 0
    = Some (n', tick')
    ∧ expanded_root !! n' = Some nd' ∧ on_path expanded_root n' 0
    ∧ (is_terminal nd' = Some true ∨ is_fully_expanded nd' = false).
Proof.
  apply (@select_stops_where_work_remains test_runtime expanded_root 0 0).
  - exact test_runtime_no_nan.
  - exact tree_ok_expanded_root.
  - simpl. lia.
Defined.

(** X21: [expand_node] on a node of the tree that has untried moves never
    raises.  It tries the last untried move, which is the highest untried
    column; the new node is appended to the tree with that move, the parent
    reference, the player to move as the player who moved, the position
    after the move, no visits, no wins, no children and the legal moves of
    its position as untried moves; the parent loses the move from its
    untried moves and gets the new node as its last child. *)
Theorem expand_node_tries_the_highest_untried_column (h : list Node) (n : nat)
    (nd : Node) (us : list Z) (mv : Z) :
  tree_ok None h → h !! n = Some nd → untried_moves nd = us ++ [mv] →
  ∃ row g1 vm1,
    simulate_move (game_state nd) mv (get_next_player nd)
    = Some ((Some row, mv), g1)
    ∧ get_valid_moves g1 = Some vm1
    ∧ expand_node h n
      = Some (Some (length h),
              <[n := set_children_untried nd (children nd ++ [length h]) us]>
                (h ++ [ {| game_state := g1; move := Some mv; parent := Some n;
                           player_who_moved := Some (get_next_player nd);
                           visits := 0; wins2 := 0; children := [];
                           untried_moves := vm1 |} ]))
    ∧ ∀ c, c ∈ us → c < mv.
Proof.
  intros Hok Hn Hus. unfold expand_node. rewrite Hn. simpl.
  destruct (Hok n nd Hn) as [(Hwf & _ & Hpl & _ & vm & cm & Hvm & Hcm & _) _].
  unfold is_fully_expanded. rewrite Hus, length_app. simpl.
  rewrite bool_decide_eq_false_2 by lia. simpl.
  rewrite last_snoc, removelast_last, copy_game_id. simpl.
  pose proof (get_next_player_ok nd Hpl) as Hq.
  destruct (simulate_move_valid (game_state nd) vm mv (get_next_player nd) Hwf Hvm)
    as (row & g1 & Hs & Hwf1 & _ & _).
  { rewrite <- Hcm, Hus. apply elem_of_app. left. apply elem_of_app. right. left. }
  { by apply is_player_nonzero. }
  rewrite Hs. simpl. unfold Node_init. rewrite copy_game_id.
  pose proof (get_valid_moves_wf g1 Hwf1) as Hvm1. rewrite Hvm1. simpl.
  rewrite lookup_app_l by (by eapply lookup_lt_Some). rewrite Hn. simpl.
  eexists row, g1, _. split_and!; [done|done|done|].
  intros c Hc. pose proof (valid_moves_ascending _ _ Hwf Hvm) as Hasc.
  rewrite <- Hcm, Hus in Hasc.
  apply list_elem_of_lookup in Hc as [i Hi].
  apply (Hasc i (length us) c mv).
  - rewrite <- app_assoc. by apply lookup_app_l_Some.
  - rewrite <- app_assoc. rewrite lookup_app_r by lia.
    by rewrite Nat.sub_diag.
  - by eapply lookup_lt_Some.
Qed.

Lemma expand_node_tries_the_highest_untried_column_witness :
  ∃ row g1 vm1,
    simulate_move (new_game 6 7) 6 1 = Some ((Some row, 6), g1)
    ∧ get_valid_moves g1 = Some vm1
    ∧ expand_node fresh_root 0
      = Some (Some (length fresh_root),
              <[0%nat := set_children_untried
                           {| game_state := new_game 6 7; move := None;
                              parent := None; player_who_moved := Some 2;
                              visits := 0; wins2 := 0; children := [];
                              untried_moves := [0; 1; 2; 3; 4; 5; 6] |}
                           ([] ++ [length fresh_root]) [0; 1; 2; 3; 4; 5]]>
                (fresh_root
                 ++ [ {| game_state := g1; move := Some 6; parent := Some 0%nat;
                         player_who_moved := Some 1;
                         visits := 0; wins2 := 0; children := [];
                         untried_moves := vm1 |} ]))
    ∧ ∀ c, c ∈ [0; 1; 2; 3; 4; 5] → c < 6.
Proof.
  apply (expand_node_tries_the_highest_untried_column fresh_root 0
           {| game_state := new_game 6 7; move := None; parent := None;
              player_who_moved := Some 2; visits := 0; wins2 := 0;
              children := []; untried_moves := [0; 1; 2; 3; 4; 5; 6] |}
           [0; 1; 2; 3; 4; 5] 6).
  - exact tree_ok_fresh_root.
  - reflexivity.
  - reflexivity.
Defined.

(** ** A move into a full column *)

(** The board after [board[None][0] = v]: every cell holds [v]. *)
Lemma setitem_newaxis_fill g v :
  wf g →
  ∃ g1, setitem_newaxis g 0 v = Some g1 ∧ wf g1
    ∧ rows g1 = rows g ∧ cols g1 = cols g
    ∧ ∀ r c, 0 ≤ r < rows g → 0 ≤ c < cols g → getitem g1 r c = Some v.
Proof.
  intros Hwf. unfold setitem_newaxis.
  rewrite bool_decide_eq_true_2 by (by left).
  eexists. split; [done|]. pose proof Hwf as (Hr & Hlen & Hrows).
  split_and!; [|done|done|].
  - unfold wf. simpl. rewrite length_fmap. split_and!; [done..|].
    apply Forall_fmap. eapply Forall_impl; [done|]. simpl.
    intros row Hrow. by rewrite length_fmap.
  - intros r c Hr' Hc. unfold getitem, Py.index. simpl.
    rewrite length_fmap, position_in_range by lia. simpl.
    rewrite list_lookup_fmap.
    destruct (lookup_lt_is_Some_2 (board g) (Z.to_nat r)) as [row Hrow]; [lia|].
    rewrite Hrow. simpl. rewrite Forall_forall in Hrows.
    pose proof (Hrows row (list_elem_of_lookup_2 _ _ _ Hrow)) as Hl.
    rewrite length_fmap, position_in_range by lia. simpl.
    rewrite list_lookup_fmap.
    destruct (lookup_lt_is_Some_2 row (Z.to_nat c)) as [x Hx]; [lia|].
    by rewrite Hx.
Qed.

(** X22: [simulate_move] assumes a legal column.  On a full column of the
    board [get_next_open_row] gives [None] and the assignment goes through
    [board[None]]: for a column other than 0 it raises [IndexError]; for
    column 0 it overwrites every cell of the board with the player's token,
    and [undo_move] then clears the whole board instead of restoring it. *)
Theorem simulate_move_on_a_full_column (g : Connect4) (col p : Z) :
  wf g → 0 ≤ col < cols g →
  (∀ r, 0 ≤ r < rows g → ∃ v, getitem g r col = Some v ∧ v ≠ 0) →
  if bool_decide (col = 0) then
    ∃ g1 g2,
      simulate_move g col p = Some ((None, col), g1)
      ∧ (∀ r c, 0 ≤ r < rows g → 0 ≤ c < cols g → getitem g1 r c = Some p)
      ∧ undo_move g1 (None, col) = Some g2
      ∧ (∀ r c, 0 ≤ r < rows g → 0 ≤ c < cols g → getitem g2 r c = Some 0)
  else simulate_move g col p = None.
Proof.
  intros Hwf Hc Hfull.
  assert (get_next_open_row g col = Some None) as Hrow.
  { destruct (next_open_row_lowest g col Hwf Hc) as (res & Hres & Hspec).
    destruct res as [row|]; [|done].
    destruct Hspec as (Hr & H0 & _).
    destruct (Hfull row Hr) as (v & Hv & Hv0). congruence. }
  unfold simulate_move. rewrite Hrow. simpl.
  case_bool_decide as Hcol.
  - subst col.
    destruct (setitem_newaxis_fill g p Hwf) as (g1 & -> & Hwf1 & Hr1 & Hc1 & Hp).
    destruct (setitem_newaxis_fill g1 0 Hwf1) as (g2 & Hu & _ & _ & _ & H0).
    exists g1, g2. simpl. split_and!; [done|done|done|].
    intros r c Hr Hc'. apply H0; lia.
  - unfold setitem_newaxis. rewrite bool_decide_eq_false_2 by lia. done.
Qed.

Lemma simulate_move_on_a_full_column_witness :
  if bool_decide (0 = 0) then
    ∃ g1 g2,
      simulate_move (of_board [ [1; 0; 0]; [2; 0; 0] ]) 0 1 = Some ((None, 0), g1)
      ∧ (∀ r c, 0 ≤ r < rows (of_board [ [1; 0; 0]; [2; 0; 0] ]) →
                0 ≤ c < cols (of_board [ [1; 0; 0]; [2; 0; 0] ]) →
                getitem g1 r c = Some 1)
      ∧ undo_move g1 (None, 0) = Some g2
      ∧ (∀ r c, 0 ≤ r < rows (of_board [ [1; 0; 0]; [2; 0; 0] ]) →
                0 ≤ c < cols (of_board [ [1; 0; 0]; [2; 0; 0] ]) →
                getitem g2 r c = Some 0)
  else simulate_move (of_board [ [1; 0; 0]; [2; 0; 0] ]) 0 1 = None.
Proof.
  apply (simulate_move_on_a_full_column (of_board [ [1; 0; 0]; [2; 0; 0] ]) 0 1).
  - unfold wf. split_and!; [done..|]. repeat constructor.
  - vm_compute. split; congruence.
  - intros r Hr. simpl in Hr.
    assert (r = 0 ∨ r = 1) as [-> | ->] by lia; eexists; split;
      (reflexivity || done).
Defined.

(** ** The constructor *)

Lemma filter_all {A} (P : A → Prop) `{!∀ x, Decision (P x)} (l : list A) :
  Forall P l → filter P l = l.
Proof.
  induction 1 as [|x l Hx _ IH]; [done|].
  rewrite filter_cons, decide_True by done. by rewrite IH.
Qed.

Lemma getitem_new_game r c i j :
  0 ≤ i < r → 0 ≤ j < c → getitem (new_game r c) i j = Some 0.
Proof.
  intros Hi Hj. unfold getitem, Py.index, new_game, zeros. simpl.
  rewrite length_replicate, position_in_range by lia. simpl.
  rewrite lookup_replicate_2 by lia. simpl.
  rewrite length_replicate, position_in_range by lia. simpl.
  by rewrite lookup_replicate_2 by lia.
Qed.

(** X23: [Connect4(rows, cols)] with at least one row and one column is a
    board of the right shape with every cell empty; it satisfies gravity,
    the game is ongoing, and every column is a legal move. *)
Theorem new_game_is_empty_and_ongoing (r c : Z) :
  0 < r → 0 < c →
  wf (new_game r c) ∧ gravity (new_game r c)
  ∧ (∀ i j, 0 ≤ i < r → 0 ≤ j < c → getitem (new_game r c) i j = Some 0)
  ∧ get_game_state (new_game r c) = Some 0
  ∧ get_valid_moves (new_game r c) = Some (Py.range 0 c).
Proof.
  intros Hr Hc.
  assert (wf (new_game r c)) as Hwf.
  { unfold wf, new_game, zeros. simpl. rewrite length_replicate.
    split_and!; [done|lia|]. apply Forall_replicate.
    rewrite length_replicate. lia. }
  assert (∀ i j, 0 ≤ i < r → 0 ≤ j < c → getitem (new_game r c) i j = Some 0)
    as Hcells by (intros; by apply getitem_new_game).
  split_and!; [done| |done| |].
  - intros i j v Hi Hi1 Hj Hv Hv0. simpl in *.
    rewrite Hcells in Hv by lia. congruence.
  - unfold get_game_state.
    destruct (win_scan_spec (new_game r c) Hwf) as (w & -> & Hw).
    cbn [mbind option_bind].
    destruct w as [p|].
    { destruct Hw as [Hp (win & Hwin & Hof)].
      apply all_windows_elem in Hwin as (d & i & j & _ & Hi & Hj & -> & _).
      pose proof (proj1 (window_of_cells _ p i j d) Hof 0 ltac:(lia)) as H0.
      replace (i + 0 * d.1) with i in H0 by lia.
      replace (j + 0 * d.2) with j in H0 by lia.
      simpl in Hi, Hj. rewrite Hcells in H0 by done. congruence. }
    destruct (top_row_spec (new_game r c) Hwf) as (full & -> & Htop).
    cbn [mbind option_bind].
    destruct full; [|done].
    destruct (Htop 0) as (v & Hv & Hv0); [simpl; lia|].
    rewrite Hcells in Hv by lia. congruence.
  - rewrite get_valid_moves_wf by done. f_equal. apply filter_all.
    apply Forall_forall. intros j Hj%elem_of_range. unfold is_valid_location.
    simpl in Hj. by rewrite Hcells by lia.
Qed.

Lemma new_game_is_empty_and_ongoing_witness :
  wf (new_game 6 7) ∧ gravity (new_game 6 7)
  ∧ (∀ i j, 0 ≤ i < 6 → 0 ≤ j < 7 → getitem (new_game 6 7) i j = Some 0)
  ∧ get_game_state (new_game 6 7) = Some 0
  ∧ get_valid_moves (new_game 6 7) = Some (Py.range 0 7).
Proof. apply (new_game_is_empty_and_ongoing 6 7); lia. Defined.
